(** * simple-typst-editor: compile coordination, worker queue and debounce

    A shallow embedding of
    - [src/lib/typst/TypstCompilerService.ts] (module [Coordinator]),
    - [src/lib/typst/typst.worker.ts]         (module [Worker]),
    - [debounce] of [src/lib/utils/helpers.ts] (module [Helpers]), and the
      two download helpers of that file (module [Downloads]),
    - [src/lib/typst/examples/TypstExamples.ts] (module [Examples]),
    - [src/components/TypstEditor.tsx] and its variant without the example
      menu (module [Editor]),
    followed by the properties of the design document that concern them and
    by further properties of the code.

    Conventions.  Asynchronous functions are cut at their [await]s: the
    synchronous prefix and each continuation is a function on an explicit
    state, and the environment (the worker client, the renderer, the timer
    queue of the browser) supplies the values the code waits for.  Every
    externally visible action is appended to a trace, in program order. *)

From Stdlib Require Import List ZArith NArith String Ascii Bool Arith Lia Sorted.
Import ListNotations.

Local Open Scope string_scope.
Local Open Scope list_scope.

(** ** Values shared by the modules *)

(** A document source: a JavaScript string, as its UTF-16 code units. *)
Definition SourceText := list N.

(** The bytes of a [Uint8Array] / [ArrayBuffer]. *)
Definition Bytes := list Byte.byte.

(** A value caught by [catch (error)]: an [Error] object with its [message],
    or any other value with the text [String(error)] gives for it. *)
Inductive JsThrown :=
| ErrorObject (message : string)
| OtherValue (asString : string).

(** [error instanceof Error ? error.message : String(error)] *)
Definition error_text (e : JsThrown) : string :=
  match e with
  | ErrorObject m => m
  | OtherValue s => s
  end.

(** [n + 1] on a JavaScript number holding a non-negative integer: exact
    below 2^53, and at 2^53 the sum rounds back to 2^53. *)
Definition js_succ (n : Z) : Z :=
  if (n <? 2 ^ 53)%Z then (n + 1)%Z else n.

(* ===================================================================== *)
(** ** TypstCompilerService.ts *)
(* ===================================================================== *)

Module Coordinator.

(** [type CompileStatus = 'idle' | 'compiling' | 'done' | 'error'] *)
Inductive CompileStatus := Idle | Compiling | Done | Error.

(** An object URL handed out by [URL.createObjectURL].  The browser never
    returns the empty string, so [if (this.currentPdfUrl)] is the test
    "is not null"; a handle is the serial number of the URL. *)
Definition Url := nat.

(** [interface CompileResult] *)
Record CompileResult := mkResult {
  success : bool;
  pdf : option Bytes;
  pdfUrl : option Url;
  error : option string;
  status : CompileStatus
}.

(** [interface CompileListener]: a listener object, identified by [oid];
    each callback is optional, the flag says whether the object defines it.
    Two records stand for the same object ([===]) when they are equal.
    The callbacks themselves belong to the caller: a call of one is recorded
    in the trace, and they are taken not to throw and not to call back into
    the service. *)
Record CompileListener := mkListener {
  oid : nat;
  onStatusChange : bool;
  onSuccess : bool;
  onError : bool
}.

Definition listener_eqb (a b : CompileListener) : bool :=
  Nat.eqb (oid a) (oid b)
  && Bool.eqb (onStatusChange a) (onStatusChange b)
  && Bool.eqb (onSuccess a) (onSuccess b)
  && Bool.eqb (onError a) (onError b).

(** What the service does to the outside, in program order. *)
Inductive Effect :=
| CbStatusChange (l : CompileListener) (s : CompileStatus)
| CbSuccess (l : CompileListener) (p : Bytes) (u : Url)
| CbError (l : CompileListener) (msg : string)
| RevokeObjectURL (u : Url)
| CreateObjectURL (p : Bytes) (u : Url)
| ClientCompilePdf (code : SourceText)
| ClientDispose
| Returned (seq : Z) (r : CompileResult).

(** The private fields of [class TypstCompilerService]. *)
Record Service := mkService {
  compileSeq : Z;
  currentPdfUrl : option Url;
  listeners : list CompileListener
}.

(** The service in its surroundings: the serial of the next object URL the
    browser will hand out, the sequence numbers captured by the [compile]
    calls that are still waiting at their [await], and the trace. *)
Record World := mkWorld {
  svc : Service;
  nextUrl : Url;
  waiting : list Z;
  trace : list Effect
}.

Definition init : World :=
  mkWorld (mkService 0 None []) 0 [] [].

Definition emit (es : list Effect) (w : World) : World :=
  mkWorld (svc w) (nextUrl w) (waiting w) (trace w ++ es).

Definition set_svc (s : Service) (w : World) : World :=
  mkWorld s (nextUrl w) (waiting w) (trace w).

(** [Array.prototype.indexOf] with strict equality on objects: the index of
    the first occurrence, [-1] when there is none. *)
Fixpoint indexOf_from (l : list CompileListener) (x : CompileListener) (i : Z) : Z :=
  match l with
  | [] => (-1)%Z
  | y :: t => if listener_eqb y x then i else indexOf_from t x (i + 1)%Z
  end.

Definition indexOf (l : list CompileListener) (x : CompileListener) : Z :=
  indexOf_from l x 0.

(** [array.splice(index, 1)] for [index >= 0]. *)
Definition splice1 (l : list CompileListener) (index : Z) : list CompileListener :=
  firstn (Z.to_nat index) l ++ skipn (S (Z.to_nat index)) l.

(** [addListener(listener)]: the push; the returned closure is [unsubscribe]
    at the same listener. *)
Definition addListener (listener : CompileListener) (w : World) : World :=
  let s := svc w in
  set_svc (mkService (compileSeq s) (currentPdfUrl s) (listeners s ++ [listener])) w.

(** The closure returned by [addListener(listener)]. *)
Definition unsubscribe (listener : CompileListener) (w : World) : World :=
  let s := svc w in
  let index := indexOf (listeners s) listener in
  if (index >? -1)%Z
  then set_svc (mkService (compileSeq s) (currentPdfUrl s) (splice1 (listeners s) index)) w
  else w.

(** [listeners.forEach(listener => listener.onX?.(...))]: the calls made, in
    the order of the array, one for each listener that defines the callback. *)
Definition status_calls (st : CompileStatus) (ls : list CompileListener) : list Effect :=
  flat_map (fun l => if onStatusChange l then [CbStatusChange l st] else []) ls.

Definition success_calls (p : Bytes) (u : Url) (ls : list CompileListener) : list Effect :=
  flat_map (fun l => if onSuccess l then [CbSuccess l p u] else []) ls.

Definition error_calls (msg : string) (ls : list CompileListener) : list Effect :=
  flat_map (fun l => if onError l then [CbError l msg] else []) ls.

(** [notifyStatusChange], [notifySuccess], [notifyError] *)
Definition notifyStatusChange (st : CompileStatus) (w : World) : World :=
  emit (status_calls st (listeners (svc w))) w.

Definition notifySuccess (p : Bytes) (u : Url) (w : World) : World :=
  emit (success_calls p u (listeners (svc w))) w.

Definition notifyError (msg : string) (w : World) : World :=
  emit (error_calls msg (listeners (svc w))) w.

(** [URL.revokeObjectURL(u)] and [URL.createObjectURL(new Blob([p]))]. *)
Definition revokeObjectURL (u : Url) (w : World) : World :=
  emit [RevokeObjectURL u] w.

Definition createObjectURL (p : Bytes) (w : World) : Url * World :=
  let u := nextUrl w in
  (u, mkWorld (svc w) (S u) (waiting w) (trace w ++ [CreateObjectURL p u])).

(** What [await this.client.compilePdf(code, {})] comes back with. *)
Inductive ClientReply :=
| Resolved (result_pdf : Bytes)
| Rejected (e : JsThrown).

(** [compile(code)] up to its [await]: lines 46-51.  Returns the captured
    [seq]. *)
Definition compile_begin (code : SourceText) (w : World) : Z * World :=
  let s := svc w in
  let seq := js_succ (compileSeq s) in
  let w1 := set_svc (mkService seq (currentPdfUrl s) (listeners s)) w in
  let w2 := notifyStatusChange Compiling w1 in
  let w3 := emit [ClientCompilePdf code] w2 in
  (seq, w3).

(** The outcome of a superseded call. *)
Definition superseded : CompileResult :=
  mkResult false None None None Idle.

(** [compile(code)] after its [await]: lines 51-98, for the call that
    captured [seq]. *)
Definition compile_resume (seq : Z) (r : ClientReply) (w : World) : CompileResult * World :=
  match r with
  | Resolved result_pdf =>
      if negb (seq =? compileSeq (svc w))%Z then (superseded, w)
      else
        let w1 := match currentPdfUrl (svc w) with
                  | Some old => revokeObjectURL old w
                  | None => w
                  end in
        let '(url, w2) := createObjectURL result_pdf w1 in
        let s := svc w2 in
        let w3 := set_svc (mkService (compileSeq s) (Some url) (listeners s)) w2 in
        let w4 := notifySuccess result_pdf url w3 in
        let w5 := notifyStatusChange Done w4 in
        (mkResult true (Some result_pdf) (Some url) None Done, w5)
  | Rejected e =>
      if negb (seq =? compileSeq (svc w))%Z then (superseded, w)
      else
        let errorMsg := error_text e in
        let w1 := notifyError errorMsg w in
        let w2 := notifyStatusChange Error w1 in
        (mkResult false None None (Some errorMsg) Error, w2)
  end.

(** [getCurrentPdfUrl()] *)
Definition getCurrentPdfUrl (w : World) : option Url := currentPdfUrl (svc w).

(** [dispose()] *)
Definition dispose (w : World) : World :=
  let w1 := emit [ClientDispose] w in
  let w2 := match currentPdfUrl (svc w1) with
            | Some u =>
                let w' := revokeObjectURL u w1 in
                let s := svc w' in
                set_svc (mkService (compileSeq s) None (listeners s)) w'
            | None => w1
            end in
  let s := svc w2 in
  set_svc (mkService (compileSeq s) (currentPdfUrl s) []) w2.

(** *** Executions *)

(** What can happen to a service: a caller invokes a method, or the reply
    to an outstanding [compile] arrives and its continuation runs. *)
Inductive Event :=
| EvCompile (code : SourceText)
| EvReply (seq : Z) (r : ClientReply)
| EvAddListener (l : CompileListener)
| EvUnsubscribe (l : CompileListener)
| EvDispose.

Fixpoint remove_first (x : Z) (l : list Z) : list Z :=
  match l with
  | [] => []
  | y :: t => if (y =? x)%Z then t else y :: remove_first x t
  end.

Definition mem (x : Z) (l : list Z) : bool := existsb (Z.eqb x) l.

Definition step (e : Event) (w : World) : World :=
  match e with
  | EvCompile code =>
      let '(seq, w') := compile_begin code w in
      mkWorld (svc w') (nextUrl w') (waiting w' ++ [seq]) (trace w')
  | EvReply seq r =>
      if mem seq (waiting w) then
        let '(res, w') := compile_resume seq r w in
        mkWorld (svc w') (nextUrl w') (remove_first seq (waiting w'))
                (trace w' ++ [Returned seq res])
      else w
  | EvAddListener l => addListener l w
  | EvUnsubscribe l => unsubscribe l w
  | EvDispose => dispose w
  end.

Definition run (evs : list Event) (w : World) : World :=
  fold_left (fun acc e => step e acc) evs w.

(** *** Observations on a trace *)

(** The object URLs that are live after a trace: created and not revoked. *)
Fixpoint live_after (t : list Effect) (acc : list Url) : list Url :=
  match t with
  | [] => acc
  | CreateObjectURL _ u :: t' => live_after t' (acc ++ [u])
  | RevokeObjectURL u :: t' => live_after t' (filter (fun v => negb (Nat.eqb v u)) acc)
  | _ :: t' => live_after t' acc
  end.

Definition live (t : list Effect) : list Url := live_after t [].

(** The callbacks a trace delivers to one listener object. *)
Definition delivered_to (l : CompileListener) (e : Effect) : bool :=
  match e with
  | CbStatusChange l' _ | CbSuccess l' _ _ | CbError l' _ => listener_eqb l' l
  | _ => false
  end.

Definition is_callback (e : Effect) : bool :=
  match e with
  | CbStatusChange _ _ | CbSuccess _ _ _ | CbError _ _ => true
  | _ => false
  end.

(** The status the listeners were last told. *)
Fixpoint last_status (t : list Effect) (acc : CompileStatus) : CompileStatus :=
  match t with
  | [] => acc
  | CbStatusChange _ s :: t' => last_status t' s
  | _ :: t' => last_status t' acc
  end.

(** *** Notions the properties are stated with *)

(** The effects a step adds to a trace. *)
Definition added (w w' : World) : list Effect := skipn (List.length (trace w)) (trace w').

(** The effects that make or revoke an object URL, and lists without any. *)
Definition url_op (e : Effect) : bool :=
  match e with
  | RevokeObjectURL _ | CreateObjectURL _ _ => true
  | _ => false
  end.

Definition quiet (es : list Effect) : Prop := forallb (fun e => negb (url_op e)) es = true.

(** The numbers of the waiting calls are at most the counter, and pairwise
    different as long as the counter is below 2^53. *)
Definition numbered (w : World) : Prop :=
  (0 <= compileSeq (svc w))%Z
  /\ Forall (fun s => (s <= compileSeq (svc w))%Z) (waiting w)
  /\ ((compileSeq (svc w) < 2 ^ 53)%Z -> NoDup (waiting w)).

(** From the live URLs [acc] on, no prefix of [es] leaves more than one. *)
Definition steady (acc : list Url) (es : list Effect) : Prop :=
  forall m, List.length (live_after (firstn m es) acc) <= 1.

(** The handle the service holds, as a list. *)
Definition handle_of (o : option Url) : list Url :=
  match o with Some u => [u] | None => [] end.

(** The live URLs are the handle the service holds, and no prefix of the
    trace leaves more than one live. *)
Definition tidy (w : World) : Prop :=
  live (trace w) = handle_of (currentPdfUrl (svc w))
  /\ forall n, List.length (live (firstn n (trace w))) <= 1.

(** The calls of [client.compilePdf]. *)
Definition client_call (e : Effect) : bool :=
  match e with ClientCompilePdf _ => true | _ => false end.

(** A call of [compile(code)] in [w] fails fast: it does not get as far as
    the worker client. *)
Definition fails_fast (w : World) (code : SourceText) : Prop :=
  existsb client_call (added w (snd (compile_begin code w))) = false.

(** A list without the first occurrence of [x]. *)
Fixpoint drop_first (x : CompileListener) (l : list CompileListener) : list CompileListener :=
  match l with
  | [] => []
  | y :: t => if listener_eqb y x then t else y :: drop_first x t
  end.

(** How many times a listener object is registered. *)
Definition registrations (l : CompileListener) (w : World) : nat :=
  List.length (filter (fun x => listener_eqb x l) (listeners (svc w))).

(** Callbacks go to registered listeners only. *)
Definition silent_for (l : CompileListener) (es : list Effect) : Prop :=
  filter (delivered_to l) es = [].

End Coordinator.

(* ===================================================================== *)
(** ** typst.worker.ts *)
(* ===================================================================== *)

Module Worker.

(** [type CompileRequest]; [images] is optional. *)
Record CompileRequest := mkRequest {
  type : string;
  id : string;
  mainTypst : SourceText;
  images : option (list (string * Bytes))
}.

(** [type CompileResponse]: [type] is always ['compile-result']; the two
    variants are [ok: true] and [ok: false]. *)
Inductive CompileResponse :=
| ResponseOk (rid : string) (pdf : Bytes) (diagnostics : list string)
| ResponseFailed (rid : string) (error : string) (diagnostics : list string).


Definition response_id (r : CompileResponse) : string :=
  match r with ResponseOk i _ _ | ResponseFailed i _ _ => i end.




Definition CORE_FONTS : list string :=
  [ "/fonts/IBMPlexSans-Regular.ttf";
    "/fonts/IBMPlexSans-Bold.ttf";
    "/fonts/NewCMMath-Regular.otf";
    "/fonts/NewCMMath-Book.otf" ].

Definition EMOJI_FONTS : list string :=
  [ "/fonts/NotoColorEmoji.ttf" ].

(** A compiler object made by [createCompilerWithFonts(fonts)]: the [serial]
    counts the constructions of this worker, first one 0. *)
Record TypstCompiler := mkCompiler {
  serial : nat;
  fonts : list string
}.

(** A [Promise<TypstCompiler>]: the one [createCompilerWithFonts] returns,
    which settles as the initialisation of that compiler does, or
    [Promise.resolve(compiler)]. *)
Inductive CompilerPromise :=
| InitPromise (c : TypstCompiler)
| ResolvedPromise (c : TypstCompiler).

Definition promised (p : CompilerPromise) : TypstCompiler :=
  match p with InitPromise c | ResolvedPromise c => c end.

(** What the worker does to the outside, in program order.  [UnitBegin] and
    [UnitEnd] mark where the callback queued for a message starts and where
    the promise it returns settles. *)
Inductive Effect :=
| CreateCompiler (c : TypstCompiler)
| ConsoleLog (text : string)
| AddSource (c : TypstCompiler) (path : string) (src : SourceText)
| MapShadow (c : TypstCompiler) (path : string) (data : Bytes)
| Compile (c : TypstCompiler) (mainFilePath : string)
| PostMessage (r : CompileResponse)
| UnitBegin (rid : string)
| UnitEnd (rid : string).

(** What [compiler.compile(...)] comes back with: it throws, or returns an
    object whose [result] and [diagnostics] may be missing; the diagnostics
    are given as [String] makes them. *)
Inductive RenderOutcome :=
| RenderThrows (e : JsThrown)
| RenderReturns (result : option Bytes) (diagnostics : option (list string)).

(** The renderer package, from outside the repository: whether the
    initialisation of a compiler fails (and with what), and what a render
    returns given the compiler and everything done so far. *)
Record Renderer := mkRenderer {
  init_failure : TypstCompiler -> option JsThrown;
  render : TypstCompiler -> list Effect -> RenderOutcome
}.

(** The module-level variables [compilerPromise] and [emojiLoaded], the
    number of compilers constructed so far, and the trace. *)
Record State := mkState {
  compilerPromise : option CompilerPromise;
  emojiLoaded : bool;
  constructed : nat;
  trace : list Effect
}.

Definition init : State := mkState None false 0 [].

(** How a piece of the worker's code ends. *)
Inductive Completion (A : Type) :=
| Normal (a : A)
| Throw (e : JsThrown).
Arguments Normal {A} a.
Arguments Throw {A} e.

(** Code that reads and writes the module variables and may throw. *)
Definition M (A : Type) := State -> Completion A * State.

Definition ret {A} (a : A) : M A := fun s => (Normal a, s).

Definition throw {A} (e : JsThrown) : M A := fun s => (Throw e, s).

Definition bind {A B} (m : M A) (k : A -> M B) : M B :=
  fun s => match m s with
           | (Normal a, s') => k a s'
           | (Throw e, s') => (Throw e, s')
           end.

(** [try { body } catch (error) { handler(error) }] *)
Definition try_catch {A} (body : M A) (handler : JsThrown -> M A) : M A :=
  fun s => match body s with
           | (Normal a, s') => (Normal a, s')
           | (Throw e, s') => handler e s'
           end.

Notation "x <- m ;; k" := (bind m (fun x => k))
  (at level 61, m at next level, right associativity).
Notation "m ;;; k" := (bind m (fun _ => k))
  (at level 61, right associativity).

Definition get : M State := fun s => (Normal s, s).

Definition emit (e : Effect) : M unit :=
  fun s => (Normal tt,
            mkState (compilerPromise s) (emojiLoaded s) (constructed s) (trace s ++ [e])).

Definition set_emojiLoaded (b : bool) : M unit :=
  fun s => (Normal tt, mkState (compilerPromise s) b (constructed s) (trace s)).

Definition set_compilerPromise (p : CompilerPromise) : M unit :=
  fun s => (Normal tt, mkState (Some p) (emojiLoaded s) (constructed s) (trace s)).

(** [needsEmojiFont]: the regular expression has no [u] flag, so it looks at
    UTF-16 code units: a surrogate, or U+2600..U+26FF, or U+2700..U+27BF. *)
Definition emoji_unit (c : N) : bool :=
  ((0xD800 <=? c) && (c <=? 0xDFFF)
   || (0x2600 <=? c) && (c <=? 0x26FF)
   || (0x2700 <=? c) && (c <=? 0x27BF))%N.

Definition needsEmojiFont (text : SourceText) : bool := existsb emoji_unit text.

(** [getCurrentFonts()] *)
Definition getCurrentFonts (s : State) : list string :=
  if emojiLoaded s then CORE_FONTS ++ EMOJI_FONTS else CORE_FONTS.

(** ['Typst 编译失败（无诊断信息）'] *)
Definition NO_DIAGNOSTICS : string := "Typst 编译失败（无诊断信息）".

Definition newline : string := String (ascii_of_nat 10) EmptyString.

(** [diagnostics.join('\n') || NO_DIAGNOSTICS]: the empty string is falsy. *)
Definition failure_message (diagnostics : list string) : string :=
  let joined := String.concat newline diagnostics in
  if String.eqb joined "" then NO_DIAGNOSTICS else joined.

Section WithRenderer.

Variable R : Renderer.

(** [createCompilerWithFonts(fonts)] up to the promise it returns. *)
Definition createCompilerWithFonts (fs : list string) : M CompilerPromise :=
  fun s =>
    let c := mkCompiler (constructed s) fs in
    (Normal (InitPromise c),
     mkState (compilerPromise s) (emojiLoaded s) (S (constructed s))
             (trace s ++ [CreateCompiler c])).

(** [await p] for a compiler promise. *)
Definition await (p : CompilerPromise) : M TypstCompiler :=
  match p with
  | ResolvedPromise c => ret c
  | InitPromise c =>
      match init_failure R c with
      | None => ret c
      | Some e => throw e
      end
  end.

(** [upgradeCompilerWithEmoji()] *)
Definition upgradeCompilerWithEmoji : M unit :=
  s <- get ;;
  if emojiLoaded s then ret tt
  else
    set_emojiLoaded true ;;;
    emit (ConsoleLog "Typst - Upgrading compiler with emoji fonts...") ;;;
    s1 <- get ;;
    p <- createCompilerWithFonts (getCurrentFonts s1) ;;
    newCompiler <- await p ;;
    set_compilerPromise (ResolvedPromise newCompiler) ;;;
    emit (ConsoleLog "Typst - Compiler upgraded successfully.").

(** [getCompiler()] *)
Definition getCompiler : M CompilerPromise :=
  s <- get ;;
  match compilerPromise s with
  | Some p => ret p
  | None =>
      p <- createCompilerWithFonts CORE_FONTS ;;
      set_compilerPromise p ;;;
      ret p
  end.

(** [for (const [path, data] of Object.entries(images)) compiler.mapShadow('/' + path, data)] *)
Fixpoint mapShadows (c : TypstCompiler) (entries : list (string * Bytes)) : M unit :=
  match entries with
  | [] => ret tt
  | (path, data) :: rest => emit (MapShadow c ("/" ++ path) data) ;;; mapShadows c rest
  end.

(** [compiler.compile({ mainFilePath: '/main.typ', format: 1, diagnostics: 'unix' })] *)
Definition compile (c : TypstCompiler) : M (option Bytes * option (list string)) :=
  emit (Compile c "/main.typ") ;;;
  s <- get ;;
  match render R c (trace s) with
  | RenderThrows e => throw e
  | RenderReturns result diagnostics => ret (result, diagnostics)
  end.

(** [compilePdf(mainTypst, images = {})] *)
Definition compilePdf (mainTypst : SourceText) (imgs : option (list (string * Bytes)))
  : M (Bytes * list string) :=
  (if needsEmojiFont mainTypst then upgradeCompilerWithEmoji else ret tt) ;;;
  p <- getCompiler ;;
  compiler <- await p ;;
  emit (AddSource compiler "/main.typ" mainTypst) ;;;
  mapShadows compiler (match imgs with Some e => e | None => [] end) ;;;
  r <- compile compiler ;;
  let diagnostics := match snd r with Some d => d | None => [] end in
  match fst r with
  | None => throw (ErrorObject (failure_message diagnostics))
  | Some result => ret (result, diagnostics)
  end.

(** The callback [onmessage] chains on [compileQueue] for a message. *)
Definition queued_unit (message : CompileRequest) : M unit :=
  try_catch
    (r <- compilePdf (mainTypst message) (images message) ;;
     let pdfCopy := fst r in
     emit (PostMessage (ResponseOk (id message) pdfCopy (snd r))))
    (fun error =>
       emit (PostMessage (ResponseFailed (id message) (error_text error) []))).

(** *** The message handler and the promise chain [compileQueue]

    [compileQueue = compileQueue.then(callback)] appends a callback to a
    chain of promises: a callback starts once the promise before it is
    fulfilled, that is once the callback before it has returned and the
    promise it returned has settled; were a promise of the chain rejected,
    every later promise would be rejected with it and its callback skipped.
    [settled] is how the last settled promise of the chain ended, [queued]
    the callbacks behind it, oldest first, and [running] the callback that
    has started and whose promise has not settled. *)
Inductive Settled := Fulfilled | RejectedWith (e : JsThrown).

Record Loop := mkLoop {
  vars : State;
  settled : Settled;
  running : option CompileRequest;
  queued : list CompileRequest
}.

Definition start : Loop := mkLoop init Fulfilled None [].

(** [ctx.onmessage]: [event.data] may be missing. *)
Definition onmessage (data : option CompileRequest) (L : Loop) : Loop :=
  match data with
  | None => L
  | Some message =>
      if negb (String.eqb (type message) "compile") then L
      else mkLoop (vars L) (settled L) (running L) (queued L ++ [message])
  end.

Definition mark (e : Effect) (s : State) : State := snd (emit e s).

(** One turn of the job queue for the chain: the running callback runs to
    the end and its promise settles, or the next callback is taken up. *)
Definition turn (L : Loop) : Loop :=
  match running L with
  | Some message =>
      let '(c, s) := queued_unit message (vars L) in
      mkLoop (mark (UnitEnd (id message)) s)
             (match c with Normal _ => Fulfilled | Throw e => RejectedWith e end)
             None (queued L)
  | None =>
      match queued L with
      | [] => L
      | message :: rest =>
          match settled L with
          | Fulfilled =>
              mkLoop (mark (UnitBegin (id message)) (vars L)) Fulfilled (Some message) rest
          | RejectedWith e =>
              mkLoop (vars L) (RejectedWith e) None rest
          end
      end
  end.

Inductive Event :=
| Message (data : option CompileRequest)
| Turn.

Definition step (e : Event) (L : Loop) : Loop :=
  match e with
  | Message data => onmessage data L
  | Turn => turn L
  end.

Definition run (evs : list Event) (L : Loop) : Loop :=
  fold_left (fun acc e => step e acc) evs L.

(** A message handled from start to end with nothing in between. *)
Definition handle (message : CompileRequest) (s : State) : State :=
  snd (queued_unit message s).

Definition handle_all (ms : list CompileRequest) (s : State) : State :=
  fold_left (fun acc m => handle m acc) ms s.

End WithRenderer.

(** *** The renderer state of the design *)

Inductive RendererState := Uninitialized | Base | Upgraded.

Fixpoint fonts_eqb (a b : list string) : bool :=
  match a, b with
  | [], [] => true
  | x :: a', y :: b' => String.eqb x y && fonts_eqb a' b'
  | _, _ => false
  end.

(** The state is read off [compilerPromise]: no promise yet, or the font set
    of the compiler it holds. *)
Definition renderer_state (s : State) : RendererState :=
  match compilerPromise s with
  | None => Uninitialized
  | Some p =>
      if fonts_eqb (fonts (promised p)) (CORE_FONTS ++ EMOJI_FONTS) then Upgraded else Base
  end.

(** The compilers a trace constructs with the extended font set. *)
Definition is_upgrade_construction (e : Effect) : bool :=
  match e with
  | CreateCompiler c => fonts_eqb (fonts c) (CORE_FONTS ++ EMOJI_FONTS)
  | _ => false
  end.

Definition is_construction (e : Effect) : bool :=
  match e with CreateCompiler _ => true | _ => false end.

(** The compilers a trace renders with, in order. *)
Fixpoint rendered_with (t : list Effect) : list TypstCompiler :=
  match t with
  | [] => []
  | Compile c _ :: t' => c :: rendered_with t'
  | _ :: t' => rendered_with t'
  end.

Fixpoint posted (t : list Effect) : list CompileResponse :=
  match t with
  | [] => []
  | PostMessage r :: t' => r :: posted t'
  | _ :: t' => posted t'
  end.

Definition is_marker (e : Effect) : bool :=
  match e with UnitBegin _ | UnitEnd _ => true | _ => false end.

(** *** Notions the properties are stated with *)

Section Analysis.

Variable R : Renderer.

(** [compilePdf], lines 154-159: upgrade if the text asks for it, then get
    the compiler. *)
Definition acquire (src : SourceText) : M TypstCompiler :=
  (if needsEmojiFont src then upgradeCompilerWithEmoji R else ret tt) ;;;
  p <- getCompiler ;;
  await R p.

(** [images = {}] and [result.diagnostics ?? []] *)
Definition entries_of (imgs : option (list (string * Bytes))) : list (string * Bytes) :=
  match imgs with Some e => e | None => [] end.

Definition diagnostics_of (d : option (list string)) : list string :=
  match d with Some x => x | None => [] end.

(** [compilePdf], lines 160-177: register the inputs, render, read the
    result. *)
Definition typeset (c : TypstCompiler) (src : SourceText)
    (imgs : option (list (string * Bytes))) : M (Bytes * list string) :=
  emit (AddSource c "/main.typ" src) ;;;
  mapShadows c (entries_of imgs) ;;;
  r <- compile R c ;;
  match fst r with
  | None => throw (ErrorObject (failure_message (diagnostics_of (snd r))))
  | Some result => ret (result, diagnostics_of (snd r))
  end.

(** The effects [typeset] adds to the trace. *)
Definition shadow (c : TypstCompiler) (e : string * Bytes) : Effect :=
  MapShadow c ("/" ++ fst e) (snd e).

Definition typeset_effects (c : TypstCompiler) (src : SourceText)
    (imgs : option (list (string * Bytes))) : list Effect :=
  AddSource c "/main.typ" src :: map (shadow c) (entries_of imgs) ++ [Compile c "/main.typ"].

(** A state with further effects in its trace. *)
Definition extend (s : State) (es : list Effect) : State :=
  mkState (compilerPromise s) (emojiLoaded s) (constructed s) (trace s ++ es).

(** How [typeset] ends, from what the renderer returns on the trace it is
    called with. *)
Definition typeset_result (c : TypstCompiler) (t : list Effect) : Completion (Bytes * list string) :=
  match render R c t with
  | RenderThrows e => Throw e
  | RenderReturns None d => Throw (ErrorObject (failure_message (diagnostics_of d)))
  | RenderReturns (Some result) d => Normal (result, diagnostics_of d)
  end.

(** The compiler the next construction makes, with the extended and with
    the default font set. *)
Definition upgraded_compiler (s : State) : TypstCompiler :=
  mkCompiler (constructed s) (CORE_FONTS ++ EMOJI_FONTS).

Definition base_compiler (s : State) : TypstCompiler :=
  mkCompiler (constructed s) CORE_FONTS.

(** The two [console.log] lines of [upgradeCompilerWithEmoji]. *)
Definition LOG_UPGRADING : Effect :=
  ConsoleLog "Typst - Upgrading compiler with emoji fonts...".

Definition LOG_UPGRADED : Effect :=
  ConsoleLog "Typst - Compiler upgraded successfully.".

(** How the initialisation of a compiler ends, and what [await p] gives. *)
Definition initialised (c : TypstCompiler) : Completion TypstCompiler :=
  match init_failure R c with
  | None => Normal c
  | Some e => Throw e
  end.

Definition awaited (p : CompilerPromise) : Completion TypstCompiler :=
  match p with
  | ResolvedPromise c => Normal c
  | InitPromise c => initialised c
  end.

(** The reply to a message, from how [compilePdf] ended. *)
Definition reply (message : CompileRequest) (c : Completion (Bytes * list string))
  : CompileResponse :=
  match c with
  | Normal r => ResponseOk (id message) (fst r) (snd r)
  | Throw e => ResponseFailed (id message) (error_text e) []
  end.

(** The effects a step of the worker adds to the trace. *)
Definition appended (s s' : State) : list Effect :=
  skipn (List.length (trace s)) (trace s').

(** How many compilers with the extended font set the trace constructs. *)
Definition upgrade_count (s : State) : nat :=
  List.length (filter is_upgrade_construction (trace s)).

(** What holds of every state the worker reaches: before [emojiLoaded] is
    set nothing was upgraded; at most one upgrade was constructed; and the
    upgraded state holds a resolved promise. *)
Definition sound (s : State) : Prop :=
  (emojiLoaded s = false -> upgrade_count s = 0 /\ renderer_state s <> Upgraded)
  /\ upgrade_count s <= 1
  /\ (renderer_state s = Upgraded ->
      exists c, compilerPromise s = Some (ResolvedPromise c)
                /\ fonts c = CORE_FONTS ++ EMOJI_FONTS).



(** One message handled between its two marks, and a list of messages
    handled one after the other. *)
Definition whole_unit (m : CompileRequest) (s : State) : State :=
  mark (UnitEnd (id m)) (handle R m (mark (UnitBegin (id m)) s)).

Definition in_series (ms : list CompileRequest) (s : State) : State :=
  fold_left (fun acc m => whole_unit m acc) ms s.

(** The messages [onmessage] queues, in the order they arrive. *)
Definition compile_messages (evs : list Event) : list CompileRequest :=
  flat_map (fun e => match e with
                     | Message (Some m) => if String.eqb (type m) "compile" then [m] else []
                     | _ => []
                     end) evs.

(** The messages taken in and not finished: the running one, then the
    queued ones. *)
Definition in_hand (L : Loop) : list CompileRequest :=
  match running L with Some m => [m] | None => [] end ++ queued L.

(** The begin mark of the running message, if one is running. *)
Definition begun (r : option CompileRequest) (s : State) : State :=
  match r with Some m => mark (UnitBegin (id m)) s | None => s end.

(** The messages received are those finished, then those in hand; the
    variables are those of handling the finished ones in series; the chain is
    not rejected. *)
Definition orderly (received : list CompileRequest) (L : Loop) : Prop :=
  exists finished,
    received = finished ++ in_hand L
    /\ vars L = begun (running L) (in_series finished init)
    /\ settled L = Fulfilled.

(** The work left: two turns for a queued message, one for the running. *)
Definition work (L : Loop) : nat :=
  2 * List.length (queued L) + match running L with Some _ => 1 | None => 0 end.

(** The marks of messages handled in series. *)
Definition marks (ms : list CompileRequest) : list Effect :=
  flat_map (fun m => [UnitBegin (id m); UnitEnd (id m)]) ms.

End Analysis.

(** *** Sample renderers and messages *)

(** ASCII text as code units. *)
Definition units (s : string) : SourceText :=
  map N_of_ascii (list_ascii_of_string s).

Definition DOCUMENT : Bytes := [Byte.x25; Byte.x50; Byte.x44; Byte.x46].


(** A renderer whose initialisation fails when the emoji font is asked for. *)
Definition renderer_without_emoji : Renderer :=
  mkRenderer
    (fun c => if existsb (String.eqb "/fonts/NotoColorEmoji.ttf") (fonts c)
              then Some (ErrorObject "Failed to fetch")
              else None)
    (fun _ _ => RenderReturns (Some DOCUMENT) (Some [])).

Definition UNCLOSED : string := "/main.typ:1:8: error: unclosed delimiter".

(** A renderer that rejects what it is given, with one diagnostic. *)
Definition renderer_rejecting : Renderer :=
  mkRenderer (fun _ => None) (fun _ _ => RenderReturns None (Some [UNCLOSED])).

Definition hello_message : CompileRequest :=
  mkRequest "compile" "req-1" (units "= Hello") None.

(** A text with U+2600. *)
Definition sun_message : CompileRequest :=
  mkRequest "compile" "req-2" (units "Sun " ++ [0x2600]%N) None.

Definition unclosed_message : CompileRequest :=
  mkRequest "compile" "req-3" (units "= Hello *") None.

End Worker.

(* ===================================================================== *)
(** ** helpers.ts: debounce *)
(* ===================================================================== *)

Module Helpers.

Section Debounce.

(** [Parameters<T>]: what one call of [func] is given. *)
Variable Args : Type.

(** How a call of [func] ends. *)
Inductive Outcome := Returns | Throws.

(** What [func] can do to the closure of [debounce] while it runs: call the
    debounced function, or call its [cancel]. *)
Inductive Reentry :=
| CallsDebounced (a : Args)
| CallsCancel.

(** One call of [func] as the closure sees it: the calls it makes back, in
    order, and how it ends. *)
Record Behaviour := mkBehaviour {
  reentries : list Reentry;
  outcome : Outcome
}.

(** [func]: what it does when it is called, given the arguments of its
    earlier calls and those of this call. *)
Variable func : list Args -> Args -> Behaviour.

(** [delay]: a whole, non-negative number of milliseconds. *)
Variable delay : nat.

(** The time [window.setTimeout(callback, delay)] lets pass: the browser
    converts [delay] to a 32-bit signed integer, so that 2^31 and more wrap
    around, and takes a negative value as 0. *)
Definition timer_delay : nat :=
  let d := (Z.of_nat delay mod 2 ^ 32)%Z in
  if (d <? 2 ^ 31)%Z then Z.to_nat d else 0.

(** A timer of the browser set by [window.setTimeout(callback, delay)]; the
    callback of [debounce] is determined by the [args] it closes over. *)
Record Timer := mkTimer {
  handle : nat;
  due : nat;
  args : Args
}.

(** [timeoutId] of the closure, the clock, the pending timers of the
    browser in the order they were set, the next handle [setTimeout] will
    return, the calls of [func] made so far, and the calls of the debounced
    function made so far. *)
Record State := mkState {
  timeoutId : option nat;
  now : nat;
  timers : list Timer;
  nextHandle : nat;
  invoked : list Args;
  received : list Args
}.

Definition init : State := mkState None 0 [] 1 [] [].

(** [clearTimeout(h)] *)
Definition clearTimeout (h : nat) (s : State) : State :=
  mkState (timeoutId s) (now s)
          (filter (fun t => negb (Nat.eqb (handle t) h)) (timers s))
          (nextHandle s) (invoked s) (received s).

(** [window.setTimeout(() => { func(...args); timeoutId = null }, delay)] *)
Definition setTimeout (a : Args) (s : State) : nat * State :=
  let h := nextHandle s in
  (h, mkState (timeoutId s) (now s)
              (timers s ++ [mkTimer h (now s + timer_delay) a])
              (S h) (invoked s) (received s)).

(** [debounced(...args)] *)
Definition debounced (a : Args) (s : State) : State :=
  let s1 := match timeoutId s with
            | Some h => clearTimeout h s
            | None => s
            end in
  let '(h, s2) := setTimeout a s1 in
  mkState (Some h) (now s2) (timers s2) (nextHandle s2) (invoked s2) (received s2 ++ [a]).

(** [debounced.cancel()] *)
Definition cancel (s : State) : State :=
  match timeoutId s with
  | Some h =>
      let s1 := clearTimeout h s in
      mkState None (now s1) (timers s1) (nextHandle s1) (invoked s1) (received s1)
  | None => s
  end.

(** A call [func] makes back while it runs. *)
Definition reenter (s : State) (r : Reentry) : State :=
  match r with
  | CallsDebounced a => debounced a s
  | CallsCancel => cancel s
  end.

(** The timer callback: [func(...args); timeoutId = null].  [func] runs
    with whatever it calls back; the assignment is reached only when [func]
    returns, and when [func] throws the exception leaves the callback. *)
Definition fire (t : Timer) (s : State) : State :=
  let b := func (invoked s) (args t) in
  let s1 := mkState (timeoutId s) (now s) (timers s) (nextHandle s)
                    (invoked s ++ [args t]) (received s) in
  let s2 := fold_left reenter (reentries b) s1 in
  match outcome b with
  | Returns => mkState None (now s2) (timers s2) (nextHandle s2) (invoked s2) (received s2)
  | Throws => s2
  end.

(** Whether the timer with handle [h] is still in the browser's list. *)
Definition pending (h : nat) (s : State) : bool :=
  existsb (fun t => Nat.eqb (handle t) h) (timers s).

(** A timer leaves the browser's list when its callback starts. *)
Definition expire (h : nat) (s : State) : State :=
  mkState (timeoutId s) (now s)
          (filter (fun t => negb (Nat.eqb (handle t) h)) (timers s))
          (nextHandle s) (invoked s) (received s).

(** The browser runs the callbacks of the timers that are due, one after
    the other, in the order they were set (with one delay, that is the order
    they fall due); a timer that an earlier callback of the round cleared is
    not run, and a timer set during the round waits for a later one. *)
Definition runTimers (s : State) : State :=
  let ready := filter (fun t => (due t <=? now s)%nat) (timers s) in
  fold_left (fun acc t => if pending (handle t) acc
                          then fire t (expire (handle t) acc)
                          else acc)
            ready s.

(** Time passes; a timer never runs before it is due, it may run later. *)
Definition elapse (dt : nat) (s : State) : State :=
  mkState (timeoutId s) (now s + dt) (timers s) (nextHandle s) (invoked s) (received s).

Inductive Event :=
| Call (a : Args)
| Cancel
| Elapse (dt : nat)
| RunTimers.

Definition step (e : Event) (s : State) : State :=
  match e with
  | Call a => debounced a s
  | Cancel => cancel s
  | Elapse dt => elapse dt s
  | RunTimers => runTimers s
  end.

Definition run (evs : list Event) (s : State) : State :=
  fold_left (fun acc e => step e acc) evs s.

(** The time a list of events lets pass. *)
Fixpoint duration (evs : list Event) : nat :=
  match evs with
  | [] => 0
  | Elapse dt :: r => dt + duration r
  | _ :: r => duration r
  end.

(** Events in which the caller does nothing: time passes, timers run. *)
Definition idle (e : Event) : bool :=
  match e with
  | Elapse _ | RunTimers => true
  | _ => false
  end.

(** A burst: a first call, then calls each after a pause. *)
Fixpoint burst (first : Args) (rest : list (list Event * Args)) : list Event :=
  match rest with
  | [] => [Call first]
  | (pause, a) :: r => Call first :: pause ++ burst a r
  end.

Fixpoint last_args (first : Args) (rest : list (list Event * Args)) : Args :=
  match rest with
  | [] => first
  | (_, a) :: r => last_args a r
  end.

(** Every pause of the burst is idle and shorter than [delay]. *)
Definition quick (rest : list (list Event * Args)) : Prop :=
  Forall (fun pa => forallb idle (fst pa) = true /\ duration (fst pa) < delay) rest.

(** *** Notions the properties are stated with *)

(** [func] leaves the closure alone: the only calls of the debounced
    function and of [cancel] are the caller's. *)
Definition plain : Prop := forall past a, reentries (func past a) = [].

(** [func] never throws. *)
Definition returning : Prop := forall past a, outcome (func past a) = Returns.

(** The closure holds a timer: [timeoutId] names the one pending timer. *)
Definition armed (h d : nat) (a : Args) (s : State) : Prop :=
  timeoutId s = Some h /\ timers s = [mkTimer h d a].

(** The closure holds none, and none is pending. *)
Definition at_rest (s : State) : Prop :=
  timeoutId s = None /\ timers s = [].

(** The states the closure of a plain [func] can be in: no timer is
    pending (and [timeoutId] is null, or still the handle of the timer
    whose [func] threw), or [timeoutId] names the one that is. *)
Definition well_formed (s : State) : Prop :=
  timers s = [] \/ exists h d a, armed h d a s.

End Debounce.

Arguments CallsDebounced {Args} a.
Arguments CallsCancel {Args}.
Arguments mkBehaviour {Args} reentries outcome.
Arguments reentries {Args} b.
Arguments outcome {Args} b.
Arguments mkTimer {Args} handle due args.
Arguments handle {Args} t.
Arguments due {Args} t.
Arguments args {Args} t.
Arguments mkState {Args} timeoutId now timers nextHandle invoked received.
Arguments timeoutId {Args} s.
Arguments now {Args} s.
Arguments timers {Args} s.
Arguments nextHandle {Args} s.
Arguments invoked {Args} s.
Arguments received {Args} s.
Arguments init {Args}.
Arguments clearTimeout {Args} h s.
Arguments setTimeout {Args} delay a s.
Arguments debounced {Args} delay a s.
Arguments cancel {Args} s.
Arguments reenter {Args} delay s r.
Arguments fire {Args} func delay t s.
Arguments pending {Args} h s.
Arguments expire {Args} h s.
Arguments runTimers {Args} func delay s.
Arguments elapse {Args} dt s.
Arguments Call {Args} a.
Arguments Cancel {Args}.
Arguments Elapse {Args} dt.
Arguments RunTimers {Args}.
Arguments step {Args} func delay e s.
Arguments run {Args} func delay evs s.
Arguments duration {Args} evs.
Arguments idle {Args} e.
Arguments burst {Args} first rest.
Arguments last_args {Args} first rest.
Arguments quick {Args} delay rest.
Arguments plain {Args} func.
Arguments returning {Args} func.
Arguments armed {Args} h d a s.
Arguments at_rest {Args} s.
Arguments well_formed {Args} s.

End Helpers.

(* ===================================================================== *)
(** ** helpers.ts: downloadBlob, downloadPdfFromUrl *)
(* ===================================================================== *)

Module Downloads.

(** An object URL, as in the coordinator: the serial the browser gave it. *)
Definition Url := nat.

(** What the two functions do to the page: the object URL calls, and the
    click on the anchor they build, with its [href] and [download]. *)
Inductive Effect :=
| CreateObjectURL (blob : Bytes) (u : Url)
| Click (href : Url) (download : string)
| RevokeObjectURL (u : Url).

(** The browser: the serial of the next object URL, and the trace. *)
Record Page := mkPage {
  nextUrl : Url;
  trace : list Effect
}.

Definition emit (e : Effect) (p : Page) : Page :=
  mkPage (nextUrl p) (trace p ++ [e]).

(** [downloadBlob(blob, filename)] *)
Definition downloadBlob (blob : Bytes) (filename : string) (p : Page) : Page :=
  let url := nextUrl p in
  let p1 := mkPage (S url) (trace p ++ [CreateObjectURL blob url]) in
  let p2 := emit (Click url filename) p1 in
  emit (RevokeObjectURL url) p2.

(** [downloadPdfFromUrl(url, filename = 'document.pdf')] *)
Definition downloadPdfFromUrl (url : Url) (filename : option string) (p : Page) : Page :=
  let name := match filename with Some f => f | None => "document.pdf" end in
  emit (Click url name) p.

Inductive Call :=
| DownloadBlob (blob : Bytes) (filename : string)
| DownloadPdfFromUrl (url : Url) (filename : option string).

Definition call (c : Call) (p : Page) : Page :=
  match c with
  | DownloadBlob blob filename => downloadBlob blob filename p
  | DownloadPdfFromUrl url filename => downloadPdfFromUrl url filename p
  end.

Definition calls (cs : list Call) (p : Page) : Page :=
  fold_left (fun acc c => call c acc) cs p.

(** The object URLs live after a trace, from those live before it. *)
Fixpoint live_after (t : list Effect) (acc : list Url) : list Url :=
  match t with
  | [] => acc
  | CreateObjectURL _ u :: t' => live_after t' (acc ++ [u])
  | RevokeObjectURL u :: t' => live_after t' (filter (fun v => negb (Nat.eqb v u)) acc)
  | Click _ _ :: t' => live_after t' acc
  end.

(** Every click of the trace is on a URL that is live when it happens. *)
Fixpoint clicks_live (t : list Effect) (acc : list Url) : Prop :=
  match t with
  | [] => True
  | CreateObjectURL _ u :: t' => clicks_live t' (acc ++ [u])
  | RevokeObjectURL u :: t' => clicks_live t' (filter (fun v => negb (Nat.eqb v u)) acc)
  | Click href _ :: t' => In href acc /\ clicks_live t' acc
  end.

(** The URLs a list of calls is given. *)
Fixpoint given_urls (cs : list Call) : list Url :=
  match cs with
  | [] => []
  | DownloadPdfFromUrl url _ :: r => url :: given_urls r
  | DownloadBlob _ _ :: r => given_urls r
  end.

End Downloads.

(* ===================================================================== *)
(** ** TypstExamples.ts *)
(* ===================================================================== *)

Module Examples.

(** [interface TypstExample] *)
Record TypstExample := mkExample {
  id : string;
  name : string;
  description : string;
  filePath : string
}.

Definition TYPST_EXAMPLES : list TypstExample :=
  [ mkExample "hello" "Hello World"
              "A simple document with headings and text"
              "/typst-examples/hello.typ";
    mkExample "math" "Math Document"
              "Mathematical formulas and equations"
              "/typst-examples/math.typ";
    mkExample "report" "Academic Report"
              "A structured document with sections and formatting"
              "/typst-examples/report.typ" ].

(** [TYPST_EXAMPLES.find(example => example.id === id)] *)
Definition getExampleById (i : string) : option TypstExample :=
  find (fun example => String.eqb (id example) i) TYPST_EXAMPLES.

(** [TYPST_EXAMPLES.map(({ id, name }) => ({ id, name }))] *)
Definition getExampleNames : list (string * string) :=
  map (fun example => (id example, name example)) TYPST_EXAMPLES.

End Examples.

(* ===================================================================== *)
(** ** components/TypstEditor.tsx, and its variant without the example menu *)
(* ===================================================================== *)

Module Editor.

(** The React state of the component: [status], [pdfUrl], [errorMsg]. *)
Record View := mkView {
  status : Coordinator.CompileStatus;
  pdfUrl : option Coordinator.Url;
  errorMsg : option string
}.

(** [useState('idle')], [useState(null)], [useState(null)] *)
Definition blank : View := mkView Coordinator.Idle None None.

(** The listener the component registers: it defines all three callbacks. *)
Definition listener (oid : nat) : Coordinator.CompileListener :=
  Coordinator.mkListener oid true true true.

(** What a callback of the listener [l] does to the state:
    [onStatusChange: setStatus(newStatus)],
    [onSuccess: setPdfUrl(url); setErrorMsg(null)],
    [onError: setErrorMsg(error); setPdfUrl(null)]. *)
Definition react (l : Coordinator.CompileListener) (v : View) (e : Coordinator.Effect) : View :=
  match e with
  | Coordinator.CbStatusChange l' newStatus =>
      if Coordinator.listener_eqb l' l then mkView newStatus (pdfUrl v) (errorMsg v) else v
  | Coordinator.CbSuccess l' _ url =>
      if Coordinator.listener_eqb l' l then mkView (status v) (Some url) None else v
  | Coordinator.CbError l' error =>
      if Coordinator.listener_eqb l' l then mkView (status v) None (Some error) else v
  | _ => v
  end.

(** The state after the callbacks of a trace. *)
Definition view (l : Coordinator.CompileListener) (t : list Coordinator.Effect) : View :=
  fold_left (react l) t blank.

(** What writes the state of the component: a callback of its listener
    or, in components/TypstEditor.tsx, the [catch] of [loadExample], which
    calls [setErrorMsg(message)] and leaves [pdfUrl] alone.  The variant of
    the component without the example menu has the callbacks only. *)
Inductive Write :=
| ByService (e : Coordinator.Effect)
| ExampleFailed (message : string).

Definition write (l : Coordinator.CompileListener) (v : View) (x : Write) : View :=
  match x with
  | ByService e => react l v e
  | ExampleFailed message => mkView (status v) (pdfUrl v) (Some message)
  end.

(** The state after a history of writes. *)
Definition screen (l : Coordinator.CompileListener) (h : list Write) : View :=
  fold_left (write l) h blank.

(** The effects of the service in a history, and the failed loads. *)
Fixpoint service_part (h : list Write) : list Coordinator.Effect :=
  match h with
  | [] => []
  | ByService e :: r => e :: service_part r
  | ExampleFailed _ :: r => service_part r
  end.

Fixpoint example_failures (h : list Write) : list string :=
  match h with
  | [] => []
  | ByService _ :: r => example_failures r
  | ExampleFailed message :: r => message :: example_failures r
  end.

(** The text the editor starts with. *)
Definition INITIAL_CODE : SourceText :=
  map N_of_ascii (list_ascii_of_string "= Hello Typst")
  ++ [10; 10]%N
  ++ map N_of_ascii (list_ascii_of_string "This is a test.").

(** [debounce(..., 1000)] *)
Definition DELAY : nat := 1000.

(** The [func] of the debounce, as its closure sees it:
    [(code) => { if (compilerServiceRef.current) void
    compilerServiceRef.current.compile(code) }] (in the variant,
    [async (code) => { ... await ...compile(code) }]).  [compile] is an
    [async] method, so nothing it throws reaches the caller, and neither it
    nor the listener calls the debounced function: [func] returns and makes
    no call back.  What the call of [compile] does is [pass_on] below. *)
Definition func : list SourceText -> SourceText -> Helpers.Behaviour SourceText :=
  fun _ _ => Helpers.mkBehaviour [] Helpers.Returns.

(** The mounted component: [typstCode], the debounced compile with its
    timer, how many of its calls of [func] have been passed on to the
    service, and the service. *)
Record Session := mkSession {
  typstCode : SourceText;
  timer : Helpers.State SourceText;
  passed : nat;
  world : Coordinator.World
}.

Definition source_eqb (a b : SourceText) : bool :=
  if list_eq_dec N.eq_dec a b then true else false.

(** [func] of the debounce is [code => compilerService.compile(code)]: the
    calls of [func] the timer has made and the service has not seen yet
    become calls of [compile], in order. *)
Definition pass_on (s : Session) : Session :=
  let fresh := skipn (passed s) (Helpers.invoked (timer s)) in
  mkSession (typstCode s) (timer s)
            (List.length (Helpers.invoked (timer s)))
            (Coordinator.run (map Coordinator.EvCompile fresh) (world s)).

(** The two effects on mount: the service is made and the listener
    registered, the debounced compile is made, and the effect on
    [typstCode] calls it with the initial text. *)
Definition mount (oid : nat) : Session :=
  mkSession INITIAL_CODE
            (Helpers.debounced DELAY INITIAL_CODE Helpers.init)
            0
            (Coordinator.addListener (listener oid) Coordinator.init).

(** What happens to a mounted component. *)
Inductive Event :=
| Edit (text : SourceText)
| CompileNow
| Wait (dt : nat)
| Timers
| Answer (seq : Z) (r : Coordinator.ClientReply).

(** [Edit]: [setTypstCode(text)], from the textarea or from an example
    that [loadExample] has fetched; React runs the effect on [typstCode]
    only when the text changed, and the effect calls the debounced compile.
    [CompileNow]: the button is disabled while [status === 'compiling'];
    otherwise [handleCompileNow] calls [compile(typstCode)]. *)
Definition step (oid : nat) (e : Event) (s : Session) : Session :=
  match e with
  | Edit text =>
      if source_eqb text (typstCode s) then s
      else mkSession text (Helpers.debounced DELAY text (timer s)) (passed s) (world s)
  | CompileNow =>
      match status (view (listener oid) (Coordinator.trace (world s))) with
      | Coordinator.Compiling => s
      | _ =>
          mkSession (typstCode s) (timer s) (passed s)
                    (Coordinator.step (Coordinator.EvCompile (typstCode s)) (world s))
      end
  | Wait dt =>
      mkSession (typstCode s) (Helpers.elapse dt (timer s)) (passed s) (world s)
  | Timers =>
      pass_on (mkSession (typstCode s) (Helpers.runTimers func DELAY (timer s)) (passed s)
                         (world s))
  | Answer seq r =>
      mkSession (typstCode s) (timer s) (passed s)
                (Coordinator.step (Coordinator.EvReply seq r) (world s))
  end.

Definition run (oid : nat) (evs : list Event) (s : Session) : Session :=
  fold_left (fun acc e => step oid e acc) evs s.

(** The texts the editor has held: the initial one and those typed. *)
Fixpoint texts (evs : list Event) : list SourceText :=
  match evs with
  | [] => []
  | Edit text :: r => text :: texts r
  | _ :: r => texts r
  end.

(** The texts a trace hands to the worker client, in order. *)
Fixpoint requested (t : list Coordinator.Effect) : list SourceText :=
  match t with
  | [] => []
  | Coordinator.ClientCompilePdf code :: r => code :: requested r
  | _ :: r => requested r
  end.

(** Events in which the user does nothing. *)
Definition quiet (e : Event) : bool :=
  match e with
  | Wait _ | Timers | Answer _ _ => true
  | _ => false
  end.

(** The time a list of events lets pass. *)
Fixpoint waited (evs : list Event) : nat :=
  match evs with
  | [] => 0
  | Wait dt :: r => dt + waited r
  | _ :: r => waited r
  end.

(** Typing: a first edit, then edits each after a pause. *)
Fixpoint typing (first : SourceText) (rest : list (list Event * SourceText)) : list Event :=
  match rest with
  | [] => [Edit first]
  | (pause, text) :: r => Edit first :: pause ++ typing text r
  end.

(** Every edit changes the text, and every pause is quiet and shorter
    than the delay. *)
Fixpoint fluent (current : SourceText) (first : SourceText)
    (rest : list (list Event * SourceText)) : Prop :=
  first <> current
  /\ match rest with
     | [] => True
     | (pause, text) :: r =>
         forallb quiet pause = true /\ waited pause < DELAY /\ fluent first text r
     end.

(** What the service is asked while the component is mounted and nobody
    else uses it: [compile] and the replies. *)
Definition mounted (e : Coordinator.Event) : bool :=
  match e with
  | Coordinator.EvCompile _ | Coordinator.EvReply _ _ => true
  | _ => false
  end.

Fixpoint last_text (first : SourceText) (rest : list (list Event * SourceText)) : SourceText :=
  match rest with
  | [] => first
  | (_, text) :: r => last_text text r
  end.

(** What a list of events means to the timer, from the text the editor
    holds: an edit that changes the text is a call of the debounced
    function. *)
Fixpoint to_timer (current : SourceText) (evs : list Event)
  : list (Helpers.Event SourceText) :=
  match evs with
  | [] => []
  | Edit text :: r =>
      if source_eqb text current then to_timer current r
      else Helpers.Call text :: to_timer text r
  | Wait dt :: r => Helpers.Elapse dt :: to_timer current r
  | Timers :: r => Helpers.RunTimers :: to_timer current r
  | _ :: r => to_timer current r
  end.

(** The cleanup of the first effect, run when the component goes:
    [debouncedCompileRef.current?.cancel()], [unsubscribe()],
    [compilerService.dispose()]. *)
Definition unmount (oid : nat) (s : Session) : Session :=
  mkSession (typstCode s) (Helpers.cancel (timer s)) (passed s)
            (Coordinator.dispose (Coordinator.unsubscribe (listener oid) (world s))).

(** The replies among a list of events, as the service sees them. *)
Fixpoint replies (evs : list Event) : list Coordinator.Event :=
  match evs with
  | [] => []
  | Answer seq r :: t => Coordinator.EvReply seq r :: replies t
  | _ :: t => replies t
  end.

Definition presses (e : Event) : bool :=
  match e with CompileNow => true | _ => false end.

End Editor.

(* ===================================================================== *)
(** ** Further notions on executions of the coordinator *)
(* ===================================================================== *)

Module CoordinatorNotions.

Import Coordinator.

(** How many times [compile] is called. *)
Fixpoint compiles (evs : list Event) : nat :=
  match evs with
  | [] => 0
  | EvCompile _ :: r => S (compiles r)
  | _ :: r => compiles r
  end.

(** The object URL the callers of the service know of: the [pdfUrl] of the
    last successful result returned, unless the service was disposed
    since. *)
Fixpoint reported (t : list Effect) (acc : option Url) : option Url :=
  match t with
  | [] => acc
  | Returned _ res :: t' => reported t' (if success res then pdfUrl res else acc)
  | ClientDispose :: t' => reported t' None
  | _ :: t' => reported t' acc
  end.

(** Every [revokeObjectURL] of the trace is on a URL that is live when it
    happens, and every [createObjectURL] gives a URL that is not. *)
Fixpoint urls_in_order (t : list Effect) (acc : list Url) : bool :=
  match t with
  | [] => true
  | RevokeObjectURL u :: t' =>
      existsb (Nat.eqb u) acc
      && urls_in_order t' (filter (fun v => negb (Nat.eqb v u)) acc)
  | CreateObjectURL _ u :: t' =>
      negb (existsb (Nat.eqb u) acc) && urls_in_order t' (acc ++ [u])
  | _ :: t' => urls_in_order t' acc
  end.

(** A result as the callers of [compile] may rely on it: ['idle'] comes
    with nothing, ['done'] with success, the document and its URL, ['error']
    with the message, and ['compiling'] is never returned. *)
Definition result_shape (res : CompileResult) : bool :=
  match status res, success res, pdf res, pdfUrl res, error res with
  | Idle, false, None, None, None => true
  | Done, true, Some _, Some _, None => true
  | Error, false, None, None, Some _ => true
  | _, _, _, _, _ => false
  end.

Definition returned_shape (e : Effect) : bool :=
  match e with
  | Returned _ res => result_shape res
  | _ => true
  end.

Definition adds_listener (e : Event) : bool :=
  match e with EvAddListener _ => true | _ => false end.

(** The URL the trace reports last is the one the service holds. *)
Definition agreed (w : World) : Prop :=
  reported (trace w) None = currentPdfUrl (svc w).

(** Object URLs are created, revoked and held in order. *)
Definition orderly_urls (w : World) : Prop :=
  urls_in_order (trace w) [] = true
  /\ live (trace w) = handle_of (currentPdfUrl (svc w))
  /\ (forall u, currentPdfUrl (svc w) = Some u -> u < nextUrl w).

End CoordinatorNotions.

(* ===================================================================== *)
(** ** Further notions on the worker *)
(* ===================================================================== *)

Module WorkerNotions.

Import Worker.

(** The compilers a trace constructs with the default font set. *)
Definition is_base_construction (e : Effect) : bool :=
  match e with
  | CreateCompiler c => fonts_eqb (fonts c) CORE_FONTS
  | _ => false
  end.

(** A construction is one with the default or with the extended font set. *)
Definition known_fonts (e : Effect) : Prop :=
  match e with
  | CreateCompiler c => fonts c = CORE_FONTS \/ fonts c = CORE_FONTS ++ EMOJI_FONTS
  | _ => True
  end.

(** A JavaScript string holds a code point as UTF-16: itself when it is on
    the basic plane, a high and a low surrogate when it is above. *)
Definition utf16 (cp : N) : list N :=
  if (cp <? 0x10000)%N then [cp]
  else [ (0xD800 + (cp - 0x10000) / 0x400)%N; (0xDC00 + (cp - 0x10000) mod 0x400)%N ].

(** The failure reply to a message. *)
Definition failure (e : JsThrown) (m : CompileRequest) : Effect :=
  PostMessage (ResponseFailed (id m) (error_text e) []).

(** *** Further sample renderers *)

(** No compiler initialises. *)
Definition renderer_offline : Renderer :=
  mkRenderer (fun _ => Some (ErrorObject "Failed to fetch"))
             (fun _ _ => RenderReturns (Some DOCUMENT) (Some [])).

(** The compiler with the core fonts does not initialise, the one with the
    emoji font does. *)
Definition renderer_core_offline : Renderer :=
  mkRenderer
    (fun c => if fonts_eqb (fonts c) CORE_FONTS
              then Some (ErrorObject "Failed to fetch")
              else None)
    (fun _ _ => RenderReturns (Some DOCUMENT) (Some [])).




(** The worker holds the base compiler and has constructed nothing else. *)
Definition plainly_set_up (s : State) : Prop :=
  emojiLoaded s = false
  /\ compilerPromise s = Some (InitPromise (mkCompiler 0 CORE_FONTS))
  /\ filter is_construction (trace s) = [CreateCompiler (mkCompiler 0 CORE_FONTS)].

(** At most one base construction, and every construction is a base or an
    upgrade construction. *)
Definition frugal (s : State) : Prop :=
  List.length (filter is_base_construction (trace s)) <= 1
  /\ (compilerPromise s = None -> filter is_base_construction (trace s) = [])
  /\ List.length (filter is_construction (trace s))
     = List.length (filter is_base_construction (trace s))
       + List.length (filter is_upgrade_construction (trace s))
  /\ Forall known_fonts (trace s).

End WorkerNotions.

(* ===================================================================== *)
(** ** Further notions on [debounce] *)
(* ===================================================================== *)

Module HelpersNotions.

Import Helpers.

(** [l1] is [l2] with some elements left out. *)
Inductive subsequence {A : Type} : list A -> list A -> Prop :=
| sub_nil : subsequence [] []
| sub_skip (x : A) (l1 l2 : list A) : subsequence l1 l2 -> subsequence l1 (x :: l2)
| sub_take (x : A) (l1 l2 : list A) : subsequence l1 l2 -> subsequence (x :: l1) (x :: l2).


(** Calls made one at a time: after each the caller waits, and the browser
    runs its timers. *)
Fixpoint unhurried {Args : Type} (cs : list (Args * list (Event Args))) : list (Event Args) :=
  match cs with
  | [] => []
  | (a, pause) :: r => Call a :: pause ++ RunTimers :: unhurried r
  end.

(** Every wait is idle and at least [delay] long. *)
Definition patient {Args : Type} (delay : nat) (cs : list (Args * list (Event Args))) : Prop :=
  Forall (fun c => forallb idle (snd c) = true /\ delay <= duration (snd c)) cs.




(** A [func] that does nothing but return. *)
Definition quiet_func : list string -> string -> Behaviour string :=
  fun _ _ => mkBehaviour [] Returns.

(** A [func] that calls the debounced function again, once, when it is
    given the text a. *)
Definition eager_func : list string -> string -> Behaviour string :=
  fun _ a => if String.eqb a "a"
             then mkBehaviour [CallsDebounced "again"] Returns
             else mkBehaviour [] Returns.

End HelpersNotions.

(* ===================================================================== *)
(** ** Further notions on the editor component *)
(* ===================================================================== *)

Module EditorNotions.

Import Coordinator.

(** What holds of the service and of the component's state while the
    component is the only user of the service. *)
Definition showing (oid : nat) (w : World) : Prop :=
  let v := Editor.view (Editor.listener oid) (trace w) in
  listeners (svc w) = [Editor.listener oid]
  /\ numbered w
  /\ tidy w
  /\ (Editor.pdfUrl v = None \/ Editor.pdfUrl v = currentPdfUrl (svc w))
  /\ (Editor.pdfUrl v = None \/ Editor.errorMsg v = None)
  /\ ((compileSeq (svc w) < 2 ^ 53)%Z ->
      (Editor.status v = Compiling <-> In (compileSeq (svc w)) (waiting w))).

(** The calls of [func] made are all passed on. *)
Definition settled_up (s : Editor.Session) : Prop :=
  Editor.passed s = List.length (Helpers.invoked (Editor.timer s)).

(** A pause of the editor as a pause of the timer. *)
Definition pause_of (pt : list Editor.Event * SourceText)
  : list (Helpers.Event SourceText) * SourceText :=
  (Editor.to_timer [] (fst pt), snd pt).

(** The texts in [hist] cover a session: those of its pending timers, those
    [func] was called with, those requested and the one held. *)
Definition covered (hist : list SourceText) (s : Editor.Session) : Prop :=
  incl (map Helpers.args (Helpers.timers (Editor.timer s))) hist
  /\ incl (Helpers.invoked (Editor.timer s)) hist
  /\ incl (Editor.requested (Coordinator.trace (Editor.world s))) hist
  /\ In (Editor.typstCode s) hist.

(** Two sample texts. *)
Definition hi : SourceText := [72; 105]%N.
Definition hey : SourceText := [72; 101; 121]%N.

End EditorNotions.

(* ===================================================================== *)
(** * Properties of the compile coordinator *)
(* ===================================================================== *)

Section CoordinatorFacts.

Import Coordinator.

Lemma listener_eqb_eq (a b : CompileListener) : listener_eqb a b = true <-> a = b.
Proof.
  unfold listener_eqb. destruct a as [i1 s1 u1 e1], b as [i2 s2 u2 e2]; simpl.
  rewrite !andb_true_iff, Nat.eqb_eq, !Bool.eqb_true_iff.
  split.
  - intros [[[-> ->] ->] ->]. reflexivity.
  - intros H. injection H as -> -> -> ->. auto.
Qed.

Lemma listener_eqb_refl (a : CompileListener) : listener_eqb a a = true.
Proof. apply listener_eqb_eq. reflexivity. Qed.

Lemma listener_eqb_neq (a b : CompileListener) : listener_eqb a b = false <-> a <> b.
Proof.
  rewrite <- listener_eqb_eq. destruct (listener_eqb a b); split; congruence.
Qed.

Lemma skipn_own_length {A} (t es : list A) : skipn (List.length t) (t ++ es) = es.
Proof. induction t; simpl; auto. Qed.

Lemma added_emit (w : World) (es : list Effect) : added w (emit es w) = es.
Proof. unfold added, emit; simpl. apply skipn_own_length. Qed.

Lemma added_same (w : World) : added w w = [].
Proof. unfold added. apply skipn_all. Qed.

(** A reply to a call that is not the latest changes nothing at all. *)
Lemma compile_resume_stale (w : World) (seq : Z) (r : ClientReply) :
  seq <> compileSeq (svc w) -> compile_resume seq r w = (superseded, w).
Proof.
  intros H. apply Z.eqb_neq in H.
  unfold compile_resume. destruct r; rewrite H; reflexivity.
Qed.

(** What the continuation does on a reply to the latest call. *)
Lemma compile_resume_resolved (w : World) (p : Bytes) :
  compile_resume (compileSeq (svc w)) (Resolved p) w =
  (mkResult true (Some p) (Some (nextUrl w)) None Done,
   mkWorld (mkService (compileSeq (svc w)) (Some (nextUrl w)) (listeners (svc w)))
           (S (nextUrl w)) (waiting w)
           (trace w
            ++ match currentPdfUrl (svc w) with
               | Some old => [RevokeObjectURL old]
               | None => []
               end
            ++ [CreateObjectURL p (nextUrl w)]
            ++ success_calls p (nextUrl w) (listeners (svc w))
            ++ status_calls Done (listeners (svc w)))).
Proof.
  unfold compile_resume. rewrite Z.eqb_refl. simpl.
  destruct w as [[sq cur ls] nu wt tr]; simpl.
  destruct cur as [old|]; simpl;
    unfold notifyStatusChange, notifySuccess, emit, set_svc, success_calls, status_calls;
    simpl; rewrite <- ?app_assoc; simpl; reflexivity.
Qed.

Lemma compile_resume_rejected (w : World) (e : JsThrown) :
  compile_resume (compileSeq (svc w)) (Rejected e) w =
  (mkResult false None None (Some (error_text e)) Error,
   mkWorld (svc w) (nextUrl w) (waiting w)
           (trace w
            ++ error_calls (error_text e) (listeners (svc w))
            ++ status_calls Error (listeners (svc w)))).
Proof.
  unfold compile_resume. rewrite Z.eqb_refl. simpl.
  unfold notifyStatusChange, notifyError, emit, error_calls, status_calls; simpl.
  rewrite <- app_assoc. reflexivity.
Qed.

Lemma mem_In (x : Z) (l : list Z) : mem x l = true <-> In x l.
Proof.
  unfold mem. rewrite existsb_exists. split.
  - intros [y [Hy E]]. apply Z.eqb_eq in E. subst. assumption.
  - intros H. exists x. split; [assumption | apply Z.eqb_refl].
Qed.

(** *** Object URLs along a trace *)

Lemma live_after_app (t es : list Effect) (acc : list Url) :
  live_after (t ++ es) acc = live_after es (live_after t acc).
Proof.
  revert acc. induction t as [|e t IH]; intros acc; simpl; [reflexivity|].
  destruct e; apply IH.
Qed.

Lemma live_after_quiet (es : list Effect) (acc : list Url) :
  quiet es -> live_after es acc = acc.
Proof.
  unfold quiet. revert acc. induction es as [|e es IH]; intros acc H; simpl in *; [reflexivity|].
  apply andb_true_iff in H as [He Hes].
  destruct e; simpl in He; try discriminate; apply IH; assumption.
Qed.

Lemma quiet_app (a b : list Effect) : quiet a -> quiet b -> quiet (a ++ b).
Proof. unfold quiet. intros Ha Hb. rewrite forallb_app, Ha, Hb. reflexivity. Qed.

Lemma quiet_firstn (n : nat) (es : list Effect) : quiet es -> quiet (firstn n es).
Proof.
  unfold quiet. revert n. induction es as [|e es IH]; intros [|n] H; simpl in *; auto.
  apply andb_true_iff in H as [He Hes]. rewrite He. simpl. apply IH. assumption.
Qed.

Lemma callbacks_quiet (es : list Effect) : forallb is_callback es = true -> quiet es.
Proof.
  unfold quiet. induction es as [|e es IH]; simpl; [reflexivity|].
  intros H. apply andb_true_iff in H as [He Hes].
  rewrite (IH Hes). destruct e; simpl in *; try discriminate; reflexivity.
Qed.

Lemma status_calls_callbacks (st : CompileStatus) (ls : list CompileListener) :
  forallb is_callback (status_calls st ls) = true.
Proof.
  unfold status_calls. induction ls as [|l ls IH]; simpl; [reflexivity|].
  rewrite forallb_app, IH. destruct (onStatusChange l); reflexivity.
Qed.

Lemma success_calls_callbacks (p : Bytes) (u : Url) (ls : list CompileListener) :
  forallb is_callback (success_calls p u ls) = true.
Proof.
  unfold success_calls. induction ls as [|l ls IH]; simpl; [reflexivity|].
  rewrite forallb_app, IH. destruct (onSuccess l); reflexivity.
Qed.

Lemma error_calls_callbacks (msg : string) (ls : list CompileListener) :
  forallb is_callback (error_calls msg ls) = true.
Proof.
  unfold error_calls. induction ls as [|l ls IH]; simpl; [reflexivity|].
  rewrite forallb_app, IH. destruct (onError l); reflexivity.
Qed.

(** *** The calls that are waiting carry distinct numbers *)

Lemma remove_first_incl (x : Z) (l : list Z) : incl (remove_first x l) l.
Proof.
  induction l as [|y t IH]; simpl; [apply incl_refl|].
  destruct (y =? x)%Z.
  - apply incl_tl, incl_refl.
  - apply incl_cons; [left; reflexivity | apply incl_tl, IH].
Qed.

Lemma remove_first_NoDup (x : Z) (l : list Z) : NoDup l -> NoDup (remove_first x l).
Proof.
  induction 1 as [|y t Hy Ht IH]; simpl; [constructor|].
  destruct (y =? x)%Z; [assumption|].
  constructor; [|assumption].
  intros Hin. apply Hy. eapply remove_first_incl; eassumption.
Qed.

Lemma remove_first_Forall (P : Z -> Prop) (x : Z) (l : list Z) :
  Forall P l -> Forall P (remove_first x l).
Proof.
  intros H. rewrite Forall_forall in *. intros y Hy.
  apply H. eapply remove_first_incl; eassumption.
Qed.

Lemma js_succ_bounds (n : Z) : (n <= js_succ n <= n + 1)%Z.
Proof. unfold js_succ. destruct (n <? 2 ^ 53)%Z; lia. Qed.

Lemma js_succ_below (n : Z) : (js_succ n < 2 ^ 53)%Z -> js_succ n = (n + 1)%Z.
Proof.
  unfold js_succ. destruct (n <? 2 ^ 53)%Z eqn:E; [reflexivity|].
  apply Z.ltb_ge in E. lia.
Qed.

Lemma compile_resume_seq (seq : Z) (r : ClientReply) (w : World) :
  compileSeq (svc (snd (compile_resume seq r w))) = compileSeq (svc w)
  /\ waiting (snd (compile_resume seq r w)) = waiting w.
Proof.
  destruct (Z.eq_dec seq (compileSeq (svc w))) as [->|N].
  - destruct r.
    + rewrite compile_resume_resolved. simpl. auto.
    + rewrite compile_resume_rejected. simpl. auto.
  - rewrite compile_resume_stale by assumption. simpl. auto.
Qed.

Lemma step_numbered (e : Event) (w : World) : numbered w -> numbered (step e w).
Proof.
  intros (H0 & Hle & Hnd). destruct e as [code|seq r|l|l|]; simpl.
  - unfold numbered; simpl.
    pose proof (js_succ_bounds (compileSeq (svc w))) as B.
    split; [lia|]. split.
    + apply Forall_app. split.
      * eapply Forall_impl; [|exact Hle]. simpl. intros; lia.
      * constructor; [lia | constructor].
    + intros Hlt. pose proof (js_succ_below _ Hlt) as Hs. rewrite Hs in *.
      apply NoDup_app; [apply Hnd; lia | repeat constructor; simpl; tauto |].
      intros a Ha [<-|[]]. rewrite Forall_forall in Hle. apply Hle in Ha. lia.
  - destruct (mem seq (waiting w)); [|repeat split; assumption].
    destruct (compile_resume seq r w) as [res w'] eqn:E.
    pose proof (compile_resume_seq seq r w) as [Hs Hw]. rewrite E in Hs, Hw. simpl in Hs, Hw.
    unfold numbered; simpl. rewrite Hs, Hw.
    split; [assumption|]. split.
    + apply remove_first_Forall. assumption.
    + intros Hlt. apply remove_first_NoDup. auto.
  - repeat split; assumption.
  - unfold unsubscribe. destruct (_ >? _)%Z; repeat split; assumption.
  - unfold dispose. destruct (currentPdfUrl _); repeat split; assumption.
Qed.

Lemma run_app (evs1 evs2 : list Event) (w : World) :
  run (evs1 ++ evs2) w = run evs2 (run evs1 w).
Proof. unfold run. apply fold_left_app. Qed.

Lemma run_numbered (evs : list Event) (w : World) : numbered w -> numbered (run evs w).
Proof.
  revert w. induction evs as [|e evs IH]; intros w H; simpl; [assumption|].
  apply IH, step_numbered, H.
Qed.

Lemma init_numbered : numbered init.
Proof. repeat split; simpl; try lia; constructor. Qed.

(** Below 2^53 calls, the waiting calls have pairwise different numbers, all
    at most the counter: at most one of them is current, the one begun last. *)
Lemma waiting_calls_distinct (evs : list Event) :
  let w := run evs init in
  Forall (fun s => (s <= compileSeq (svc w))%Z) (waiting w)
  /\ ((compileSeq (svc w) < 2 ^ 53)%Z -> NoDup (waiting w)).
Proof. simpl. apply (run_numbered evs init init_numbered). Qed.

Lemma last_status_app (t es : list Effect) (s : CompileStatus) :
  last_status (t ++ es) s = last_status es (last_status t s).
Proof.
  revert s. induction t as [|e t IH]; intros s; simpl; [reflexivity|].
  destruct e; apply IH.
Qed.

(** C1.  Highest sequence wins.  In every execution, when the reply to a
    waiting [compile] call arrives and the number the call captured is not
    the counter's value at that moment, the call returns
    [{success: false, status: 'idle'}], the service (counter, artifact
    handle, listeners) is as before, no object URL is made or revoked, the
    trace gains nothing but the return itself, so no listener is called and
    the status last told to the listeners stands.  Conversely a reply that
    changes the artifact handle or calls a listener belongs to the call whose
    number is the counter's value. *)
Theorem highest_sequence_wins :
  forall (evs : list Event) (seq : Z) (r : ClientReply),
    let w := run evs init in
    let w' := step (EvReply seq r) w in
    (In seq (waiting w) /\ seq <> compileSeq (svc w) ->
       compile_resume seq r w = (superseded, w)
       /\ svc w' = svc w
       /\ nextUrl w' = nextUrl w
       /\ added w w' = [Returned seq (mkResult false None None None Idle)]
       /\ (forall s0, last_status (trace w') s0 = last_status (trace w) s0))
    /\ (currentPdfUrl (svc w') <> currentPdfUrl (svc w)
        \/ existsb is_callback (added w w') = true ->
        seq = compileSeq (svc w)).
Proof.
  intros evs seq r w w'. split.
  - intros [Hin Hne].
    pose proof (compile_resume_stale w seq r Hne) as E.
    split; [exact E|].
    subst w'. simpl. apply mem_In in Hin. rewrite Hin, E. simpl.
    split; [reflexivity|]. split; [reflexivity|]. split.
    + unfold added; simpl. apply skipn_own_length.
    + intros s0. rewrite last_status_app. reflexivity.
  - intros H. destruct (Z.eq_dec seq (compileSeq (svc w))) as [E|Hne]; [exact E|].
    exfalso. subst w'. simpl in H.
    destruct (mem seq (waiting w)).
    + rewrite (compile_resume_stale w seq r Hne) in H. simpl in H.
      unfold added in H; simpl in H. rewrite skipn_own_length in H. simpl in H.
      destruct H as [H|H]; [apply H; reflexivity | discriminate].
    + rewrite added_same in H. simpl in H.
      destruct H as [H|H]; [apply H; reflexivity | discriminate].
Qed.

(** Two calls overlap; the reply to the first arrives when the counter is 2. *)
Lemma highest_sequence_wins_witness :
  let evs := [EvCompile [97]%N; EvCompile [97; 98]%N] in
  let doc : Bytes := [Byte.x25; Byte.x50; Byte.x44; Byte.x46] in
  let w := run evs init in
  let w' := step (EvReply 1 (Resolved doc)) w in
  (In 1%Z (waiting w) /\ 1%Z <> compileSeq (svc w))
  /\ compile_resume 1 (Resolved doc) w = (superseded, w)
  /\ svc w' = svc w
  /\ nextUrl w' = nextUrl w
  /\ added w w' = [Returned 1 (mkResult false None None None Idle)]
  /\ (forall s0, last_status (trace w') s0 = last_status (trace w) s0).
Proof.
  cbv zeta.
  assert (H : In 1%Z (waiting (run [EvCompile [97]%N; EvCompile [97; 98]%N] init))
              /\ 1%Z <> compileSeq (svc (run [EvCompile [97]%N; EvCompile [97; 98]%N] init))).
  { split; [left; reflexivity | discriminate]. }
  split; [exact H|].
  exact (proj1 (highest_sequence_wins [EvCompile [97]%N; EvCompile [97; 98]%N] 1%Z
                  (Resolved [Byte.x25; Byte.x50; Byte.x44; Byte.x46])) H).
Defined.




(** *** At most one live object URL *)

Lemma steady_quiet (acc : list Url) (es : list Effect) :
  List.length acc <= 1 -> quiet es -> steady acc es.
Proof.
  intros Hacc Hq m. rewrite live_after_quiet; [assumption | apply quiet_firstn, Hq].
Qed.

Lemma steady_cons (acc : list Url) (e : Effect) (es : list Effect) :
  List.length acc <= 1 -> steady (live_after [e] acc) es -> steady acc (e :: es).
Proof.
  intros Hacc H [|m]; simpl; [assumption|].
  specialize (H m). destruct e; simpl in H; exact H.
Qed.

Lemma handle_of_length (o : option Url) : List.length (handle_of o) <= 1.
Proof. destruct o; simpl; lia. Qed.

(** A step that appends [es] keeps the trace tidy when [es] is steady. *)
Lemma tidy_extend (w : World) (s : Service) (nu : Url) (wt : list Z) (es : list Effect) :
  tidy w ->
  steady (handle_of (currentPdfUrl (svc w))) es ->
  live_after es (handle_of (currentPdfUrl (svc w))) = handle_of (currentPdfUrl s) ->
  tidy (mkWorld s nu wt (trace w ++ es)).
Proof.
  intros [Hl Hp] Hs He. split; simpl.
  - unfold live in *. rewrite live_after_app, Hl. exact He.
  - intros n. rewrite firstn_app. unfold live in *. rewrite live_after_app.
    destruct (Nat.le_gt_cases n (List.length (trace w))) as [Hn|Hn].
    + replace (n - List.length (trace w)) with 0 by lia. simpl. apply Hp.
    + rewrite (firstn_all2 (n:=n) (trace w)) by lia. rewrite Hl. apply Hs.
Qed.

Lemma filter_other (u : Url) : filter (fun v => negb (Nat.eqb v u)) [u] = [].
Proof. simpl. rewrite Nat.eqb_refl. reflexivity. Qed.

(** The effects of a current successful reply, from the handle [cur]. *)
Lemma install_steady (cur : option Url) (p : Bytes) (u : Url) (calls : list Effect) :
  quiet calls ->
  steady (handle_of cur)
         (match cur with Some old => [RevokeObjectURL old] | None => [] end
          ++ [CreateObjectURL p u] ++ calls)
  /\ live_after (match cur with Some old => [RevokeObjectURL old] | None => [] end
                 ++ [CreateObjectURL p u] ++ calls) (handle_of cur) = [u].
Proof.
  intros Hq. destruct cur as [old|]; simpl.
  - split.
    + apply steady_cons; [simpl; lia|]. simpl. rewrite Nat.eqb_refl. simpl.
      apply steady_cons; [simpl; lia|]. simpl.
      apply steady_quiet; [simpl; lia | exact Hq].
    + rewrite Nat.eqb_refl. simpl. apply live_after_quiet, Hq.
  - split.
    + apply steady_cons; [simpl; lia|]. simpl.
      apply steady_quiet; [simpl; lia | exact Hq].
    + apply live_after_quiet, Hq.
Qed.

Lemma dispose_steady (cur : option Url) :
  steady (handle_of cur)
         (ClientDispose :: match cur with Some u => [RevokeObjectURL u] | None => [] end)
  /\ live_after (ClientDispose :: match cur with Some u => [RevokeObjectURL u] | None => [] end)
                (handle_of cur) = [].
Proof.
  destruct cur as [u|]; simpl.
  - rewrite Nat.eqb_refl. simpl. split; [|reflexivity].
    apply steady_cons; [simpl; lia|]. simpl.
    apply steady_cons; [simpl; lia|]. simpl. rewrite Nat.eqb_refl. simpl.
    apply steady_quiet; [simpl; lia | reflexivity].
  - split; [|reflexivity]. apply steady_quiet; [simpl; lia | reflexivity].
Qed.

Lemma compile_begin_eq (code : SourceText) (w : World) :
  compile_begin code w =
  (js_succ (compileSeq (svc w)),
   mkWorld (mkService (js_succ (compileSeq (svc w))) (currentPdfUrl (svc w)) (listeners (svc w)))
           (nextUrl w) (waiting w)
           (trace w ++ status_calls Compiling (listeners (svc w)) ++ [ClientCompilePdf code])).
Proof.
  unfold compile_begin, notifyStatusChange, emit, set_svc, status_calls; simpl.
  rewrite <- app_assoc. reflexivity.
Qed.

Lemma dispose_eq (w : World) :
  dispose w =
  mkWorld (mkService (compileSeq (svc w)) None []) (nextUrl w) (waiting w)
          (trace w ++ ClientDispose
                   :: match currentPdfUrl (svc w) with
                      | Some u => [RevokeObjectURL u]
                      | None => []
                      end).
Proof.
  unfold dispose, revokeObjectURL, emit, set_svc; simpl.
  destruct w as [[sq cur ls] nu wt tr]; simpl.
  destruct cur as [u|]; simpl; rewrite <- ?app_assoc; reflexivity.
Qed.

Lemma step_tidy (e : Event) (w : World) : tidy w -> tidy (step e w).
Proof.
  intros T. destruct e as [code|seq r|l|l|]; unfold step.
  - rewrite compile_begin_eq. simpl.
    apply tidy_extend; simpl; try assumption.
    + apply steady_quiet; [apply handle_of_length|].
      apply quiet_app; [apply callbacks_quiet, status_calls_callbacks | reflexivity].
    + apply live_after_quiet.
      apply quiet_app; [apply callbacks_quiet, status_calls_callbacks | reflexivity].
  - destruct (mem seq (waiting w)); [|assumption].
    destruct (Z.eq_dec seq (compileSeq (svc w))) as [->|Hne].
    + destruct r as [p|err].
      * rewrite compile_resume_resolved. simpl.
        rewrite <- ?app_assoc; simpl; rewrite <- ?app_assoc.
        assert (Q : quiet ((success_calls p (nextUrl w) (listeners (svc w))
                            ++ status_calls Done (listeners (svc w)))
                           ++ [Returned (compileSeq (svc w))
                                 (mkResult true (Some p) (Some (nextUrl w)) None Done)])).
        { apply quiet_app; [|reflexivity].
          apply quiet_app; apply callbacks_quiet;
            [apply success_calls_callbacks | apply status_calls_callbacks]. }
        destruct (install_steady (currentPdfUrl (svc w)) p (nextUrl w) _ Q) as [S1 S2].
        rewrite <- !app_assoc in S1, S2. simpl in S1, S2.
        apply tidy_extend; simpl; assumption.
      * rewrite compile_resume_rejected. simpl. rewrite <- !app_assoc.
        assert (Q : quiet (error_calls (error_text err) (listeners (svc w))
                           ++ status_calls Error (listeners (svc w))
                           ++ [Returned (compileSeq (svc w))
                                 (mkResult false None None (Some (error_text err)) Error)])).
        { apply quiet_app; [apply callbacks_quiet, error_calls_callbacks|].
          apply quiet_app; [apply callbacks_quiet, status_calls_callbacks | reflexivity]. }
        apply tidy_extend; simpl; try assumption.
        -- apply steady_quiet; [apply handle_of_length | exact Q].
        -- apply live_after_quiet, Q.
    + rewrite (compile_resume_stale w seq r Hne). simpl.
      apply tidy_extend; simpl; try assumption.
      * apply steady_quiet; [apply handle_of_length | reflexivity].
      * reflexivity.
  - exact T.
  - unfold unsubscribe. destruct (_ >? _)%Z; exact T.
  - rewrite dispose_eq.
    destruct (dispose_steady (currentPdfUrl (svc w))) as [S1 S2].
    apply tidy_extend; simpl; assumption.
Qed.

Lemma run_tidy (evs : list Event) (w : World) : tidy w -> tidy (run evs w).
Proof.
  revert w. induction evs as [|e evs IH]; intros w T; simpl; [assumption|].
  apply IH, step_tidy, T.
Qed.

Lemma init_tidy : tidy init.
Proof.
  split; [reflexivity|]. intros n. simpl. rewrite firstn_nil. simpl. lia.
Qed.

(** C2.  One artifact handle.  In every execution, after every prefix of
    the trace (so between any two actions of the service) at most one object
    URL is live, and at the end of each step the live URL is exactly
    [currentPdfUrl].  A successful reply to the latest call first revokes the
    previous URL, if there is one, then creates the new one, which becomes
    [currentPdfUrl], and only then calls the listeners.  [dispose()] revokes
    the URL, if there is one, and leaves [currentPdfUrl] null with no URL
    live. *)
Theorem single_live_artifact :
  forall (evs : list Event),
    let w := run evs init in
    (forall n, List.length (live (firstn n (trace w))) <= 1)
    /\ live (trace w) = handle_of (currentPdfUrl (svc w))
    /\ (forall p : Bytes,
          let w' := snd (compile_resume (compileSeq (svc w)) (Resolved p) w) in
          added w w' =
            match currentPdfUrl (svc w) with
            | Some old => [RevokeObjectURL old]
            | None => []
            end
            ++ [CreateObjectURL p (nextUrl w)]
            ++ success_calls p (nextUrl w) (listeners (svc w))
            ++ status_calls Done (listeners (svc w))
          /\ currentPdfUrl (svc w') = Some (nextUrl w)
          /\ live (trace w') = [nextUrl w])
    /\ (let w' := dispose w in
        added w w' =
          ClientDispose :: match currentPdfUrl (svc w) with
                           | Some u => [RevokeObjectURL u]
                           | None => []
                           end
        /\ currentPdfUrl (svc w') = None
        /\ live (trace w') = []).
Proof.
  intros evs w.
  destruct (run_tidy evs init init_tidy) as [Hl Hp]. fold w in Hl, Hp.
  split; [exact Hp|]. split; [exact Hl|]. split.
  - intros p w'. subst w'. rewrite compile_resume_resolved. simpl.
    split; [unfold added; simpl; apply skipn_own_length|].
    split; [reflexivity|].
    unfold live in *. rewrite live_after_app, Hl.
    assert (Q : quiet (success_calls p (nextUrl w) (listeners (svc w))
                       ++ status_calls Done (listeners (svc w)))).
    { apply quiet_app; apply callbacks_quiet;
        [apply success_calls_callbacks | apply status_calls_callbacks]. }
    apply (install_steady (currentPdfUrl (svc w)) p (nextUrl w) _ Q).
  - intros w'. subst w'. rewrite dispose_eq. simpl.
    split; [unfold added; simpl; apply skipn_own_length|].
    split; [reflexivity|].
    unfold live in *. rewrite live_after_app, Hl.
    apply (dispose_steady (currentPdfUrl (svc w))).
Qed.

(** *** Compiling after [dispose()] *)

Lemma existsb_callbacks_no_client (es : list Effect) :
  forallb is_callback es = true -> existsb client_call es = false.
Proof.
  induction es as [|e es IH]; simpl; [reflexivity|].
  intros H. apply andb_true_iff in H as [He Hes]. rewrite (IH Hes).
  destruct e; simpl in *; try discriminate; reflexivity.
Qed.

(** C7, as stated, fails.  A service that compiled once and was disposed
    takes the next [compile] like any other: the counter goes to 2 and the
    worker client is called. *)
Lemma compile_after_dispose_reaches_client :
  let code : SourceText := [61; 32; 72; 105]%N in
  let doc : Bytes := [Byte.x25; Byte.x50; Byte.x44; Byte.x46] in
  let w := run [EvCompile code; EvReply 1 (Resolved doc); EvDispose] init in
  ~ fails_fast w code
  /\ fst (compile_begin code w) = 2%Z
  /\ compileSeq (svc (snd (compile_begin code w))) = 2%Z
  /\ added w (snd (compile_begin code w)) = [ClientCompilePdf code].
Proof.
  cbv zeta. split; [|split; [|split]].
  - unfold fails_fast. vm_compute. discriminate.
  - vm_compute. reflexivity.
  - vm_compute. reflexivity.
  - vm_compute. reflexivity.
Qed.

(** C7, amended.  [compile()] has no guard for disposal.  In every
    execution in which [dispose()] has been called, a further [compile(code)]
    increments the counter, tells ['compiling'] to the listeners registered
    since, and calls the worker client once; its outcome is what the client's
    reply makes it: success with a new object URL when the client resolves,
    the error outcome when it rejects, and in neither case is the client
    called again. *)
Theorem compile_after_dispose_unguarded :
  forall (evs1 evs2 : list Event) (code : SourceText),
    let w := run (evs1 ++ EvDispose :: evs2) init in
    let seq := fst (compile_begin code w) in
    let w' := snd (compile_begin code w) in
    seq = js_succ (compileSeq (svc w))
    /\ compileSeq (svc w') = seq
    /\ added w w' = status_calls Compiling (listeners (svc w)) ++ [ClientCompilePdf code]
    /\ (forall p : Bytes,
          fst (compile_resume seq (Resolved p) w')
          = mkResult true (Some p) (Some (nextUrl w)) None Done
          /\ existsb client_call (added w' (snd (compile_resume seq (Resolved p) w'))) = false)
    /\ (forall e : JsThrown,
          fst (compile_resume seq (Rejected e) w')
          = mkResult false None None (Some (error_text e)) Error
          /\ existsb client_call (added w' (snd (compile_resume seq (Rejected e) w'))) = false).
Proof.
  intros evs1 evs2 code w seq w'. subst seq w'.
  rewrite compile_begin_eq. cbn [fst snd].
  set (w1 := mkWorld _ _ _ _).
  split; [reflexivity|]. split; [reflexivity|]. split.
  { unfold added, w1; cbn [trace]. apply skipn_own_length. }
  change (js_succ (compileSeq (svc w))) with (compileSeq (svc w1)).
  split.
  - intros p. rewrite compile_resume_resolved. cbn [fst snd].
    split; [reflexivity|].
    unfold added; cbn [trace]. rewrite skipn_own_length.
    rewrite existsb_app, existsb_app. unfold w1; cbn [svc currentPdfUrl listeners nextUrl].
    replace (existsb client_call
               match currentPdfUrl (svc w) with
               | Some old => [RevokeObjectURL old]
               | None => []
               end) with false by (destruct (currentPdfUrl (svc w)); reflexivity).
    cbn [existsb client_call orb].
    apply existsb_callbacks_no_client.
    rewrite forallb_app, success_calls_callbacks, status_calls_callbacks; reflexivity.
  - intros e. rewrite compile_resume_rejected. cbn [fst snd].
    split; [reflexivity|].
    unfold added; cbn [trace]. rewrite skipn_own_length.
    apply existsb_callbacks_no_client.
    rewrite forallb_app, error_calls_callbacks, status_calls_callbacks; reflexivity.
Qed.

(** *** Unsubscribing *)

Lemma indexOf_from_spec (x : CompileListener) (l : list CompileListener) (i : Z) :
  (0 <= i)%Z ->
  (indexOf_from l x i = (-1)%Z /\ drop_first x l = l)
  \/ ((i <= indexOf_from l x i)%Z
      /\ firstn (Z.to_nat (indexOf_from l x i - i)) l
         ++ skipn (S (Z.to_nat (indexOf_from l x i - i))) l = drop_first x l).
Proof.
  revert i. induction l as [|y t IH]; intros i Hi; simpl.
  - left. split; reflexivity.
  - destruct (listener_eqb y x) eqn:E.
    + right. split; [lia|]. rewrite Z.sub_diag. reflexivity.
    + destruct (IH (i + 1)%Z ltac:(lia)) as [[H1 H2]|[H1 H2]].
      * left. split; [assumption | rewrite H2; reflexivity].
      * right. split; [lia|].
        replace (Z.to_nat (indexOf_from t x (i + 1) - i))
          with (S (Z.to_nat (indexOf_from t x (i + 1) - (i + 1)))) by lia.
        simpl. f_equal. exact H2.
Qed.

Lemma indexOf_from_absent (x : CompileListener) (l : list CompileListener) (i : Z) :
  ~ In x l -> indexOf_from l x i = (-1)%Z.
Proof.
  revert i. induction l as [|y t IH]; intros i H; simpl; [reflexivity|].
  destruct (listener_eqb y x) eqn:E.
  - apply listener_eqb_eq in E. subst. exfalso. apply H. left. reflexivity.
  - apply IH. intros Hin. apply H. right. exact Hin.
Qed.

Lemma unsubscribe_listeners (l : CompileListener) (w : World) :
  listeners (svc (unsubscribe l w)) = drop_first l (listeners (svc w)).
Proof.
  unfold unsubscribe, indexOf, splice1.
  destruct (indexOf_from_spec l (listeners (svc w)) 0 ltac:(lia)) as [[H1 H2]|[H1 H2]].
  - rewrite H1. simpl. symmetry. exact H2.
  - rewrite Z.sub_0_r in H2.
    destruct (indexOf_from (listeners (svc w)) l 0 >? -1)%Z eqn:G; [|lia].
    simpl. exact H2.
Qed.

Lemma unsubscribe_rest (l : CompileListener) (w : World) :
  compileSeq (svc (unsubscribe l w)) = compileSeq (svc w)
  /\ currentPdfUrl (svc (unsubscribe l w)) = currentPdfUrl (svc w)
  /\ nextUrl (unsubscribe l w) = nextUrl w
  /\ waiting (unsubscribe l w) = waiting w
  /\ trace (unsubscribe l w) = trace w.
Proof. unfold unsubscribe. destruct (_ >? _)%Z; simpl; repeat split. Qed.

Lemma drop_first_absent (x : CompileListener) (l : list CompileListener) :
  ~ In x l -> drop_first x l = l.
Proof.
  induction l as [|y t IH]; simpl; [reflexivity|]. intros H.
  destruct (listener_eqb y x) eqn:E.
  - apply listener_eqb_eq in E. subst. exfalso. apply H. left. reflexivity.
  - rewrite IH; [reflexivity | tauto].
Qed.

Lemma drop_first_incl (x : CompileListener) (l : list CompileListener) :
  incl (drop_first x l) l.
Proof.
  induction l as [|y t IH]; simpl; [apply incl_refl|].
  destruct (listener_eqb y x).
  - apply incl_tl, incl_refl.
  - apply incl_cons; [left; reflexivity | apply incl_tl, IH].
Qed.

Lemma drop_first_count (x : CompileListener) (l : list CompileListener) :
  List.length (filter (fun y => listener_eqb y x) (drop_first x l))
  = pred (List.length (filter (fun y => listener_eqb y x) l)).
Proof.
  induction l as [|y t IH]; simpl; [reflexivity|].
  destruct (listener_eqb y x) eqn:E; simpl; [reflexivity|].
  rewrite E. exact IH.
Qed.

Lemma drop_first_others (x : CompileListener) (l : list CompileListener) :
  filter (fun y => negb (listener_eqb y x)) (drop_first x l)
  = filter (fun y => negb (listener_eqb y x)) l.
Proof.
  induction l as [|y t IH]; simpl; [reflexivity|].
  destruct (listener_eqb y x) eqn:E; simpl; [reflexivity|].
  rewrite E. simpl. f_equal. exact IH.
Qed.

Lemma count_zero_absent (x : CompileListener) (l : list CompileListener) :
  List.length (filter (fun y => listener_eqb y x) l) = 0 -> ~ In x l.
Proof.
  induction l as [|y t IH]; simpl; [tauto|].
  destruct (listener_eqb y x) eqn:E; simpl; [discriminate|].
  intros H [->|Hin]; [rewrite listener_eqb_refl in E; discriminate | exact (IH H Hin)].
Qed.

Lemma silent_app (l : CompileListener) (a b : list Effect) :
  silent_for l a -> silent_for l b -> silent_for l (a ++ b).
Proof. unfold silent_for. intros Ha Hb. rewrite filter_app, Ha, Hb. reflexivity. Qed.

Lemma status_calls_silent (l : CompileListener) (st : CompileStatus) (ls : list CompileListener) :
  ~ In l ls -> silent_for l (status_calls st ls).
Proof.
  unfold silent_for, status_calls. induction ls as [|y t IH]; simpl; [reflexivity|].
  intros H. rewrite filter_app, IH by tauto. rewrite app_nil_r.
  destruct (onStatusChange y); simpl; [|reflexivity].
  destruct (listener_eqb y l) eqn:E; [|reflexivity].
  apply listener_eqb_eq in E. subst. exfalso. apply H. left. reflexivity.
Qed.

Lemma success_calls_silent (l : CompileListener) (p : Bytes) (u : Url) (ls : list CompileListener) :
  ~ In l ls -> silent_for l (success_calls p u ls).
Proof.
  unfold silent_for, success_calls. induction ls as [|y t IH]; simpl; [reflexivity|].
  intros H. rewrite filter_app, IH by tauto. rewrite app_nil_r.
  destruct (onSuccess y); simpl; [|reflexivity].
  destruct (listener_eqb y l) eqn:E; [|reflexivity].
  apply listener_eqb_eq in E. subst. exfalso. apply H. left. reflexivity.
Qed.

Lemma error_calls_silent (l : CompileListener) (msg : string) (ls : list CompileListener) :
  ~ In l ls -> silent_for l (error_calls msg ls).
Proof.
  unfold silent_for, error_calls. induction ls as [|y t IH]; simpl; [reflexivity|].
  intros H. rewrite filter_app, IH by tauto. rewrite app_nil_r.
  destruct (onError y); simpl; [|reflexivity].
  destruct (listener_eqb y l) eqn:E; [|reflexivity].
  apply listener_eqb_eq in E. subst. exfalso. apply H. left. reflexivity.
Qed.

Lemma step_silent (l : CompileListener) (e : Event) (w : World) :
  ~ In l (listeners (svc w)) ->
  e <> EvAddListener l ->
  ~ In l (listeners (svc (step e w)))
  /\ exists es, trace (step e w) = trace w ++ es /\ silent_for l es.
Proof.
  intros Hout Hne. destruct e as [code|seq r|l'|l'|]; unfold step.
  - rewrite compile_begin_eq. simpl. split; [assumption|].
    eexists. split; [reflexivity|].
    apply silent_app; [apply status_calls_silent; assumption | reflexivity].
  - destruct (mem seq (waiting w)).
    2:{ split; [assumption|]. exists []. split; [symmetry; apply app_nil_r | reflexivity]. }
    destruct (Z.eq_dec seq (compileSeq (svc w))) as [->|Hs].
    + destruct r as [p|err].
      * rewrite compile_resume_resolved. simpl. split; [assumption|].
        eexists. split; [rewrite <- app_assoc; reflexivity|].
        apply silent_app; [|reflexivity].
        apply silent_app; [destruct (currentPdfUrl (svc w)); reflexivity|].
        change (CreateObjectURL p (nextUrl w) :: ?x) with ([CreateObjectURL p (nextUrl w)] ++ x).
        apply silent_app; [reflexivity|].
        apply silent_app;
          [apply success_calls_silent | apply status_calls_silent]; assumption.
      * rewrite compile_resume_rejected. simpl. split; [assumption|].
        eexists. split; [rewrite <- app_assoc; reflexivity|].
        apply silent_app; [|reflexivity].
        apply silent_app;
          [apply error_calls_silent | apply status_calls_silent]; assumption.
    + rewrite (compile_resume_stale w seq r Hs). simpl. split; [assumption|].
      eexists. split; reflexivity.
  - split.
    + simpl. rewrite in_app_iff. intros [H|[H|[]]]; [tauto|]. subst. apply Hne. reflexivity.
    + exists []. split; [symmetry; apply app_nil_r | reflexivity].
  - split.
    + rewrite unsubscribe_listeners. intros H. apply Hout.
      eapply drop_first_incl; eassumption.
    + exists []. rewrite app_nil_r.
      split; [apply (unsubscribe_rest l' w) | reflexivity].
  - rewrite dispose_eq. simpl. split; [tauto|].
    eexists. split; [reflexivity|].
    destruct (currentPdfUrl (svc w)); reflexivity.
Qed.

Lemma run_silent (l : CompileListener) (evs : list Event) (w : World) :
  ~ In l (listeners (svc w)) ->
  (forall e, In e evs -> e <> EvAddListener l) ->
  exists es, trace (run evs w) = trace w ++ es /\ silent_for l es.
Proof.
  revert w. induction evs as [|e evs IH]; intros w Hout Hevs; simpl.
  - exists []. split; [symmetry; apply app_nil_r | reflexivity].
  - destruct (step_silent l e w Hout (Hevs e (or_introl eq_refl))) as (Hout' & es1 & E1 & S1).
    destruct (IH (step e w) Hout' (fun e' H => Hevs e' (or_intror H))) as (es2 & E2 & S2).
    exists (es1 ++ es2). split.
    + rewrite E2, E1, app_assoc. reflexivity.
    + apply silent_app; assumption.
Qed.

(** C9, as stated, fails.  Register one listener object twice and invoke
    the first token twice: the first invocation leaves one registration, the
    second removes that one too, so it is not a no-op; and after the first
    invocation a compile still calls the listener. *)
Lemma unsubscribe_twice_removes_twin :
  let l := mkListener 1 true true true in
  let w2 := addListener l (addListener l init) in
  let w3 := unsubscribe l w2 in
  listeners (svc w2) = [l; l]
  /\ listeners (svc w3) = [l]
  /\ listeners (svc (unsubscribe l w3)) = []
  /\ unsubscribe l w3 <> w3
  /\ filter (delivered_to l) (added w3 (snd (compile_begin [] w3)))
     = [CbStatusChange l Compiling].
Proof.
  cbv zeta. repeat split; try (vm_compute; reflexivity).
  vm_compute. discriminate.
Qed.

(** C9, amended.  Invoking the token returned by [addListener(l)] removes
    one registration of the object [l], the earliest, and nothing else: the
    other listeners stay, in order, and the rest of the service is as it
    was.  If [l] is registered at most once when the token is invoked, then
    invoking the token again changes nothing, and from then on, until [l] is
    registered again, whatever is called on the service and whatever replies
    arrive, no callback of [l] is called. *)
Theorem unsubscribe_removes_one_registration :
  forall (w : World) (l : CompileListener),
    let w1 := unsubscribe l w in
    listeners (svc w1) = drop_first l (listeners (svc w))
    /\ registrations l w1 = pred (registrations l w)
    /\ filter (fun y => negb (listener_eqb y l)) (listeners (svc w1))
       = filter (fun y => negb (listener_eqb y l)) (listeners (svc w))
    /\ (compileSeq (svc w1) = compileSeq (svc w)
        /\ currentPdfUrl (svc w1) = currentPdfUrl (svc w)
        /\ nextUrl w1 = nextUrl w
        /\ waiting w1 = waiting w
        /\ trace w1 = trace w)
    /\ (registrations l w <= 1 ->
        unsubscribe l w1 = w1
        /\ forall evs : list Event,
             (forall e, In e evs -> e <> EvAddListener l) ->
             filter (delivered_to l) (added w1 (run evs w1)) = []).
Proof.
  intros w l w1. subst w1.
  split; [apply unsubscribe_listeners|].
  split; [unfold registrations; rewrite unsubscribe_listeners; apply drop_first_count|].
  split; [rewrite unsubscribe_listeners; apply drop_first_others|].
  split; [apply unsubscribe_rest|].
  intros Hreg.
  assert (Hout : ~ In l (listeners (svc (unsubscribe l w)))).
  { apply count_zero_absent.
    pose proof (drop_first_count l (listeners (svc w))) as C.
    rewrite <- unsubscribe_listeners in C. unfold registrations in Hreg.
    rewrite C. lia. }
  split.
  - unfold unsubscribe at 1. unfold indexOf.
    rewrite (indexOf_from_absent l _ 0 Hout). reflexivity.
  - intros evs Hevs.
    destruct (run_silent l evs (unsubscribe l w) Hout Hevs) as (es & E & S).
    unfold added. rewrite E, skipn_own_length. exact S.
Qed.

Lemma unsubscribe_removes_one_registration_witness :
  let l := mkListener 1 true false true in
  let w := addListener l init in
  let w1 := unsubscribe l w in
  registrations l w <= 1
  /\ unsubscribe l w1 = w1
  /\ filter (delivered_to l)
            (added w1 (run [EvCompile []; EvReply 1 (Rejected (ErrorObject "boom"))] w1)) = [].
Proof.
  cbv zeta.
  pose proof (unsubscribe_removes_one_registration
                (addListener (mkListener 1 true false true) init)
                (mkListener 1 true false true)) as H.
  cbv zeta in H. destruct H as (_ & _ & _ & _ & H).
  assert (R : registrations (mkListener 1 true false true)
                (addListener (mkListener 1 true false true) init) <= 1)
    by (vm_compute; lia).
  destruct (H R) as [H1 H2].
  split; [exact R|]. split; [exact H1|].
  apply H2. intros e [<-|[<-|[]]]; discriminate.
Defined.

End CoordinatorFacts.

(* ===================================================================== *)
(** * Properties of the render worker *)
(* ===================================================================== *)

Section WorkerFacts.

Import Worker.

Variable R : Renderer.

(** *** The two halves of [compilePdf] *)

Lemma bind_assoc {A B C} (m : M A) (k : A -> M B) (h : B -> M C) (s : State) :
  bind (bind m k) h s = bind m (fun a => bind (k a) h) s.
Proof. unfold bind. destruct (m s) as [[a|e] s']; reflexivity. Qed.

Lemma bind_ext {A B} (m : M A) (k1 k2 : A -> M B) (s : State) :
  (forall a s', k1 a s' = k2 a s') -> bind m k1 s = bind m k2 s.
Proof. intros H. unfold bind. destruct (m s) as [[a|e] s']; [apply H | reflexivity]. Qed.

Lemma compilePdf_split (src : SourceText) (imgs : option (list (string * Bytes))) (s : State) :
  compilePdf R src imgs s = bind (acquire R src) (fun c => typeset R c src imgs) s.
Proof.
  unfold compilePdf, acquire, typeset, entries_of, diagnostics_of.
  rewrite bind_assoc. apply bind_ext. intros _ s1.
  rewrite bind_assoc. reflexivity.
Qed.

Lemma extend_nil (s : State) : extend s [] = s.
Proof. destruct s. unfold extend. simpl. rewrite app_nil_r. reflexivity. Qed.

Lemma extend_extend (s : State) (a b : list Effect) :
  extend (extend s a) b = extend s (a ++ b).
Proof. unfold extend. simpl. rewrite app_assoc. reflexivity. Qed.

Lemma mapShadows_eq (c : TypstCompiler) (entries : list (string * Bytes)) (s : State) :
  mapShadows c entries s = (Normal tt, extend s (map (shadow c) entries)).
Proof.
  revert s. induction entries as [|[path data] rest IH]; intros s; simpl.
  - rewrite extend_nil. reflexivity.
  - unfold bind, emit. rewrite IH. unfold extend, shadow. simpl.
    rewrite <- app_assoc. reflexivity.
Qed.

Lemma compile_eq (c : TypstCompiler) (s : State) :
  compile R c s =
  (match render R c (trace s ++ [Compile c "/main.typ"]) with
   | RenderThrows e => Throw e
   | RenderReturns result diagnostics => Normal (result, diagnostics)
   end,
   extend s [Compile c "/main.typ"]).
Proof.
  unfold compile, bind, emit, get, extend. simpl.
  destruct (render R c _); reflexivity.
Qed.

Lemma typeset_eq (c : TypstCompiler) (src : SourceText)
    (imgs : option (list (string * Bytes))) (s : State) :
  typeset R c src imgs s =
  (typeset_result R c (trace s ++ typeset_effects c src imgs),
   extend s (typeset_effects c src imgs)).
Proof.
  unfold typeset. cbv [bind emit]. rewrite mapShadows_eq, compile_eq.
  unfold typeset_result, typeset_effects, extend. simpl.
  rewrite <- !app_assoc. simpl.
  destruct (render R c _) as [e|[result|] d]; reflexivity.
Qed.

Lemma await_eq (p : CompilerPromise) (s : State) : await R p s = (awaited R p, s).
Proof.
  destruct p as [c|c]; simpl; [|reflexivity].
  unfold initialised. destruct (init_failure R c); reflexivity.
Qed.

Lemma acquire_upgrading (src : SourceText) (s : State) :
  needsEmojiFont src = true -> emojiLoaded s = false ->
  acquire R src s =
  match init_failure R (upgraded_compiler s) with
  | Some e =>
      (Throw e,
       mkState (compilerPromise s) true (S (constructed s))
               (trace s ++ [LOG_UPGRADING; CreateCompiler (upgraded_compiler s)]))
  | None =>
      (Normal (upgraded_compiler s),
       mkState (Some (ResolvedPromise (upgraded_compiler s))) true (S (constructed s))
               (trace s ++ [LOG_UPGRADING; CreateCompiler (upgraded_compiler s); LOG_UPGRADED]))
  end.
Proof.
  intros Hn Hl. unfold acquire. rewrite Hn.
  unfold upgradeCompilerWithEmoji, bind, get, set_emojiLoaded, emit, createCompilerWithFonts,
    set_compilerPromise, getCurrentFonts, getCompiler, upgraded_compiler,
    LOG_UPGRADING, LOG_UPGRADED.
  rewrite Hl. simpl.
  destruct (init_failure R _) as [e|]; simpl.
  - rewrite <- app_assoc. reflexivity.
  - rewrite <- !app_assoc. reflexivity.
Qed.

Lemma acquire_settled (src : SourceText) (s : State) :
  needsEmojiFont src && negb (emojiLoaded s) = false ->
  acquire R src s =
  match compilerPromise s with
  | Some p => (awaited R p, s)
  | None =>
      (initialised R (base_compiler s),
       mkState (Some (InitPromise (base_compiler s))) (emojiLoaded s) (S (constructed s))
               (trace s ++ [CreateCompiler (base_compiler s)]))
  end.
Proof.
  intros H. unfold acquire.
  assert (E : (if needsEmojiFont src then upgradeCompilerWithEmoji R else ret tt) s
              = (Normal tt, s)).
  { destruct (needsEmojiFont src); [|reflexivity].
    simpl in H. apply negb_false_iff in H.
    unfold upgradeCompilerWithEmoji, bind, get. rewrite H. reflexivity. }
  unfold bind at 1. rewrite E.
  cbv [bind getCompiler get].
  destruct (compilerPromise s) as [p|] eqn:P.
  - cbv [ret]. rewrite await_eq. reflexivity.
  - cbv [createCompilerWithFonts set_compilerPromise ret]. rewrite await_eq.
    cbn [compilerPromise emojiLoaded constructed trace]. reflexivity.
Qed.

Lemma queued_unit_eq (message : CompileRequest) (s : State) :
  queued_unit R message s =
  (Normal tt,
   extend (snd (compilePdf R (mainTypst message) (images message) s))
          [PostMessage (reply message
                          (fst (compilePdf R (mainTypst message) (images message) s)))]).
Proof.
  unfold queued_unit, try_catch, bind.
  destruct (compilePdf R (mainTypst message) (images message) s) as [[r|e] s1]; reflexivity.
Qed.

(** The callback of a message never throws: the promise it returns is
    fulfilled, whatever the renderer does. *)
Lemma queued_unit_fulfils (message : CompileRequest) (s : State) :
  fst (queued_unit R message s) = Normal tt.
Proof. rewrite queued_unit_eq. reflexivity. Qed.

(** A message handled from start to end. *)
Lemma handle_eq (m : CompileRequest) (s : State) :
  handle R m s =
  match acquire R (mainTypst m) s with
  | (Throw e, s1) =>
      extend s1 [PostMessage (ResponseFailed (id m) (error_text e) [])]
  | (Normal c, s1) =>
      extend s1 (typeset_effects c (mainTypst m) (images m)
                 ++ [PostMessage
                       (reply m (typeset_result R c
                                   (trace s1 ++ typeset_effects c (mainTypst m) (images m))))])
  end.
Proof.
  unfold handle. rewrite queued_unit_eq, compilePdf_split. unfold bind.
  destruct (acquire R (mainTypst m) s) as [[c|e] s1]; [|reflexivity].
  rewrite typeset_eq. cbn [fst snd]. apply extend_extend.
Qed.

Lemma appended_extend (s : State) (es : list Effect) : appended s (extend s es) = es.
Proof. unfold appended, extend; simpl. apply skipn_own_length. Qed.

(** *** What the effects of a unit contain *)

Lemma rendered_with_app (a b : list Effect) :
  rendered_with (a ++ b) = rendered_with a ++ rendered_with b.
Proof.
  induction a as [|e a IH]; simpl; [reflexivity|].
  destruct e; simpl; rewrite ?IH; reflexivity.
Qed.

Lemma posted_app (a b : list Effect) : posted (a ++ b) = posted a ++ posted b.
Proof.
  induction a as [|e a IH]; simpl; [reflexivity|].
  destruct e; simpl; rewrite ?IH; reflexivity.
Qed.

Lemma shadows_plain (P : Effect -> bool) (c : TypstCompiler) (entries : list (string * Bytes)) :
  (forall path data, P (MapShadow c path data) = false) ->
  filter P (map (shadow c) entries) = [].
Proof.
  intros H. induction entries as [|x rest IH]; simpl; [reflexivity|].
  unfold shadow at 1. rewrite H. exact IH.
Qed.

Lemma shadows_rendered (c : TypstCompiler) (entries : list (string * Bytes)) :
  rendered_with (map (shadow c) entries) = [].
Proof. induction entries as [|x rest IH]; simpl; [reflexivity | exact IH]. Qed.

Lemma shadows_posted (c : TypstCompiler) (entries : list (string * Bytes)) :
  posted (map (shadow c) entries) = [].
Proof. induction entries as [|x rest IH]; simpl; [reflexivity | exact IH]. Qed.

Lemma typeset_effects_filter (P : Effect -> bool) (c : TypstCompiler) (src : SourceText)
    (imgs : option (list (string * Bytes))) :
  (forall path x, P (AddSource c path x) = false) ->
  (forall path data, P (MapShadow c path data) = false) ->
  (forall path, P (Compile c path) = false) ->
  filter P (typeset_effects c src imgs) = [].
Proof.
  intros H1 H2 H3. unfold typeset_effects. simpl. rewrite H1.
  rewrite filter_app, shadows_plain by assumption. simpl. rewrite H3. reflexivity.
Qed.

Lemma typeset_effects_rendered (c : TypstCompiler) (src : SourceText)
    (imgs : option (list (string * Bytes))) :
  rendered_with (typeset_effects c src imgs) = [c].
Proof.
  unfold typeset_effects. simpl. rewrite rendered_with_app, shadows_rendered. reflexivity.
Qed.

Lemma typeset_effects_posted (c : TypstCompiler) (src : SourceText)
    (imgs : option (list (string * Bytes))) :
  posted (typeset_effects c src imgs) = [].
Proof.
  unfold typeset_effects. simpl. rewrite posted_app, shadows_posted. reflexivity.
Qed.

(** *** Once [emojiLoaded] is set and a promise is stored *)

Lemma awaited_promised (p : CompilerPromise) (c : TypstCompiler) :
  awaited R p = Normal c -> c = promised p.
Proof.
  destruct p as [c'|c']; simpl; [|congruence].
  unfold initialised. destruct (init_failure R c'); congruence.
Qed.

Lemma handle_stable (m : CompileRequest) (s : State) (p : CompilerPromise) :
  emojiLoaded s = true -> compilerPromise s = Some p ->
  exists es,
    handle R m s = extend s es
    /\ filter is_construction es = []
    /\ rendered_with es = match awaited R p with Normal _ => [promised p] | Throw _ => [] end.
Proof.
  intros Hl Hp. rewrite handle_eq.
  rewrite acquire_settled by (rewrite Hl; apply andb_false_r).
  rewrite Hp. destruct (awaited R p) as [c|e] eqn:A.
  - eexists. split; [reflexivity|]. split.
    + rewrite filter_app, typeset_effects_filter by reflexivity. reflexivity.
    + rewrite rendered_with_app, typeset_effects_rendered. simpl.
      rewrite (awaited_promised p c A). reflexivity.
  - eexists. split; [reflexivity|]. split; reflexivity.
Qed.

Lemma handle_all_stable (ms : list CompileRequest) (s : State) (p : CompilerPromise) :
  emojiLoaded s = true -> compilerPromise s = Some p ->
  exists es,
    handle_all R ms s = extend s es
    /\ filter is_construction es = []
    /\ rendered_with es
       = match awaited R p with
         | Normal _ => repeat (promised p) (List.length ms)
         | Throw _ => []
         end.
Proof.
  revert s. induction ms as [|m ms IH]; intros s Hl Hp; simpl.
  - exists []. rewrite extend_nil. repeat split. destruct (awaited R p); reflexivity.
  - destruct (handle_stable m s p Hl Hp) as (es1 & E1 & C1 & R1).
    rewrite E1.
    destruct (IH (extend s es1) Hl Hp) as (es2 & E2 & C2 & R2).
    exists (es1 ++ es2). split; [rewrite E2; apply extend_extend|]. split.
    + rewrite filter_app, C1, C2. reflexivity.
    + rewrite rendered_with_app, R1, R2. destruct (awaited R p); reflexivity.
Qed.

(** *** Reachable states *)

Lemma upgrade_count_extend (s : State) (es : list Effect) :
  upgrade_count (extend s es)
  = upgrade_count s + List.length (filter is_upgrade_construction es).
Proof. unfold upgrade_count, extend; simpl. rewrite filter_app, length_app. reflexivity. Qed.

Lemma renderer_state_extend (s : State) (es : list Effect) :
  renderer_state (extend s es) = renderer_state s.
Proof. reflexivity. Qed.

Lemma typeset_tail_upgrades (c : TypstCompiler) (src : SourceText)
    (imgs : option (list (string * Bytes))) (r : CompileResponse) :
  filter is_upgrade_construction (typeset_effects c src imgs ++ [PostMessage r]) = [].
Proof. rewrite filter_app, typeset_effects_filter by reflexivity. reflexivity. Qed.


Lemma handle_cases (m : CompileRequest) (s : State) :
  (needsEmojiFont (mainTypst m) = true /\ emojiLoaded s = false
   /\ ((exists e,
          init_failure R (upgraded_compiler s) = Some e
          /\ handle R m s
             = extend (mkState (compilerPromise s) true (S (constructed s)) (trace s))
                      [LOG_UPGRADING; CreateCompiler (upgraded_compiler s);
                       PostMessage (ResponseFailed (id m) (error_text e) [])])
       \/ (exists r,
             init_failure R (upgraded_compiler s) = None
             /\ handle R m s
                = extend (mkState (Some (ResolvedPromise (upgraded_compiler s))) true
                                  (S (constructed s)) (trace s))
                         ([LOG_UPGRADING; CreateCompiler (upgraded_compiler s); LOG_UPGRADED]
                          ++ typeset_effects (upgraded_compiler s) (mainTypst m) (images m)
                          ++ [PostMessage r]))))
  \/ (needsEmojiFont (mainTypst m) && negb (emojiLoaded s) = false
      /\ ((exists p es,
             compilerPromise s = Some p
             /\ handle R m s = extend s es
             /\ filter is_construction es = [])
          \/ (exists es,
                compilerPromise s = None
                /\ handle R m s
                   = extend (mkState (Some (InitPromise (base_compiler s))) (emojiLoaded s)
                                     (S (constructed s)) (trace s))
                            (CreateCompiler (base_compiler s) :: es)
                /\ filter is_construction es = []))).
Proof.
  destruct (needsEmojiFont (mainTypst m) && negb (emojiLoaded s)) eqn:C.
  - left. apply andb_true_iff in C as [Hn Hl]. apply negb_true_iff in Hl.
    split; [assumption|]. split; [assumption|].
    rewrite handle_eq, (acquire_upgrading _ _ Hn Hl).
    destruct (init_failure R (upgraded_compiler s)) as [e|].
    + left. exists e. split; [reflexivity|].
      unfold extend; cbn [trace compilerPromise emojiLoaded constructed]. rewrite <- app_assoc. reflexivity.
    + right. eexists. split; [reflexivity|].
      unfold extend; cbn [trace compilerPromise emojiLoaded constructed]. rewrite <- !app_assoc. reflexivity.
  - right. split; [reflexivity|].
    rewrite handle_eq, (acquire_settled _ _ C).
    destruct (compilerPromise s) as [p|] eqn:P.
    + left. exists p.
      destruct (awaited R p) as [c|e].
      * eexists. split; [reflexivity|]. split; [reflexivity|].
        rewrite filter_app, typeset_effects_filter by reflexivity. reflexivity.
      * eexists. split; [reflexivity|]. split; reflexivity.
    + right. destruct (initialised R (base_compiler s)) as [c|e].
      * eexists. split; [reflexivity|]. split.
        -- unfold extend; cbn [trace compilerPromise emojiLoaded constructed]. rewrite <- app_assoc. reflexivity.
        -- rewrite filter_app, typeset_effects_filter by reflexivity. reflexivity.
      * eexists. split; [reflexivity|]. split.
        -- unfold extend; cbn [trace compilerPromise emojiLoaded constructed]. rewrite <- app_assoc. reflexivity.
        -- reflexivity.
Qed.

Lemma no_construction_no_upgrade (es : list Effect) :
  filter is_construction es = [] -> filter is_upgrade_construction es = [].
Proof.
  induction es as [|e es IH]; simpl; [reflexivity|].
  destruct e; simpl; try exact IH. discriminate.
Qed.

Lemma handle_sound (m : CompileRequest) (s : State) : sound s -> sound (handle R m s).
Proof.
  intros (I1 & I2 & I3).
  destruct (handle_cases m s) as [(Hn & Hl & [(e & F & E)|(r & F & E)])|(C & [(p & es & P & E & N)|(es & P & E & N)])];
    rewrite E; unfold sound; rewrite upgrade_count_extend, renderer_state_extend.
  - destruct (I1 Hl) as [Z NU]. split; [discriminate|]. split.
    + unfold upgrade_count in *. cbn [trace]. rewrite Z. simpl. lia.
    + intros U. exfalso. apply NU. exact U.
  - destruct (I1 Hl) as [Z NU]. split; [discriminate|]. split.
    + unfold upgrade_count in *. cbn [trace]. rewrite Z.
      rewrite filter_app, typeset_tail_upgrades. simpl. lia.
    + intros _. exists (upgraded_compiler s). split; reflexivity.
  - rewrite (no_construction_no_upgrade es N). simpl. rewrite Nat.add_0_r.
    split; [exact I1|]. split; [exact I2 | exact I3].
  - cbn [filter is_upgrade_construction base_compiler fonts].
    replace (fonts_eqb CORE_FONTS (CORE_FONTS ++ EMOJI_FONTS)) with false by reflexivity.
    rewrite (no_construction_no_upgrade es N). simpl. rewrite Nat.add_0_r.
    unfold upgrade_count in *. cbn [trace emojiLoaded].
    split; [|split].
    + intros Hl. split; [apply (I1 Hl) | discriminate].
    + exact I2.
    + discriminate.
Qed.

Lemma handle_all_sound (ms : list CompileRequest) (s : State) :
  sound s -> sound (handle_all R ms s).
Proof.
  revert s. induction ms as [|m ms IH]; intros s H; simpl; [exact H|].
  apply IH, handle_sound, H.
Qed.

Lemma init_sound : sound init.
Proof.
  split; [|split].
  - intros _. split; [reflexivity | discriminate].
  - unfold upgrade_count. simpl. lia.
  - discriminate.
Qed.





(** C10.  A worker in the base state whose first text with emoji comes in
    while the construction of the extended compiler fails: the message is
    answered with the failure, [emojiLoaded] is true and [compilerPromise] is
    the base promise as before; and from then on, whatever messages follow,
    with emoji or without, [emojiLoaded] stays true, no compiler is
    constructed, [compilerPromise] stays the base promise, and when the base
    compiler had initialised every one of these messages is rendered, once
    and in order, with the base compiler (when it had not, none of them is
    rendered at all). *)
Theorem failed_upgrade_is_final :
  forall (m : CompileRequest) (s : State) (p : CompilerPromise) (e : JsThrown),
    compilerPromise s = Some p ->
    renderer_state s = Base ->
    emojiLoaded s = false ->
    needsEmojiFont (mainTypst m) = true ->
    init_failure R (mkCompiler (constructed s) (CORE_FONTS ++ EMOJI_FONTS)) = Some e ->
    let s1 := handle R m s in
    emojiLoaded s1 = true
    /\ compilerPromise s1 = Some p
    /\ posted (appended s s1) = [ResponseFailed (id m) (error_text e) []]
    /\ forall ms : list CompileRequest,
         let s2 := handle_all R ms s1 in
         emojiLoaded s2 = true
         /\ compilerPromise s2 = Some p
         /\ renderer_state s2 = Base
         /\ filter is_construction (appended s1 s2) = []
         /\ rendered_with (appended s1 s2)
            = match awaited R p with
              | Normal _ => repeat (promised p) (List.length ms)
              | Throw _ => []
              end.
Proof.
  intros m s p e P B L N F s1.
  assert (E1 : s1 = extend (mkState (Some p) true (S (constructed s)) (trace s))
                      [LOG_UPGRADING; CreateCompiler (upgraded_compiler s);
                       PostMessage (ResponseFailed (id m) (error_text e) [])]).
  { subst s1. rewrite handle_eq, (acquire_upgrading _ _ N L).
    unfold upgraded_compiler. rewrite F, <- P.
    unfold extend; cbn [trace compilerPromise emojiLoaded constructed].
    rewrite <- app_assoc. reflexivity. }
  split; [rewrite E1; reflexivity|].
  split; [rewrite E1; reflexivity|].
  split.
  { rewrite E1. unfold appended, extend; cbn [trace]. rewrite skipn_own_length. reflexivity. }
  intros ms s2.
  assert (L1 : emojiLoaded s1 = true) by (rewrite E1; reflexivity).
  assert (P1 : compilerPromise s1 = Some p) by (rewrite E1; reflexivity).
  destruct (handle_all_stable ms s1 p L1 P1) as (es & E & C & Rw).
  subst s2. rewrite E, appended_extend.
  split; [exact L1|]. split; [exact P1|]. split.
  - rewrite renderer_state_extend. unfold renderer_state in *. rewrite P1. rewrite P in B. exact B.
  - split; [exact C | exact Rw].
Qed.

(** *** The reply to a rejected source *)

Lemma acquire_trace (src : SourceText) (s : State) :
  exists pre,
    trace (snd (acquire R src s)) = trace s ++ pre
    /\ rendered_with pre = []
    /\ posted pre = []
    /\ filter is_marker pre = [].
Proof.
  destruct (needsEmojiFont src && negb (emojiLoaded s)) eqn:C.
  - apply andb_true_iff in C as [Hn Hl]. apply negb_true_iff in Hl.
    rewrite (acquire_upgrading _ _ Hn Hl).
    destruct (init_failure R (upgraded_compiler s)); eexists; repeat split.
  - rewrite (acquire_settled _ _ C).
    destruct (compilerPromise s).
    + exists []. split; [symmetry; apply app_nil_r | repeat split].
    + eexists; repeat split.
Qed.


(** *** The queue *)

Lemma serial_snoc (ms : list CompileRequest) (m : CompileRequest) (s : State) :
  in_series R (ms ++ [m]) s = whole_unit R m (in_series R ms s).
Proof. unfold in_series. rewrite fold_left_app. reflexivity. Qed.

Lemma step_orderly (e : Event) (received : list CompileRequest) (L : Loop) :
  orderly R received L -> orderly R (received ++ compile_messages [e]) (step R e L).
Proof.
  intros (finished & Hr & Hv & Hs). destruct e as [[m|]|]; simpl.
  - destruct (String.eqb (type m) "compile") eqn:T; simpl.
    + exists finished. unfold in_hand in *; simpl.
      rewrite Hr, <- !app_assoc. repeat split; assumption.
    + exists finished. rewrite app_nil_r. repeat split; assumption.
  - exists finished. rewrite app_nil_r. repeat split; assumption.
  - rewrite app_nil_r. unfold turn, in_hand in *.
    destruct (running L) as [m|] eqn:Rn.
    + pose proof (queued_unit_fulfils m (vars L)) as Q.
      destruct (queued_unit R m (vars L)) as [c st] eqn:E. simpl in Q. subst c.
      exists (finished ++ [m]). unfold in_hand. simpl. split; [|split].
      * rewrite Hr, <- app_assoc. reflexivity.
      * rewrite serial_snoc. unfold whole_unit. simpl in Hv. rewrite <- Hv.
        unfold handle. rewrite E. reflexivity.
      * reflexivity.
    + destruct (queued L) as [|m rest] eqn:Q.
      * exists finished. unfold in_hand. rewrite Rn, Q. repeat split; assumption.
      * rewrite Hs. exists finished. unfold in_hand. simpl. split; [|split].
        -- rewrite Hr. reflexivity.
        -- simpl in Hv. rewrite Hv. reflexivity.
        -- reflexivity.
Qed.

Lemma compile_messages_cons (e : Event) (evs : list Event) :
  compile_messages (e :: evs) = compile_messages [e] ++ compile_messages evs.
Proof. unfold compile_messages. simpl. rewrite app_nil_r. reflexivity. Qed.

Lemma run_orderly (evs : list Event) (received : list CompileRequest) (L : Loop) :
  orderly R received L -> orderly R (received ++ compile_messages evs) (run R evs L).
Proof.
  revert received L. induction evs as [|e evs IH]; intros received L H.
  - simpl. rewrite app_nil_r. exact H.
  - rewrite compile_messages_cons, app_assoc. simpl. apply IH, step_orderly, H.
Qed.

Lemma start_orderly : orderly R [] start.
Proof. exists []. repeat split. Qed.

Lemma turn_work (L : Loop) : settled L = Fulfilled -> work (turn R L) = pred (work L).
Proof.
  intros Hs. unfold work, turn.
  destruct (running L) as [m|] eqn:Rn.
  - destruct (queued_unit R m (vars L)) as [c st]. simpl. lia.
  - destruct (queued L) as [|m rest] eqn:Q.
    + rewrite Rn, Q. reflexivity.
    + rewrite Hs. simpl. lia.
Qed.

Lemma turns_orderly (n : nat) (received : list CompileRequest) (L : Loop) :
  orderly R received L ->
  orderly R received (run R (repeat Turn n) L)
  /\ work (run R (repeat Turn n) L) = work L - n.
Proof.
  revert L. induction n as [|n IH]; intros L H; simpl.
  - split; [exact H | lia].
  - pose proof (step_orderly Turn received L H) as H1.
    simpl in H1. rewrite app_nil_r in H1.
    destruct (IH (turn R L) H1) as [H2 W].
    split; [exact H2|]. rewrite W, turn_work; [lia|].
    destruct H as (_ & _ & _ & Hs). exact Hs.
Qed.

Lemma handle_shape (m : CompileRequest) (s : State) :
  exists es r,
    trace (handle R m s) = trace s ++ es ++ [PostMessage r]
    /\ response_id r = id m
    /\ posted es = []
    /\ filter is_marker es = [].
Proof.
  rewrite handle_eq.
  destruct (acquire_trace (mainTypst m) s) as (pre & Tp & _ & Pp & Mp).
  destruct (acquire R (mainTypst m) s) as [[c|e] s1]; cbn [snd] in Tp;
    unfold extend; cbn [trace]; rewrite Tp.
  - exists (pre ++ typeset_effects c (mainTypst m) (images m)). eexists.
    split; [rewrite <- !app_assoc; reflexivity|]. split.
    + unfold reply. destruct (typeset_result R _ _); reflexivity.
    + split.
      * rewrite posted_app, Pp, typeset_effects_posted. reflexivity.
      * rewrite filter_app, Mp, typeset_effects_filter by reflexivity. reflexivity.
  - exists pre. eexists. split; [rewrite <- app_assoc; reflexivity|].
    split; [reflexivity|]. split; assumption.
Qed.

Lemma serial_trace (ms : list CompileRequest) :
  filter is_marker (trace (in_series R ms init)) = marks ms
  /\ map response_id (posted (trace (in_series R ms init))) = map id ms.
Proof.
  induction ms as [|m ms IH] using rev_ind; [split; reflexivity|].
  destruct IH as [IH1 IH2].
  rewrite serial_snoc. unfold whole_unit, mark, emit. cbn [snd trace].
  destruct (handle_shape m
              (mkState (compilerPromise (in_series R ms init)) (emojiLoaded (in_series R ms init))
                       (constructed (in_series R ms init))
                       (trace (in_series R ms init) ++ [UnitBegin (id m)])))
    as (es & r & T & Hid & Hp & Hm).
  rewrite T. cbn [trace]. split.
  - rewrite !filter_app, IH1, Hm. unfold marks. rewrite flat_map_app. simpl.
    rewrite <- !app_assoc. reflexivity.
  - rewrite !posted_app, Hp. simpl. rewrite !app_nil_r.
    rewrite !map_app, IH2. simpl. rewrite Hid. reflexivity.
Qed.

(** C4.  The worker's queue is strictly serial.  After any interleaving
    of arriving messages and turns of the job queue, the compile messages
    received so far split into those finished, the one running and those
    queued, in arrival order; the worker's variables and trace are exactly
    what handling the finished messages one after the other, each from its
    start to its end, gives (plus the begin mark of the running one), so the
    marks in the trace read begin, end, begin, end in arrival order and a
    unit begins only after the one before it has ended; the replies posted so
    far are those of the finished messages, in arrival order; the promise
    chain is never rejected, whatever the renderer throws; and left to run,
    the worker takes up every message in hand and posts a reply for each. *)
Theorem worker_queue_is_serial :
  forall (evs : list Event),
    let L := run R evs start in
    exists finished : list CompileRequest,
      compile_messages evs = finished ++ in_hand L
      /\ vars L = begun (running L) (in_series R finished init)
      /\ filter is_marker (trace (vars L))
         = marks finished
           ++ match running L with Some m => [UnitBegin (id m)] | None => [] end
      /\ map response_id (posted (trace (vars L))) = map id finished
      /\ settled L = Fulfilled
      /\ (let L' := run R (repeat Turn (2 * List.length (in_hand L))) L in
          running L' = None
          /\ queued L' = []
          /\ vars L' = in_series R (compile_messages evs) init
          /\ map response_id (posted (trace (vars L'))) = map id (compile_messages evs)).
Proof.
  intros evs L.
  pose proof (run_orderly evs [] start start_orderly) as H. simpl in H. fold L in H.
  destruct H as (finished & Hr & Hv & Hs).
  exists finished. split; [exact Hr|]. split; [exact Hv|].
  destruct (serial_trace finished) as [M P].
  split; [|split; [|split; [exact Hs|]]].
  - rewrite Hv. destruct (running L) as [m|]; simpl.
    + rewrite filter_app, M. reflexivity.
    + rewrite M, app_nil_r. reflexivity.
  - rewrite Hv. destruct (running L) as [m|]; unfold begun, mark, emit; cbn [snd trace].
    + rewrite posted_app, map_app, P. simpl. rewrite app_nil_r. reflexivity.
    + exact P.
  - intros L'.
    assert (O : orderly R (compile_messages evs) L) by (exists finished; repeat split; assumption).
    destruct (turns_orderly (2 * List.length (in_hand L)) _ L O) as [O' W].
    fold L' in O', W.
    assert (Z : work L' = 0).
    { rewrite W. unfold work, in_hand. rewrite length_app.
      destruct (running L); simpl; lia. }
    assert (Rn : running L' = None).
    { unfold work in Z. destruct (running L'); [lia | reflexivity]. }
    assert (Q : queued L' = []).
    { unfold work in Z. destruct (queued L'); [reflexivity | simpl in Z; lia]. }
    destruct O' as (fin' & Hr' & Hv' & _).
    unfold in_hand in Hr'. rewrite Rn, Q in Hr'. simpl in Hr'. rewrite app_nil_r in Hr'.
    subst fin'. rewrite Rn in Hv'. simpl in Hv'.
    split; [exact Rn|]. split; [exact Q|]. split; [exact Hv'|].
    rewrite Hv'. apply serial_trace.
Qed.

End WorkerFacts.

(** *** Concrete renderers and messages *)

Section WorkerExamples.

Import Worker.



Lemma failed_upgrade_is_final_witness :
  let R := renderer_without_emoji in
  let s := handle R hello_message init in
  let p := InitPromise (mkCompiler 0 CORE_FONTS) in
  let e := ErrorObject "Failed to fetch" in
  (compilerPromise s = Some p
   /\ renderer_state s = Base
   /\ emojiLoaded s = false
   /\ needsEmojiFont (mainTypst sun_message) = true
   /\ init_failure R (mkCompiler (constructed s) (CORE_FONTS ++ EMOJI_FONTS)) = Some e)
  /\ (let s1 := handle R sun_message s in
      emojiLoaded s1 = true
      /\ compilerPromise s1 = Some p
      /\ posted (appended s s1) = [ResponseFailed "req-2" "Failed to fetch" []]
      /\ forall ms : list CompileRequest,
           let s2 := handle_all R ms s1 in
           emojiLoaded s2 = true
           /\ compilerPromise s2 = Some p
           /\ renderer_state s2 = Base
           /\ filter is_construction (appended s1 s2) = []
           /\ rendered_with (appended s1 s2)
              = repeat (mkCompiler 0 CORE_FONTS) (List.length ms))
  /\ rendered_with
       (appended (handle R sun_message s)
                 (handle_all R [sun_message; hello_message] (handle R sun_message s)))
     = [mkCompiler 0 CORE_FONTS; mkCompiler 0 CORE_FONTS].
Proof.
  cbv zeta. split; [repeat split|].
  pose proof (failed_upgrade_is_final renderer_without_emoji sun_message
                (handle renderer_without_emoji hello_message init)
                (InitPromise (mkCompiler 0 CORE_FONTS))
                (ErrorObject "Failed to fetch")
                eq_refl eq_refl eq_refl eq_refl eq_refl) as H.
  cbv zeta in H. destruct H as (H1 & H2 & H3 & H4).
  split.
  - split; [exact H1|]. split; [exact H2|]. split; [exact H3|]. exact H4.
  - exact (proj2 (proj2 (proj2 (proj2 (H4 [sun_message; hello_message]))))).
Defined.



End WorkerExamples.

(* ===================================================================== *)
(** * Properties of [debounce] *)
(* ===================================================================== *)

Section DebounceFacts.

Import Helpers.

Variable Args : Type.
Variable func : list Args -> Args -> Behaviour Args.
Variable delay : nat.

Implicit Types (s : State Args) (a : Args) (evs : list (Event Args)).

(** *** The delay the browser counts *)

Lemma timer_delay_small : (Z.of_nat delay < 2 ^ 31)%Z -> timer_delay delay = delay.
Proof.
  intros H. unfold timer_delay.
  rewrite Z.mod_small by lia.
  destruct (Z.of_nat delay <? 2 ^ 31)%Z eqn:E.
  - apply Nat2Z.id.
  - apply Z.ltb_ge in E. lia.
Qed.

(** From 2^31 on the delay wraps around: up to 2^32 the browser does not
    wait at all. *)
Lemma timer_delay_wraps :
  (2 ^ 31 <= Z.of_nat delay < 2 ^ 32)%Z -> timer_delay delay = 0.
Proof.
  intros H. unfold timer_delay.
  rewrite Z.mod_small by lia.
  destruct (Z.of_nat delay <? 2 ^ 31)%Z eqn:E; [|reflexivity].
  apply Z.ltb_lt in E. lia.
Qed.

Lemma timer_delay_le : timer_delay delay <= delay.
Proof.
  unfold timer_delay.
  assert (B : (0 <= Z.of_nat delay mod 2 ^ 32 <= Z.of_nat delay)%Z).
  { split; [apply Z.mod_pos_bound; lia | apply Z.mod_le; lia]. }
  revert B. generalize (Z.of_nat delay mod 2 ^ 32)%Z. intros d B.
  destruct (d <? 2 ^ 31)%Z; lia.
Qed.

(** *** The closure of a plain [func] *)

Lemma debounced_arms a s :
  well_formed s ->
  armed (nextHandle s) (now s + timer_delay delay) a (debounced delay a s)
  /\ invoked (debounced delay a s) = invoked s
  /\ now (debounced delay a s) = now s.
Proof.
  intros [Ht|(h & d & a' & Hid & Ht)]; unfold debounced, armed.
  - destruct (timeoutId s); unfold setTimeout, clearTimeout; simpl; rewrite Ht; simpl;
      repeat split.
  - rewrite Hid. unfold setTimeout, clearTimeout; simpl. rewrite Ht. simpl.
    rewrite Nat.eqb_refl. simpl. repeat split.
Qed.

(** Calling the debounced function never calls [func]. *)
Lemma debounced_defers a s : invoked (debounced delay a s) = invoked s.
Proof. unfold debounced. destruct (timeoutId s); reflexivity. Qed.

Lemma cancel_defers s : invoked (cancel s) = invoked s.
Proof. unfold cancel. destruct (timeoutId s); reflexivity. Qed.

Lemma cancel_rests s : well_formed s -> at_rest (cancel s) /\ invoked (cancel s) = invoked s.
Proof.
  intros W. split; [|apply cancel_defers].
  destruct W as [Ht|(h & d & a' & Hid & Ht)]; unfold cancel, at_rest.
  - destruct (timeoutId s) eqn:E; [|split; assumption].
    unfold clearTimeout; simpl. rewrite Ht. split; reflexivity.
  - rewrite Hid. unfold clearTimeout; simpl. rewrite Ht. simpl. rewrite Nat.eqb_refl.
    split; reflexivity.
Qed.

Lemma runTimers_early h d a s :
  armed h d a s -> now s < d -> runTimers func delay s = s.
Proof.
  intros [Hid Ht] Hlt. unfold runTimers. rewrite Ht. simpl.
  assert (E : (d <=? now s)%nat = false) by (apply Nat.leb_gt; exact Hlt).
  rewrite E. reflexivity.
Qed.

Lemma runTimers_none s : timers s = [] -> runTimers func delay s = s.
Proof. intros Ht. unfold runTimers. rewrite Ht. reflexivity. Qed.

Lemma runTimers_at_rest s : at_rest s -> runTimers func delay s = s.
Proof. intros [_ Ht]. apply runTimers_none, Ht. Qed.

(** The callback of a timer when [func] makes no call back. *)
Lemma fire_plain (t : Timer Args) s :
  plain func ->
  fire func delay t s
  = mkState (match outcome (func (invoked s) (args t)) with
             | Returns => None
             | Throws => timeoutId s
             end)
            (now s) (timers s) (nextHandle s) (invoked s ++ [args t]) (received s).
Proof.
  intros P. unfold fire. cbv zeta. rewrite (P (invoked s) (args t)). cbn [fold_left].
  destruct (outcome (func (invoked s) (args t))); reflexivity.
Qed.

Lemma runTimers_due h d a s :
  plain func -> armed h d a s -> d <= now s ->
  timers (runTimers func delay s) = []
  /\ invoked (runTimers func delay s) = invoked s ++ [a]
  /\ now (runTimers func delay s) = now s
  /\ timeoutId (runTimers func delay s)
     = match outcome (func (invoked s) a) with Returns => None | Throws => Some h end.
Proof.
  intros P [Hid Ht] Hle. unfold runTimers. rewrite Ht. cbn [filter due].
  assert (E : (d <=? now s)%nat = true) by (apply Nat.leb_le; exact Hle).
  rewrite E. cbn [fold_left handle].
  assert (Ep : pending h s = true).
  { unfold pending. rewrite Ht. simpl. rewrite Nat.eqb_refl. reflexivity. }
  rewrite Ep, (fire_plain _ _ P).
  unfold expire. cbn [timers invoked now timeoutId args nextHandle received].
  rewrite Ht, Hid. cbn [filter handle]. rewrite Nat.eqb_refl. cbn [negb].
  repeat split.
Qed.

Lemma step_well_formed (e : Event Args) s :
  plain func -> well_formed s -> well_formed (step func delay e s).
Proof.
  intros P W. destruct e as [a| |dt|]; simpl.
  - right. exists (nextHandle s), (now s + timer_delay delay), a. apply (debounced_arms a s W).
  - left. apply (cancel_rests s W).
  - destruct W as [Ht|(h & d & a & Hid & Ht)].
    + left. exact Ht.
    + right. exists h, d, a. split; assumption.
  - destruct W as [Ht|(h & d & a & Ha)].
    + rewrite (runTimers_none s Ht). left. exact Ht.
    + destruct (Nat.lt_ge_cases (now s) d) as [Hlt|Hge].
      * rewrite (runTimers_early h d a s Ha Hlt). right. exists h, d, a. exact Ha.
      * left. apply (runTimers_due h d a s P Ha Hge).
Qed.

Lemma run_well_formed evs s :
  plain func -> well_formed s -> well_formed (run func delay evs s).
Proof.
  intros P. revert s. induction evs as [|e evs IH]; intros s W; simpl; [exact W|].
  apply IH, step_well_formed; assumption.
Qed.

Lemma init_well_formed : well_formed (@init Args).
Proof. left. reflexivity. Qed.

(** With a [func] that also never throws, [timeoutId] is null whenever no
    timer is pending. *)
Lemma step_rested (e : Event Args) s :
  plain func -> returning func ->
  (at_rest s \/ exists h d a, armed h d a s) ->
  (at_rest (step func delay e s) \/ exists h d a, armed h d a (step func delay e s)).
Proof.
  intros P Rt W.
  assert (W' : well_formed s).
  { destruct W as [[_ Ht]|Ha]; [left; exact Ht | right; exact Ha]. }
  destruct e as [a| |dt|]; simpl.
  - right. exists (nextHandle s), (now s + timer_delay delay), a. apply (debounced_arms a s W').
  - left. apply (cancel_rests s W').
  - destruct W as [[Hid Ht]|(h & d & a & Hid & Ht)].
    + left. split; assumption.
    + right. exists h, d, a. split; assumption.
  - destruct W as [Hr|(h & d & a & Ha)].
    + rewrite (runTimers_at_rest s Hr). left. exact Hr.
    + destruct (Nat.lt_ge_cases (now s) d) as [Hlt|Hge].
      * rewrite (runTimers_early h d a s Ha Hlt). right. exists h, d, a. exact Ha.
      * left. destruct (runTimers_due h d a s P Ha Hge) as (Ht & _ & _ & Hid).
        rewrite (Rt (invoked s) a) in Hid. split; assumption.
Qed.

Lemma run_rested evs s :
  plain func -> returning func ->
  (at_rest s \/ exists h d a, armed h d a s) ->
  (at_rest (run func delay evs s) \/ exists h d a, armed h d a (run func delay evs s)).
Proof.
  intros P Rt. revert s. induction evs as [|e evs IH]; intros s W; simpl; [exact W|].
  apply IH, step_rested; assumption.
Qed.

Lemma run_app_events evs1 evs2 s :
  run func delay (evs1 ++ evs2) s = run func delay evs2 (run func delay evs1 s).
Proof. unfold run. apply fold_left_app. Qed.

(** While nobody calls: with no timer pending nothing happens. *)
Lemma idle_none evs s :
  forallb idle evs = true -> timers s = [] ->
  timers (run func delay evs s) = []
  /\ invoked (run func delay evs s) = invoked s
  /\ timeoutId (run func delay evs s) = timeoutId s.
Proof.
  revert s. induction evs as [|e evs IH]; intros s Hi Ht; simpl; [repeat split; exact Ht|].
  simpl in Hi. apply andb_true_iff in Hi as [He Hi].
  destruct e as [a| |dt|]; simpl in He; try discriminate; simpl.
  - destruct (IH (elapse dt s) Hi Ht) as (H1 & H2 & H3). repeat split; assumption.
  - rewrite (runTimers_none s Ht). apply IH; assumption.
Qed.

Lemma idle_at_rest evs s :
  forallb idle evs = true -> at_rest s ->
  at_rest (run func delay evs s) /\ invoked (run func delay evs s) = invoked s.
Proof.
  intros Hi [Hid Ht]. destruct (idle_none evs s Hi Ht) as (H1 & H2 & H3).
  split; [split; [rewrite H3; exact Hid | exact H1] | exact H2].
Qed.

(** *** The clock *)

Lemma debounced_now a s : now (debounced delay a s) = now s.
Proof. unfold debounced. destruct (timeoutId s); reflexivity. Qed.

Lemma cancel_now s : now (cancel s) = now s.
Proof. unfold cancel. destruct (timeoutId s); reflexivity. Qed.

Lemma reentries_now (rs : list (Reentry Args)) s :
  now (fold_left (reenter delay) rs s) = now s.
Proof.
  revert s. induction rs as [|r rs IH]; intros s; [reflexivity|].
  cbn [fold_left]. rewrite IH. destruct r; [apply debounced_now | apply cancel_now].
Qed.

Lemma fire_now (t : Timer Args) s : now (fire func delay t s) = now s.
Proof.
  unfold fire. cbv zeta.
  destruct (outcome (func (invoked s) (args t))); cbn [now]; rewrite reentries_now; reflexivity.
Qed.

Lemma fires_now (ready : list (Timer Args)) s :
  now (fold_left (fun acc t => if pending (handle t) acc
                               then fire func delay t (expire (handle t) acc)
                               else acc) ready s)
  = now s.
Proof.
  revert s. induction ready as [|t ready IH]; intros s; [reflexivity|].
  cbn [fold_left]. rewrite IH.
  destruct (pending (handle t) s); [rewrite fire_now|]; reflexivity.
Qed.

Lemma runTimers_now s : now (runTimers func delay s) = now s.
Proof. unfold runTimers. apply fires_now. Qed.

Lemma idle_now evs s :
  forallb idle evs = true -> now (run func delay evs s) = now s + duration evs.
Proof.
  revert s. induction evs as [|e evs IH]; intros s Hi; simpl; [lia|].
  simpl in Hi. apply andb_true_iff in Hi as [He Hi].
  destruct e as [a| |dt|]; simpl in He; try discriminate; simpl.
  - rewrite (IH _ Hi). simpl. lia.
  - rewrite (IH _ Hi), runTimers_now. reflexivity.
Qed.

(** *** A timer that waits *)

(** While nobody calls: an armed timer stays as it is until it runs, it
    runs at most once, and not before it is due. *)
Lemma idle_armed evs h d a s :
  plain func ->
  forallb idle evs = true -> armed h d a s ->
  (armed h d a (run func delay evs s) /\ invoked (run func delay evs s) = invoked s)
  \/ (d <= now s + duration evs
      /\ timers (run func delay evs s) = []
      /\ invoked (run func delay evs s) = invoked s ++ [a]
      /\ timeoutId (run func delay evs s)
         = match outcome (func (invoked s) a) with Returns => None | Throws => Some h end).
Proof.
  intros P. revert s. induction evs as [|e evs IH]; intros s Hi Ha; simpl.
  - left. split; [exact Ha | reflexivity].
  - simpl in Hi. apply andb_true_iff in Hi as [He Hi].
    destruct e as [a'| |dt|]; simpl in He; try discriminate; simpl.
    + destruct (IH (elapse dt s) Hi Ha) as [H|(Hd & H)]; [left; exact H | right].
      simpl in Hd. split; [lia | exact H].
    + destruct (Nat.lt_ge_cases (now s) d) as [Hlt|Hge].
      * rewrite (runTimers_early h d a s Ha Hlt). apply IH; assumption.
      * destruct (runTimers_due h d a s P Ha Hge) as (Ht & Hv & Hn & Hid).
        destruct (idle_none evs (runTimers func delay s) Hi Ht) as (Ht' & Hv' & Hid').
        right. split; [lia|]. split; [exact Ht'|]. split; [rewrite Hv', Hv; reflexivity|].
        rewrite Hid'. exact Hid.
Qed.

(** A pause shorter than the time left leaves the timer armed. *)
Lemma pause_keeps_armed evs h d a s :
  plain func ->
  forallb idle evs = true -> armed h d a s -> now s + duration evs < d ->
  armed h d a (run func delay evs s) /\ invoked (run func delay evs s) = invoked s.
Proof.
  intros P Hi Ha Hlt.
  destruct (idle_armed evs h d a s P Hi Ha) as [H|(Hd & _)]; [exact H | lia].
Qed.

(** After a burst the timer of the last call is armed, due one delay after
    that call, and [func] has not been called. *)
Lemma burst_arms (rest : list (list (Event Args) * Args)) (first : Args) s :
  plain func -> (Z.of_nat delay < 2 ^ 31)%Z ->
  well_formed s -> quick delay rest ->
  invoked (run func delay (burst first rest) s) = invoked s
  /\ exists h,
       armed h (now (run func delay (burst first rest) s) + delay) (last_args first rest)
             (run func delay (burst first rest) s).
Proof.
  intros P Small. pose proof (timer_delay_small Small) as Td.
  revert first s. induction rest as [|[pause a] rest IH]; intros first s W Q.
  - change (run func delay (burst first []) s) with (debounced delay first s).
    destruct (debounced_arms first s W) as (Ha & Hv & Hn).
    split; [exact Hv|]. exists (nextHandle s). rewrite Hn, <- Td at 1. exact Ha.
  - inversion Q as [|x l [Hi Hd] Q']; subst. simpl in Hi, Hd.
    change (burst first ((pause, a) :: rest)) with (Call first :: pause ++ burst a rest).
    change (run func delay (Call first :: pause ++ burst a rest) s)
      with (run func delay (pause ++ burst a rest) (debounced delay first s)).
    rewrite run_app_events.
    destruct (debounced_arms first s W) as (Ha & Hv & Hn).
    destruct (pause_keeps_armed pause _ _ first _ P Hi Ha ltac:(lia)) as [Ha' Hv'].
    assert (W' : well_formed (run func delay pause (debounced delay first s))).
    { right. exists (nextHandle s), (now s + timer_delay delay), first. exact Ha'. }
    destruct (IH a _ W' Q') as [Hv'' Hex].
    split; [rewrite Hv'', Hv', Hv; reflexivity | exact Hex].
Qed.

(** C8.  The debounced function coalesces.  Let [func] make no call of the
    debounced function or of [cancel] itself (it may return or throw), so
    that the calls are the caller's, and let [delay] be below 2^31
    milliseconds, which is as far as [setTimeout] counts.  From any state the
    closure can then be in, take a burst of one or more calls, each made less
    than [delay] after the one before, with the browser free to run timers in
    between.  Calling the debounced function never calls [func] by itself;
    at the end of the burst [func] has not been called for any call of the
    burst; if then at least [delay] passes and the browser runs its timers,
    [func] is called exactly once, with the arguments of the last call,
    however much longer one waits; and if instead [cancel()] is called,
    [func] is not called at all. *)
Theorem debounce_coalesces :
  forall (before : list (Event Args)) (first : Args) (rest : list (list (Event Args) * Args)),
    plain func ->
    (Z.of_nat delay < 2 ^ 31)%Z ->
    quick delay rest ->
    let s0 := run func delay before init in
    let s := run func delay (burst first rest) s0 in
    (forall a st, invoked (debounced delay a st) = invoked st)
    /\ invoked s = invoked s0
    /\ (forall w1 w2 : list (Event Args),
          forallb idle w1 = true -> forallb idle w2 = true -> delay <= duration w1 ->
          invoked (run func delay (w1 ++ RunTimers :: w2) s)
          = invoked s0 ++ [last_args first rest])
    /\ (forall w : list (Event Args),
          forallb idle w = true ->
          invoked (run func delay (Cancel :: w) s) = invoked s0).
Proof.
  intros before first rest P Small Q s0 s.
  assert (W0 : well_formed s0) by (apply run_well_formed; [exact P | apply init_well_formed]).
  destruct (burst_arms rest first s0 P Small W0 Q) as [Hv (h & Ha)]. fold s in Hv, Ha.
  split; [intros a st; apply debounced_defers|].
  split; [exact Hv|]. split.
  - intros w1 w2 H1 H2 Hd.
    rewrite run_app_events.
    change (run func delay (RunTimers :: w2) (run func delay w1 s))
      with (run func delay w2 (runTimers func delay (run func delay w1 s))).
    pose proof (idle_now w1 s H1) as Hn.
    destruct (idle_armed w1 _ _ _ s P H1 Ha) as [[Ha1 Hv1]|(_ & Ht1 & Hv1 & _)].
    + destruct (runTimers_due _ _ _ _ P Ha1 ltac:(lia)) as (Ht & Hv2 & _).
      destruct (idle_none w2 _ H2 Ht) as (_ & Hv3 & _).
      rewrite Hv3, Hv2, Hv1, Hv. reflexivity.
    + rewrite (runTimers_none _ Ht1).
      destruct (idle_none w2 _ H2 Ht1) as (_ & Hv3 & _).
      rewrite Hv3, Hv1, Hv. reflexivity.
  - intros w Hw.
    change (run func delay (Cancel :: w) s) with (run func delay w (cancel s)).
    assert (W : well_formed s) by (right; exists h, (now s + delay), (last_args first rest); exact Ha).
    destruct (cancel_rests s W) as [Hr Hc].
    destruct (idle_at_rest w _ Hw Hr) as [_ Hv3].
    rewrite Hv3, Hc, Hv. reflexivity.
Qed.

End DebounceFacts.

Section DebounceExamples.

Import Helpers.

(** Three keystrokes 300 ms and 400 ms apart, debounced by 1000 ms, after an
    earlier call that was left to fire; [func] throws whenever it is
    called. *)
Lemma debounce_coalesces_witness :
  let func : list string -> string -> Behaviour string := fun _ _ => mkBehaviour [] Throws in
  let delay := 1000 in
  let before := [Call "a"; Elapse 1200; RunTimers] in
  let rest := [([Elapse 300; RunTimers], "abc"); ([Elapse 400], "abcd")] in
  let s0 := run func delay before init in
  let s := run func delay (burst "ab" rest) s0 in
  (plain func /\ (Z.of_nat delay < 2 ^ 31)%Z /\ quick delay rest)
  /\ invoked s0 = ["a"]
  /\ invoked s = ["a"]
  /\ invoked (run func delay
                ([Elapse 999; RunTimers; Elapse 1] ++ RunTimers :: [Elapse 5000; RunTimers]) s)
     = ["a"; "abcd"]
  /\ invoked (run func delay (Cancel :: [Elapse 5000; RunTimers]) s) = ["a"].
Proof.
  cbv zeta.
  assert (P : plain (fun (_ : list string) (_ : string) => mkBehaviour [] Throws)).
  { intros past a. reflexivity. }
  assert (Small : (Z.of_nat 1000 < 2 ^ 31)%Z) by reflexivity.
  assert (Q : quick 1000 [([Elapse 300; RunTimers], "abc"); ([Elapse 400], "abcd")]).
  { repeat constructor; simpl; lia. }
  destruct (debounce_coalesces string (fun _ _ => mkBehaviour [] Throws) 1000
              [Call "a"; Elapse 1200; RunTimers] "ab"
              [([Elapse 300; RunTimers], "abc"); ([Elapse 400], "abcd")] P Small Q)
    as (_ & H2 & H3 & H4).
  split; [split; [exact P | split; [exact Small | exact Q]]|].
  split; [reflexivity|]. split; [exact H2|]. split.
  - apply (H3 [Elapse 999; RunTimers; Elapse 1] [Elapse 5000; RunTimers]);
      [reflexivity | reflexivity | simpl; lia].
  - apply (H4 [Elapse 5000; RunTimers]). reflexivity.
Defined.

End DebounceExamples.

(* ===================================================================== *)
(** * Further properties of the compile coordinator *)
(* ===================================================================== *)

Section CoordinatorMore.

Import Coordinator CoordinatorNotions.

Lemma js_succ_min (n : Z) : (n <= 2 ^ 53)%Z -> js_succ n = Z.min (n + 1) (2 ^ 53).
Proof.
  intros H. unfold js_succ. destruct (n <? 2 ^ 53)%Z eqn:E.
  - apply Z.ltb_lt in E. lia.
  - apply Z.ltb_ge in E. lia.
Qed.

Lemma step_compileSeq (e : Event) (w : World) :
  compileSeq (svc (step e w))
  = match e with
    | EvCompile _ => js_succ (compileSeq (svc w))
    | _ => compileSeq (svc w)
    end.
Proof.
  destruct e as [code|seq r|l|l|]; unfold step.
  - rewrite compile_begin_eq. reflexivity.
  - destruct (mem seq (waiting w)); [|reflexivity].
    pose proof (compile_resume_seq seq r w) as [Hs _].
    destruct (compile_resume seq r w) as [res w']. exact Hs.
  - reflexivity.
  - apply (unsubscribe_rest l w).
  - rewrite dispose_eq. reflexivity.
Qed.

Lemma run_compileSeq (evs : list Event) (w : World) :
  (0 <= compileSeq (svc w) <= 2 ^ 53)%Z ->
  compileSeq (svc (run evs w))
  = Z.min (compileSeq (svc w) + Z.of_nat (compiles evs)) (2 ^ 53).
Proof.
  revert w. induction evs as [|e evs IH]; intros w H; simpl.
  - lia.
  - assert (B : (0 <= compileSeq (svc (step e w)) <= 2 ^ 53)%Z).
    { rewrite step_compileSeq. destruct e; try exact H.
      rewrite js_succ_min by lia. lia. }
    rewrite (IH _ B), step_compileSeq.
    destruct e; try reflexivity.
    rewrite js_succ_min by lia. lia.
Qed.

(** X1.  The sequence counter counts the calls of [compile]: after any
    execution it is the number of calls made, as long as that is at most
    2^53, where it stays; and no step ever lowers it. *)
Theorem counter_counts_compile_calls :
  forall (evs : list Event),
    compileSeq (svc (run evs init)) = Z.min (Z.of_nat (compiles evs)) (2 ^ 53)
    /\ (forall (e : Event),
          (compileSeq (svc (run evs init)) <= compileSeq (svc (step e (run evs init))))%Z).
Proof.
  intros evs.
  assert (E : compileSeq (svc (run evs init)) = Z.min (Z.of_nat (compiles evs)) (2 ^ 53)).
  { rewrite (run_compileSeq evs init); simpl; [reflexivity | lia]. }
  split; [exact E|].
  intros e. rewrite step_compileSeq. destruct e; try lia.
  apply js_succ_bounds.
Qed.

(** *** The URL the callers know of *)

Lemma reported_app (t es : list Effect) (acc : option Url) :
  reported (t ++ es) acc = reported es (reported t acc).
Proof.
  revert acc. induction t as [|e t IH]; intros acc; simpl; [reflexivity|].
  destruct e; apply IH.
Qed.

Lemma reported_calls (es : list Effect) (acc : option Url) :
  forallb is_callback es = true -> reported es acc = acc.
Proof.
  revert acc. induction es as [|e es IH]; intros acc H; simpl in *; [reflexivity|].
  apply andb_true_iff in H as [He Hes].
  destruct e; simpl in He; try discriminate; apply IH; exact Hes.
Qed.

Lemma step_agreed (e : Event) (w : World) : agreed w -> agreed (step e w).
Proof.
  unfold agreed. intros A. destruct e as [code|seq r|l|l|]; unfold step.
  - rewrite compile_begin_eq. cbn [trace svc currentPdfUrl].
    rewrite reported_app, A, reported_app.
    rewrite (reported_calls _ _ (status_calls_callbacks _ _)). reflexivity.
  - destruct (mem seq (waiting w)); [|exact A].
    destruct (Z.eq_dec seq (compileSeq (svc w))) as [->|Hne].
    + destruct r as [p|err].
      * rewrite compile_resume_resolved. cbn [trace svc currentPdfUrl].
        rewrite !reported_app, A.
        replace (reported match currentPdfUrl (svc w) with
                          | Some old => [RevokeObjectURL old]
                          | None => []
                          end (currentPdfUrl (svc w)))
          with (currentPdfUrl (svc w)) by (destruct (currentPdfUrl (svc w)); reflexivity).
        cbn [reported].
        rewrite (reported_calls _ _ (success_calls_callbacks _ _ _)).
        rewrite (reported_calls _ _ (status_calls_callbacks _ _)). reflexivity.
      * rewrite compile_resume_rejected. cbn [trace svc currentPdfUrl].
        rewrite !reported_app, A.
        rewrite (reported_calls _ _ (error_calls_callbacks _ _)).
        rewrite (reported_calls _ _ (status_calls_callbacks _ _)). reflexivity.
    + rewrite (compile_resume_stale w seq r Hne). cbn [trace svc currentPdfUrl].
      rewrite reported_app, A. reflexivity.
  - exact A.
  - destruct (unsubscribe_rest l w) as (_ & Hc & _ & _ & Ht). rewrite Ht, Hc. exact A.
  - rewrite dispose_eq. cbn [trace svc currentPdfUrl].
    rewrite reported_app. cbn [reported].
    destruct (currentPdfUrl (svc w)); reflexivity.
Qed.

Lemma run_agreed (evs : list Event) (w : World) : agreed w -> agreed (run evs w).
Proof.
  revert w. induction evs as [|e evs IH]; intros w A; simpl; [exact A|].
  apply IH, step_agreed, A.
Qed.

(** *** Revoking and creating in order *)

Lemma urls_in_order_app (t es : list Effect) (acc : list Url) :
  urls_in_order (t ++ es) acc = urls_in_order t acc && urls_in_order es (live_after t acc).
Proof.
  revert acc. induction t as [|e t IH]; intros acc; simpl; [reflexivity|].
  destruct e; rewrite ?IH, ?andb_assoc; reflexivity.
Qed.

Lemma urls_in_order_quiet (es : list Effect) (acc : list Url) :
  quiet es -> urls_in_order es acc = true.
Proof.
  unfold quiet. revert acc. induction es as [|e es IH]; intros acc H; simpl in *; [reflexivity|].
  apply andb_true_iff in H as [He Hes].
  destruct e; simpl in He; try discriminate; apply IH; exact Hes.
Qed.

Lemma extend_orderly (w : World) (s : Service) (nu : Url) (wt : list Z) (es : list Effect) :
  orderly_urls w ->
  urls_in_order es (handle_of (currentPdfUrl (svc w))) = true ->
  live_after es (handle_of (currentPdfUrl (svc w))) = handle_of (currentPdfUrl s) ->
  (forall u, currentPdfUrl s = Some u -> u < nu) ->
  orderly_urls (mkWorld s nu wt (trace w ++ es)).
Proof.
  intros (O & L & B) Hes Hl Hb. unfold orderly_urls, live in *. cbn [trace svc nextUrl].
  rewrite urls_in_order_app, live_after_app, O, L, Hes, Hl. auto.
Qed.

Lemma step_orderly_urls (e : Event) (w : World) : orderly_urls w -> orderly_urls (step e w).
Proof.
  intros T. pose proof T as (O & L & B).
  destruct e as [code|seq r|l|l|]; unfold step.
  - rewrite compile_begin_eq. cbn [fst snd svc nextUrl waiting trace].
    assert (Q : quiet (status_calls Compiling (listeners (svc w)) ++ [ClientCompilePdf code])).
    { apply quiet_app; [apply callbacks_quiet, status_calls_callbacks | reflexivity]. }
    apply extend_orderly; cbn [currentPdfUrl]; try assumption.
    + apply urls_in_order_quiet, Q.
    + apply live_after_quiet, Q.
  - destruct (mem seq (waiting w)); [|exact T].
    destruct (Z.eq_dec seq (compileSeq (svc w))) as [->|Hne].
    + destruct r as [p|err].
      * rewrite compile_resume_resolved. cbn [svc nextUrl waiting trace].
        rewrite <- ?app_assoc; cbn [app]; rewrite <- ?app_assoc.
        assert (Q : quiet (success_calls p (nextUrl w) (listeners (svc w))
                           ++ status_calls Done (listeners (svc w))
                           ++ [Returned (compileSeq (svc w))
                                 (mkResult true (Some p) (Some (nextUrl w)) None Done)])).
        { apply quiet_app; [apply callbacks_quiet, success_calls_callbacks|].
          apply quiet_app; [apply callbacks_quiet, status_calls_callbacks | reflexivity]. }
        apply extend_orderly; cbn [currentPdfUrl]; try assumption.
        -- destruct (currentPdfUrl (svc w)) as [old|] eqn:C; cbn.
           ++ rewrite Nat.eqb_refl. cbn. apply urls_in_order_quiet, Q.
           ++ apply urls_in_order_quiet, Q.
        -- destruct (currentPdfUrl (svc w)) as [old|] eqn:C; cbn.
           ++ rewrite Nat.eqb_refl. cbn. apply live_after_quiet, Q.
           ++ apply live_after_quiet, Q.
        -- intros u E. injection E as <-. lia.
      * rewrite compile_resume_rejected. cbn [svc nextUrl waiting trace].
        rewrite <- !app_assoc.
        assert (Q : quiet (error_calls (error_text err) (listeners (svc w))
                           ++ status_calls Error (listeners (svc w))
                           ++ [Returned (compileSeq (svc w))
                                 (mkResult false None None (Some (error_text err)) Error)])).
        { apply quiet_app; [apply callbacks_quiet, error_calls_callbacks|].
          apply quiet_app; [apply callbacks_quiet, status_calls_callbacks | reflexivity]. }
        apply extend_orderly; try assumption.
        -- apply urls_in_order_quiet, Q.
        -- apply live_after_quiet, Q.
    + rewrite (compile_resume_stale w seq r Hne). cbn [svc nextUrl waiting trace].
      apply extend_orderly; try assumption; reflexivity.
  - exact T.
  - unfold unsubscribe. destruct (_ >? _)%Z; exact T.
  - rewrite dispose_eq.
    apply extend_orderly; cbn [currentPdfUrl]; try assumption.
    + destruct (currentPdfUrl (svc w)) as [u|]; cbn; [rewrite Nat.eqb_refl|]; reflexivity.
    + destruct (currentPdfUrl (svc w)) as [u|]; cbn; [rewrite Nat.eqb_refl|]; reflexivity.
    + discriminate.
Qed.

(** X3.  Object URLs are revoked and created in order: along every
    execution each [URL.revokeObjectURL] is given a URL that is live at that
    moment, so none is revoked twice and none that the service did not
    create, and each URL created is new among the live ones. *)
Theorem urls_revoked_once :
  forall (evs : list Event), urls_in_order (trace (run evs init)) [] = true.
Proof.
  intros evs.
  assert (G : forall w, orderly_urls w -> orderly_urls (run evs w)).
  { induction evs as [|e evs IH]; intros w A; simpl; [exact A|].
    apply IH, step_orderly_urls, A. }
  apply (G init). repeat split. discriminate.
Qed.

(** *** After [dispose()] *)

Lemma calls_shape (es : list Effect) :
  forallb is_callback es = true -> forallb returned_shape es = true.
Proof.
  induction es as [|e es IH]; simpl; [reflexivity|].
  intros H. apply andb_true_iff in H as [He Hes]. rewrite (IH Hes).
  destruct e; simpl in *; try discriminate; reflexivity.
Qed.

Lemma step_without_listeners (e : Event) (w : World) :
  listeners (svc w) = [] -> adds_listener e = false ->
  listeners (svc (step e w)) = []
  /\ exists es, trace (step e w) = trace w ++ es /\ existsb is_callback es = false.
Proof.
  intros Hl Ha. destruct e as [code|seq r|l|l|]; unfold step; try discriminate.
  - rewrite compile_begin_eq. cbn [svc listeners trace]. rewrite Hl.
    split; [reflexivity|]. eexists. split; reflexivity.
  - destruct (mem seq (waiting w)).
    2:{ split; [exact Hl|]. exists []. rewrite app_nil_r. split; reflexivity. }
    destruct (Z.eq_dec seq (compileSeq (svc w))) as [->|Hne].
    + destruct r as [p|err].
      * rewrite compile_resume_resolved. cbn [svc listeners trace]. rewrite Hl.
        split; [reflexivity|]. eexists. split; [rewrite <- app_assoc; reflexivity|].
        destruct (currentPdfUrl (svc w)); reflexivity.
      * rewrite compile_resume_rejected. cbn [svc listeners trace]. rewrite Hl.
        split; [reflexivity|]. eexists. split; [rewrite <- app_assoc; reflexivity|].
        reflexivity.
    + rewrite (compile_resume_stale w seq r Hne). cbn [svc listeners trace].
      split; [exact Hl|]. eexists. split; reflexivity.
  - split.
    + rewrite unsubscribe_listeners, Hl. reflexivity.
    + exists []. rewrite app_nil_r. split; [apply (unsubscribe_rest l w) | reflexivity].
  - rewrite dispose_eq. cbn [svc listeners trace].
    split; [reflexivity|]. eexists. split; [reflexivity|].
    destruct (currentPdfUrl (svc w)); reflexivity.
Qed.

Lemma run_without_listeners (evs : list Event) (w : World) :
  listeners (svc w) = [] ->
  forallb (fun e => negb (adds_listener e)) evs = true ->
  listeners (svc (run evs w)) = []
  /\ exists es, trace (run evs w) = trace w ++ es /\ existsb is_callback es = false.
Proof.
  revert w. induction evs as [|e evs IH]; intros w Hl Hevs; simpl.
  - split; [exact Hl|]. exists []. rewrite app_nil_r. split; reflexivity.
  - simpl in Hevs. apply andb_true_iff in Hevs as [He Hevs]. apply negb_true_iff in He.
    destruct (step_without_listeners e w Hl He) as (Hl1 & es1 & E1 & C1).
    destruct (IH (step e w) Hl1 Hevs) as (Hl2 & es2 & E2 & C2).
    split; [exact Hl2|]. exists (es1 ++ es2). split.
    + rewrite E2, E1, app_assoc. reflexivity.
    + rewrite existsb_app, C1, C2. reflexivity.
Qed.



(** *** The results [compile] returns *)

Lemma step_returned_shape (e : Event) (w : World) :
  exists es, trace (step e w) = trace w ++ es /\ forallb returned_shape es = true.
Proof.
  destruct e as [code|seq r|l|l|]; unfold step.
  - rewrite compile_begin_eq. eexists. split; [reflexivity|].
    rewrite forallb_app, (calls_shape _ (status_calls_callbacks _ _)). reflexivity.
  - destruct (mem seq (waiting w)).
    2:{ exists []. rewrite app_nil_r. split; reflexivity. }
    destruct (Z.eq_dec seq (compileSeq (svc w))) as [->|Hne].
    + destruct r as [p|err].
      * rewrite compile_resume_resolved. cbn [trace].
        eexists. split; [rewrite <- app_assoc; reflexivity|].
        rewrite !forallb_app, (calls_shape _ (success_calls_callbacks _ _ _)),
          (calls_shape _ (status_calls_callbacks _ _)).
        destruct (currentPdfUrl (svc w)); reflexivity.
      * rewrite compile_resume_rejected. cbn [trace].
        eexists. split; [rewrite <- app_assoc; reflexivity|].
        rewrite !forallb_app, (calls_shape _ (error_calls_callbacks _ _)),
          (calls_shape _ (status_calls_callbacks _ _)). reflexivity.
    + rewrite (compile_resume_stale w seq r Hne). cbn [trace].
      eexists. split; reflexivity.
  - exists []. rewrite app_nil_r. split; reflexivity.
  - exists []. rewrite app_nil_r. split; [apply (unsubscribe_rest l w) | reflexivity].
  - rewrite dispose_eq. eexists. split; [reflexivity|].
    destruct (currentPdfUrl (svc w)); reflexivity.
Qed.

(** X5.  Every result [compile] returns, in any execution, has one of
    three shapes: [{success: false, status: 'idle'}] with nothing else;
    [{success: true, status: 'done'}] with the document and its URL and no
    error; [{success: false, status: 'error'}] with the message and no
    document.  ['compiling'] is never returned. *)
Theorem results_have_shape :
  forall (evs : list Event), forallb returned_shape (trace (run evs init)) = true.
Proof.
  intros evs.
  assert (G : forall w, forallb returned_shape (trace w) = true ->
                        forallb returned_shape (trace (run evs w)) = true).
  { induction evs as [|e evs IH]; intros w A; simpl; [exact A|].
    apply IH. destruct (step_returned_shape e w) as (es & E & S).
    rewrite E, forallb_app, A, S. reflexivity. }
  apply G. reflexivity.
Qed.

(** *** A compile in flight at [dispose()] *)

Lemma added_extend (w : World) (s : Service) (nu : Url) (wt : list Z) (es : list Effect) :
  added w (mkWorld s nu wt (trace w ++ es)) = es.
Proof. unfold added. cbn [trace]. apply skipn_own_length. Qed.

(** X23.  [dispose()] does not stop a compile in flight.  When the reply to
    the latest call of [compile] arrives after [dispose()] and carries a
    document, the service still makes an object URL for it and installs it
    as [currentPdfUrl]: no listener hears of it (only the caller's result
    names it), and in an execution from the initial service it is then the
    one live URL, held by a disposed service. *)
Theorem reply_after_dispose_installs_url :
  forall (evs : list Event) (p : Bytes),
    let w := run evs init in
    mem (compileSeq (svc w)) (waiting w) = true ->
    let d := dispose w in
    let w' := step (EvReply (compileSeq (svc w)) (Resolved p)) d in
    added d w'
    = [CreateObjectURL p (nextUrl w);
       Returned (compileSeq (svc w))
                (mkResult true (Some p) (Some (nextUrl w)) None Done)]
    /\ getCurrentPdfUrl w' = Some (nextUrl w)
    /\ live (trace w') = [nextUrl w].
Proof.
  intros evs p w Hm d w'.
  assert (Hd : compileSeq (svc d) = compileSeq (svc w)) by (subst d; rewrite dispose_eq; reflexivity).
  assert (Hw : waiting d = waiting w) by (subst d; rewrite dispose_eq; reflexivity).
  assert (Hc : currentPdfUrl (svc d) = None) by (subst d; rewrite dispose_eq; reflexivity).
  assert (Hl : listeners (svc d) = []) by (subst d; rewrite dispose_eq; reflexivity).
  assert (Hn : nextUrl d = nextUrl w) by (subst d; rewrite dispose_eq; reflexivity).
  assert (E : w' = mkWorld (mkService (compileSeq (svc w)) (Some (nextUrl w)) [])
                           (S (nextUrl w))
                           (remove_first (compileSeq (svc w)) (waiting w))
                           (trace d ++ [CreateObjectURL p (nextUrl w);
                                        Returned (compileSeq (svc w))
                                          (mkResult true (Some p) (Some (nextUrl w)) None Done)])).
  { subst w'. unfold step. rewrite Hw, Hm, <- Hd, compile_resume_resolved.
    rewrite Hc, Hl, Hn, Hd. cbn [svc nextUrl waiting trace success_calls status_calls app].
    rewrite Hw, <- app_assoc. reflexivity. }
  assert (T : tidy d).
  { subst d. apply (step_tidy EvDispose). apply run_tidy, init_tidy. }
  destruct T as [Tl _].
  rewrite E. split; [apply added_extend|]. split; [reflexivity|].
  cbn [trace]. unfold live in *. rewrite live_after_app, Tl, Hc. reflexivity.
Qed.

Lemma reply_after_dispose_installs_url_witness :
  let doc : Bytes := [Byte.x25; Byte.x50; Byte.x44; Byte.x46] in
  let w := run [EvAddListener (mkListener 3 true true true); EvCompile [97]%N] init in
  let d := dispose w in
  let w' := step (EvReply (compileSeq (svc w)) (Resolved doc)) d in
  mem (compileSeq (svc w)) (waiting w) = true
  /\ added d w'
     = [CreateObjectURL doc (nextUrl w);
        Returned (compileSeq (svc w))
                 (mkResult true (Some doc) (Some (nextUrl w)) None Done)]
  /\ getCurrentPdfUrl w' = Some (nextUrl w)
  /\ live (trace w') = [nextUrl w].
Proof.
  cbv zeta. split; [reflexivity|].
  apply (reply_after_dispose_installs_url
           [EvAddListener (mkListener 3 true true true); EvCompile [97]%N]
           [Byte.x25; Byte.x50; Byte.x44; Byte.x46]).
  reflexivity.
Defined.

End CoordinatorMore.

(* ===================================================================== *)
(** * Properties of the editor component *)
(* ===================================================================== *)

Section EditorViewFacts.

Import Coordinator EditorNotions.

Variable oid : nat.

Lemma view_app (l : CompileListener) (t es : list Effect) :
  Editor.view l (t ++ es) = fold_left (Editor.react l) es (Editor.view l t).
Proof. unfold Editor.view. apply fold_left_app. Qed.

Lemma remove_first_same (x : Z) (ws : list Z) : NoDup ws -> ~ In x (remove_first x ws).
Proof.
  induction 1 as [|y t Hy Ht IH]; simpl; [tauto|].
  destruct (y =? x)%Z eqn:E.
  - apply Z.eqb_eq in E. subst. exact Hy.
  - apply Z.eqb_neq in E. intros [H|H]; [congruence | exact (IH H)].
Qed.

Lemma remove_first_other (x y : Z) (ws : list Z) :
  x <> y -> (In x (remove_first y ws) <-> In x ws).
Proof.
  intros Hne. induction ws as [|z t IH]; simpl; [tauto|].
  destruct (z =? y)%Z eqn:E.
  - apply Z.eqb_eq in E. subst. split; [tauto|]. intros [H|H]; [congruence | exact H].
  - simpl. rewrite IH. tauto.
Qed.

Lemma step_showing (e : Event) (w : World) :
  Editor.mounted e = true -> showing oid w -> showing oid (step e w).
Proof.
  intros M (Hl & N & T & P & X & S).
  pose proof (step_numbered e w N) as N'.
  pose proof (step_tidy e w T) as T'.
  unfold showing. split; [|split; [exact N'|split; [exact T'|]]].
  { destruct e as [code|seq r| | |]; try discriminate; unfold step.
    - rewrite compile_begin_eq. exact Hl.
    - destruct (mem seq (waiting w)); [|exact Hl].
      destruct (Z.eq_dec seq (compileSeq (svc w))) as [->|Hne].
      + destruct r; [rewrite compile_resume_resolved | rewrite compile_resume_rejected];
          exact Hl.
      + rewrite (compile_resume_stale w seq r Hne). exact Hl. }
  clear N' T'.
  destruct e as [code|seq r| | |]; try discriminate; unfold step.
  - rewrite compile_begin_eq. cbn [svc trace waiting compileSeq currentPdfUrl].
    rewrite Hl, view_app. cbn [status_calls flat_map onStatusChange Editor.listener app fold_left Editor.react].
    rewrite listener_eqb_refl. cbn [Editor.pdfUrl Editor.errorMsg Editor.status].
    split; [exact P|]. split; [exact X|].
    intros _. split; [intros _; apply in_or_app; right; left; reflexivity | reflexivity].
  - destruct (mem seq (waiting w)) eqn:Hm; [|split; [exact P|split; [exact X | exact S]]].
    destruct (Z.eq_dec seq (compileSeq (svc w))) as [->|Hne].
    + assert (Gone : (compileSeq (svc w) < 2 ^ 53)%Z ->
                     ~ In (compileSeq (svc w)) (remove_first (compileSeq (svc w)) (waiting w))).
      { intros B. apply remove_first_same. destruct N as (_ & _ & ND). exact (ND B). }
      destruct r as [p|err].
      * rewrite compile_resume_resolved. cbn [svc trace waiting compileSeq currentPdfUrl].
        rewrite Hl, !view_app, ?fold_left_app.
        replace (fold_left (Editor.react (Editor.listener oid))
                   match currentPdfUrl (svc w) with
                   | Some old => [RevokeObjectURL old]
                   | None => []
                   end (Editor.view (Editor.listener oid) (trace w)))
          with (Editor.view (Editor.listener oid) (trace w))
          by (destruct (currentPdfUrl (svc w)); reflexivity).
        cbn [success_calls status_calls flat_map onSuccess onStatusChange Editor.listener
             app fold_left Editor.react].
        rewrite listener_eqb_refl. cbn [Editor.pdfUrl Editor.errorMsg Editor.status].
        split; [right; reflexivity|]. split; [right; reflexivity|].
        intros B. split; [discriminate | intros H; exfalso; exact (Gone B H)].
      * rewrite compile_resume_rejected. cbn [svc trace waiting compileSeq currentPdfUrl].
        rewrite Hl, !view_app, ?fold_left_app.
        cbn [error_calls status_calls flat_map onError onStatusChange Editor.listener
             app fold_left Editor.react].
        rewrite listener_eqb_refl. cbn [Editor.pdfUrl Editor.errorMsg Editor.status].
        split; [left; reflexivity|]. split; [left; reflexivity|].
        intros B. split; [discriminate | intros H; exfalso; exact (Gone B H)].
    + rewrite (compile_resume_stale w seq r Hne). cbn [svc trace waiting compileSeq currentPdfUrl].
      rewrite view_app. cbn [fold_left Editor.react].
      split; [exact P|]. split; [exact X|].
      intros B. rewrite (S B). symmetry. apply remove_first_other.
      intros E. apply Hne. symmetry. exact E.
Qed.

Lemma run_showing (evs : list Event) (w : World) :
  forallb Editor.mounted evs = true -> showing oid w -> showing oid (run evs w).
Proof.
  revert w. induction evs as [|e evs IH]; intros w M H; simpl; [exact H|].
  simpl in M. apply andb_true_iff in M as [Me M].
  apply IH; [exact M | apply step_showing; assumption].
Qed.

Lemma fresh_showing : showing oid (addListener (Editor.listener oid) init).
Proof.
  unfold showing. cbn.
  split; [reflexivity|]. split; [exact init_numbered|]. split; [exact init_tidy|].
  split; [left; reflexivity|]. split; [left; reflexivity|].
  intros _. split; [discriminate | tauto].
Qed.

(** *** Writes that do not come from the service *)

Lemma writes_agree (l : CompileListener) (h : list Editor.Write) (v v' : Editor.View) :
  Editor.status v = Editor.status v' -> Editor.pdfUrl v = Editor.pdfUrl v' ->
  Editor.status (fold_left (Editor.write l) h v)
  = Editor.status (fold_left (Editor.react l) (Editor.service_part h) v')
  /\ Editor.pdfUrl (fold_left (Editor.write l) h v)
     = Editor.pdfUrl (fold_left (Editor.react l) (Editor.service_part h) v').
Proof.
  revert v v'. induction h as [|x h IH]; intros v v' Hs Hp; [split; assumption|].
  destruct x as [e|message]; cbn [fold_left Editor.service_part Editor.write].
  - apply IH; destruct e; cbn [Editor.react]; try assumption;
      destruct (listener_eqb _ l); cbn [Editor.status Editor.pdfUrl]; congruence.
  - apply IH; assumption.
Qed.

Lemma writes_of_service (l : CompileListener) (h : list Editor.Write) (v : Editor.View) :
  Editor.example_failures h = [] ->
  fold_left (Editor.write l) h v = fold_left (Editor.react l) (Editor.service_part h) v.
Proof.
  revert v. induction h as [|x h IH]; intros v H; [reflexivity|].
  destruct x as [e|message]; [|discriminate].
  cbn [fold_left Editor.service_part Editor.write]. apply IH, H.
Qed.

(** X6.  What the preview shows when React renders.  React renders the
    component between the steps of the service, never inside one.  At the
    end of every step, while the component is mounted and the only user of
    the service, and whenever examples failed to load in between: a [pdfUrl]
    that is set is the service's current URL, which is the one live object
    URL; and as long as no example has failed to load (so always in the
    variant of the component without the example menu) [pdfUrl] and
    [errorMsg] are not both set. *)
Theorem preview_is_current_artifact :
  forall (evs : list Event) (h : list Editor.Write),
    forallb Editor.mounted evs = true ->
    let w := run (EvAddListener (Editor.listener oid) :: evs) init in
    Editor.service_part h = trace w ->
    let v := Editor.screen (Editor.listener oid) h in
    (forall u, Editor.pdfUrl v = Some u ->
       getCurrentPdfUrl w = Some u /\ live (trace w) = [u])
    /\ (Editor.example_failures h = [] ->
        Editor.pdfUrl v = None \/ Editor.errorMsg v = None).
Proof.
  intros evs h M w Hh v. subst v w.
  destruct (run_showing evs _ M fresh_showing) as (_ & _ & (Tl & _) & P & X & _).
  change (run evs (addListener (Editor.listener oid) init))
    with (run (EvAddListener (Editor.listener oid) :: evs) init) in *.
  destruct (writes_agree (Editor.listener oid) h Editor.blank Editor.blank eq_refl eq_refl)
    as [_ Ep].
  unfold Editor.screen. rewrite Hh in Ep. fold (Editor.view (Editor.listener oid)
    (trace (run (EvAddListener (Editor.listener oid) :: evs) init))) in Ep.
  split.
  - intros u Hu. rewrite Ep in Hu. destruct P as [P|P]; [congruence|].
    unfold getCurrentPdfUrl. rewrite <- P, Hu. split; [reflexivity|].
    rewrite Tl, <- P, Hu. reflexivity.
  - intros Hf. rewrite (writes_of_service _ h _ Hf), Hh. exact X.
Qed.

(** X2.  [getCurrentPdfUrl()] agrees with what the editor's calls were
    told.  While the component is mounted and its listener is the only one
    (its callbacks are React state setters, which neither throw nor call the
    service), [getCurrentPdfUrl()] is at the end of every step the [pdfUrl]
    of the last result returned with [success: true], and null when there
    was none; results that are stale or failed do not change it. *)
Theorem current_url_is_last_reported :
  forall (evs : list Event),
    forallb Editor.mounted evs = true ->
    let w := run (EvAddListener (Editor.listener oid) :: evs) init in
    getCurrentPdfUrl w = CoordinatorNotions.reported (trace w) None.
Proof.
  intros evs _ w. unfold getCurrentPdfUrl. symmetry.
  change (CoordinatorNotions.agreed w). apply run_agreed. reflexivity.
Qed.

(** X7.  What the status shows.  While the component is mounted and the
    only user of the service (and fewer than 2^53 compiles were made), the
    status it shows is ['compiling'] exactly when the latest call of
    [compile] has not returned: replies to superseded calls do not end it,
    and the reply to the latest call does. *)
Theorem compiling_while_latest_outstanding :
  forall (evs : list Event),
    forallb Editor.mounted evs = true ->
    let w := run (EvAddListener (Editor.listener oid) :: evs) init in
    let v := Editor.view (Editor.listener oid) (trace w) in
    (compileSeq (svc w) < 2 ^ 53)%Z ->
    (Editor.status v = Compiling <-> In (compileSeq (svc w)) (waiting w)).
Proof.
  intros evs M w v B.
  destruct (run_showing evs _ M fresh_showing) as (_ & _ & _ & _ & _ & S).
  exact (S B).
Qed.

End EditorViewFacts.

Section EditorViewExamples.

Import Coordinator.

(** Two compiles; the second reply brings a document; then an example
    fails to load. *)
Lemma preview_is_current_artifact_witness :
  let doc : Bytes := [Byte.x25; Byte.x50; Byte.x44; Byte.x46] in
  let evs := [EvCompile [97]%N; EvCompile [97; 98]%N;
              EvReply 1 (Resolved doc); EvReply 2 (Resolved doc)] in
  let w := run (EvAddListener (Editor.listener 0) :: evs) init in
  let h := map Editor.ByService (trace w) ++ [Editor.ExampleFailed "Not Found"] in
  let v := Editor.screen (Editor.listener 0) h in
  (forallb Editor.mounted evs = true /\ Editor.service_part h = trace w)
  /\ Editor.pdfUrl v = Some 0
  /\ Editor.errorMsg v = Some "Not Found"
  /\ getCurrentPdfUrl w = Some 0
  /\ live (trace w) = [0].
Proof.
  cbv zeta. split; [split; reflexivity|]. split; [reflexivity|]. split; [reflexivity|].
  apply (proj1 (preview_is_current_artifact 0
                  [EvCompile [97]%N; EvCompile [97; 98]%N;
                   EvReply 1 (Resolved [Byte.x25; Byte.x50; Byte.x44; Byte.x46]);
                   EvReply 2 (Resolved [Byte.x25; Byte.x50; Byte.x44; Byte.x46])]
                  (map Editor.ByService
                     (trace (run (EvAddListener (Editor.listener 0)
                        :: [EvCompile [97]%N; EvCompile [97; 98]%N;
                            EvReply 1 (Resolved [Byte.x25; Byte.x50; Byte.x44; Byte.x46]);
                            EvReply 2 (Resolved [Byte.x25; Byte.x50; Byte.x44; Byte.x46])])
                        init))
                   ++ [Editor.ExampleFailed "Not Found"])
                  eq_refl eq_refl)).
  reflexivity.
Defined.

(** The first call is superseded and its reply is dropped; the second
    succeeds; the third fails and leaves the URL of the second. *)
Lemma current_url_is_last_reported_witness :
  let doc : Bytes := [Byte.x25; Byte.x50; Byte.x44; Byte.x46] in
  let evs := [EvCompile [97]%N; EvCompile [97; 98]%N;
              EvReply 1 (Resolved doc); EvReply 2 (Resolved doc);
              EvCompile [97; 98; 99]%N; EvReply 3 (Rejected (ErrorObject "syntax"))] in
  let w := run (EvAddListener (Editor.listener 0) :: evs) init in
  forallb Editor.mounted evs = true
  /\ getCurrentPdfUrl w = CoordinatorNotions.reported (trace w) None
  /\ getCurrentPdfUrl w = Some 0.
Proof.
  cbv zeta. split; [reflexivity|]. split; [|reflexivity].
  exact (current_url_is_last_reported 0
           [EvCompile [97]%N; EvCompile [97; 98]%N;
            EvReply 1 (Resolved [Byte.x25; Byte.x50; Byte.x44; Byte.x46]);
            EvReply 2 (Resolved [Byte.x25; Byte.x50; Byte.x44; Byte.x46]);
            EvCompile [97; 98; 99]%N; EvReply 3 (Rejected (ErrorObject "syntax"))]
           eq_refl).
Defined.

Lemma compiling_while_latest_outstanding_witness :
  let doc : Bytes := [Byte.x25; Byte.x50; Byte.x44; Byte.x46] in
  let evs := [EvCompile [97]%N; EvCompile [97; 98]%N; EvReply 1 (Resolved doc)] in
  let w := run (EvAddListener (Editor.listener 0) :: evs) init in
  let v := Editor.view (Editor.listener 0) (trace w) in
  (forallb Editor.mounted evs = true /\ (compileSeq (svc w) < 2 ^ 53)%Z)
  /\ (Editor.status v = Compiling <-> In (compileSeq (svc w)) (waiting w))
  /\ Editor.status v = Compiling.
Proof.
  cbv zeta.
  assert (B : (compileSeq (svc (run (EvAddListener (Editor.listener 0)
                 :: [EvCompile [97]%N; EvCompile [97; 98]%N;
                     EvReply 1 (Resolved [Byte.x25; Byte.x50; Byte.x44; Byte.x46])]) init))
               < 2 ^ 53)%Z) by reflexivity.
  split; [split; [reflexivity | exact B]|].
  split; [|reflexivity].
  exact (compiling_while_latest_outstanding 0
           [EvCompile [97]%N; EvCompile [97; 98]%N;
            EvReply 1 (Resolved [Byte.x25; Byte.x50; Byte.x44; Byte.x46])]
           eq_refl B).
Defined.

End EditorViewExamples.

(* ===================================================================== *)
(** * Further properties of the render worker *)
(* ===================================================================== *)

Section WorkerMore.

Import Worker WorkerNotions.

Variable R : Renderer.

Lemma fonts_eqb_eq (a b : list string) : fonts_eqb a b = true -> a = b.
Proof.
  revert b. induction a as [|x a IH]; intros [|y b] H; simpl in H; try discriminate.
  - reflexivity.
  - apply andb_true_iff in H as [Hx Hab]. apply String.eqb_eq in Hx.
    rewrite Hx, (IH b Hab). reflexivity.
Qed.

Lemma no_construction_no_base (es : list Effect) :
  filter is_construction es = [] -> filter is_base_construction es = [].
Proof.
  induction es as [|e es IH]; simpl; [reflexivity|].
  destruct e; simpl; try exact IH. discriminate.
Qed.

Lemma no_construction_known (es : list Effect) :
  filter is_construction es = [] -> Forall known_fonts es.
Proof.
  induction es as [|e es IH]; simpl; [constructor|].
  destruct e; simpl; intros H; try discriminate; constructor; simpl; auto.
Qed.

(** *** Texts without emoji *)

Lemma handle_plainly (m : CompileRequest) (s : State) :
  needsEmojiFont (mainTypst m) = false -> plainly_set_up s -> plainly_set_up (handle R m s).
Proof.
  intros Hn (L & P & C).
  destruct (handle_cases R m s) as [(Hn' & _)|(_ & [(p & es & _ & E & N)|(es & P' & _)])].
  - congruence.
  - rewrite E. unfold plainly_set_up, extend; cbn [emojiLoaded compilerPromise trace].
    rewrite filter_app, N, app_nil_r. auto.
  - congruence.
Qed.

Lemma handle_all_plainly (ms : list CompileRequest) (s : State) :
  Forall (fun m => needsEmojiFont (mainTypst m) = false) ms ->
  plainly_set_up s -> plainly_set_up (handle_all R ms s).
Proof.
  revert s. induction ms as [|m ms IH]; intros s F H; simpl; [exact H|].
  inversion F; subst. apply IH; [assumption | apply handle_plainly; assumption].
Qed.

(** X8.  Texts without emoji cost one compiler.  If none of the messages
    handled so far has a character that [needsEmojiFont] looks for, then the
    worker has constructed exactly one compiler, with the core fonts (none
    before the first message), [emojiLoaded] is still false and the emoji
    font was never asked for. *)
Theorem plain_texts_construct_one_compiler :
  forall (ms : list CompileRequest),
    Forall (fun m => needsEmojiFont (mainTypst m) = false) ms ->
    let s := handle_all R ms init in
    emojiLoaded s = false
    /\ filter is_construction (trace s)
       = match ms with
         | [] => []
         | _ :: _ => [CreateCompiler (mkCompiler 0 CORE_FONTS)]
         end
    /\ renderer_state s = match ms with [] => Uninitialized | _ :: _ => Base end.
Proof.
  intros ms F s. subst s. destruct ms as [|m ms]; [repeat split|].
  inversion F as [|x l Hn F']; subst. simpl.
  assert (H1 : plainly_set_up (handle R m init)).
  { destruct (handle_cases R m init) as [(Hn' & _)|(_ & [(p & es & P & _)|(es & _ & E & N)])].
    - congruence.
    - discriminate.
    - rewrite E. unfold plainly_set_up, extend; cbn.
      rewrite N. auto. }
  destruct (handle_all_plainly ms _ F' H1) as (L & P & C).
  split; [exact L|]. split; [exact C|].
  unfold renderer_state. rewrite P. reflexivity.
Qed.

(** *** How many compilers *)

Lemma handle_frugal (m : CompileRequest) (s : State) : frugal s -> frugal (handle R m s).
Proof.
  intros (B & Z & T & K).
  destruct (handle_cases R m s)
    as [(Hn & Hl & [(e & F & E)|(r & F & E)])|(C & [(p & es & P & E & N)|(es & P & E & N)])];
    rewrite E; unfold frugal, extend; cbn [trace compilerPromise].
  - rewrite !filter_app, !length_app. cbn. rewrite !Nat.add_0_r.
    split; [exact B|]. split; [intros H; rewrite (Z H); reflexivity|].
    split; [lia|].
    apply Forall_app. split; [exact K|].
    constructor; [exact I|]. constructor; [right; reflexivity|]. repeat constructor.
  - assert (KF : Forall known_fonts
                   ([LOG_UPGRADING; CreateCompiler (upgraded_compiler s); LOG_UPGRADED]
                    ++ typeset_effects (upgraded_compiler s) (mainTypst m) (images m)
                    ++ [PostMessage r])).
    { apply Forall_app. split.
      - constructor; [exact I|]. constructor; [right; reflexivity|]. repeat constructor.
      - apply no_construction_known.
        rewrite filter_app, typeset_effects_filter by reflexivity. reflexivity. }
    split; [|split; [discriminate|split; [|apply Forall_app; split; [exact K | exact KF]]]];
      rewrite !filter_app, !length_app;
      rewrite ?(typeset_effects_filter is_construction) by reflexivity;
      rewrite ?(typeset_effects_filter is_base_construction) by reflexivity;
      rewrite ?(typeset_effects_filter is_upgrade_construction) by reflexivity;
      cbn; lia.
  - rewrite !filter_app, !length_app, N, (no_construction_no_base es N),
      (no_construction_no_upgrade es N). cbn. rewrite !Nat.add_0_r, !app_nil_r.
    split; [exact B|]. split; [exact Z|]. split; [exact T|].
    apply Forall_app. split; [exact K | apply no_construction_known, N].
  - rewrite !filter_app, !length_app. cbn [filter is_construction is_base_construction
      is_upgrade_construction base_compiler fonts].
    replace (fonts_eqb CORE_FONTS CORE_FONTS) with true by reflexivity.
    replace (fonts_eqb CORE_FONTS (CORE_FONTS ++ EMOJI_FONTS)) with false by reflexivity.
    rewrite N, (no_construction_no_base es N), (no_construction_no_upgrade es N).
    rewrite (Z P) in *. cbn. cbn in T.
    split; [lia|]. split; [discriminate|]. split; [lia|].
    apply Forall_app. split; [exact K|].
    constructor; [left; reflexivity | apply no_construction_known, N].
Qed.

Lemma handle_all_frugal (ms : list CompileRequest) (s : State) :
  frugal s -> frugal (handle_all R ms s).
Proof.
  revert s. induction ms as [|m ms IH]; intros s H; simpl; [exact H|].
  apply IH, handle_frugal, H.
Qed.

(** X9.  A worker constructs at most two compilers in its life: at most
    one with the core fonts and at most one with the core and the emoji
    fonts, and none with any other font set, whatever the messages are and
    however the renderer fails. *)
Theorem at_most_two_compilers :
  forall (ms : list CompileRequest),
    let t := trace (handle_all R ms init) in
    List.length (filter is_construction t) <= 2
    /\ List.length (filter is_base_construction t) <= 1
    /\ List.length (filter is_upgrade_construction t) <= 1
    /\ Forall known_fonts t.
Proof.
  intros ms t. subst t.
  assert (F0 : frugal init).
  { unfold frugal. cbn. repeat split; auto. }
  destruct (handle_all_frugal ms init F0) as (B & _ & T & K).
  destruct (handle_all_sound R ms init init_sound) as (_ & U & _).
  unfold upgrade_count in U.
  split; [lia|]. split; [exact B|]. split; [exact U | exact K].
Qed.

(** *** A compiler that failed to initialise *)

Lemma handle_broken (m : CompileRequest) (s : State) (c : TypstCompiler) (e : JsThrown) :
  compilerPromise s = Some (InitPromise c) ->
  init_failure R c = Some e ->
  needsEmojiFont (mainTypst m) && negb (emojiLoaded s) = false ->
  handle R m s = extend s [failure e m].
Proof.
  intros P F C. rewrite handle_eq, (acquire_settled R _ _ C), P.
  unfold awaited, initialised. rewrite F. reflexivity.
Qed.

(** X10.  A failed first initialisation is kept.  Once [compilerPromise]
    holds the promise of a compiler whose initialisation failed, every
    message that does not start an upgrade is answered with that same
    failure: nothing is constructed again, nothing is rendered, and the
    worker's variables stay as they are; only the replies are added. *)
Theorem failed_initialisation_is_kept :
  forall (ms : list CompileRequest) (s : State) (c : TypstCompiler) (e : JsThrown),
    compilerPromise s = Some (InitPromise c) ->
    init_failure R c = Some e ->
    Forall (fun m => needsEmojiFont (mainTypst m) && negb (emojiLoaded s) = false) ms ->
    handle_all R ms s = extend s (map (failure e) ms).
Proof.
  induction ms as [|m ms IH]; intros s c e P F A; simpl.
  - rewrite extend_nil. reflexivity.
  - inversion A as [|x l C A']; subst.
    rewrite (handle_broken m s c e P F C).
    rewrite (IH (extend s [failure e m]) c e P F A').
    apply extend_extend.
Qed.

(** X11.  An upgrade that succeeds replaces whatever compiler there was.
    When a text with emoji comes in before [emojiLoaded] is set and the
    compiler with the extended fonts initialises, that compiler is stored
    as a resolved promise and renders this very message, also when the
    promise stored before was one that had failed. *)
Theorem successful_upgrade_replaces_compiler :
  forall (m : CompileRequest) (s : State),
    emojiLoaded s = false ->
    needsEmojiFont (mainTypst m) = true ->
    init_failure R (mkCompiler (constructed s) (CORE_FONTS ++ EMOJI_FONTS)) = None ->
    let c := mkCompiler (constructed s) (CORE_FONTS ++ EMOJI_FONTS) in
    let s1 := handle R m s in
    compilerPromise s1 = Some (ResolvedPromise c)
    /\ emojiLoaded s1 = true
    /\ renderer_state s1 = Upgraded
    /\ rendered_with (appended s s1) = [c]
    /\ filter is_construction (appended s s1) = [CreateCompiler c].
Proof.
  intros m s L N F c s1. subst c s1.
  rewrite handle_eq, (acquire_upgrading R _ _ N L).
  unfold upgraded_compiler. rewrite F.
  unfold extend, appended; cbn [compilerPromise emojiLoaded trace].
  rewrite <- app_assoc, skipn_own_length.
  split; [reflexivity|]. split; [reflexivity|]. split; [reflexivity|].
  cbn [app rendered_with filter is_construction LOG_UPGRADING LOG_UPGRADED].
  rewrite rendered_with_app, typeset_effects_rendered.
  rewrite filter_app, typeset_effects_filter by reflexivity.
  split; reflexivity.
Qed.

(** *** The reply, from what the renderer returns *)




(** X14.  What a unit registers before it renders.  A unit renders at
    most once.  When it renders, with the compiler [c], the effects just
    before the render are the registration of the message's text as
    [/main.typ] and of each image, in the order of the entries, under [/]
    followed by its name, all on [c]; nothing is posted before the render. *)
Theorem unit_registers_then_renders :
  forall (m : CompileRequest) (s : State),
    let es := appended s (handle R m s) in
    rendered_with es = []
    \/ exists c pre r,
         rendered_with es = [c]
         /\ es = pre
                 ++ AddSource c "/main.typ" (mainTypst m)
                 :: map (fun e => MapShadow c ("/" ++ fst e) (snd e))
                        (match images m with Some entries => entries | None => [] end)
                 ++ [Compile c "/main.typ"; PostMessage r]
         /\ rendered_with pre = []
         /\ posted pre = [].
Proof.
  intros m s es. subst es. rewrite handle_eq.
  destruct (acquire_trace R (mainTypst m) s) as (pre & Tp & Rp & Pp & _).
  destruct (acquire R (mainTypst m) s) as [[c|e] s1]; cbn [snd] in Tp;
    unfold appended, extend; cbn [trace]; rewrite Tp, <- !app_assoc, skipn_own_length.
  - right. exists c, pre. eexists.
    split.
    + rewrite !rendered_with_app, Rp, typeset_effects_rendered. reflexivity.
    + split; [|split; assumption].
      unfold typeset_effects, shadow, entries_of. cbn [app]. rewrite <- app_assoc. reflexivity.
  - left. rewrite rendered_with_app, Rp. reflexivity.
Qed.

(** *** [needsEmojiFont] *)

Lemma needsEmojiFont_app (a b : SourceText) :
  needsEmojiFont (a ++ b) = needsEmojiFont a || needsEmojiFont b.
Proof. unfold needsEmojiFont. apply existsb_app. Qed.

(** X15.  Which texts load the emoji font.  A text with a character
    above the basic plane, emoji or not, always does, because a JavaScript
    string holds it as two surrogates; a text all of whose code units are
    below U+2600 never does. *)
Theorem astral_characters_need_emoji_font :
  (forall (before after : SourceText) (cp : N),
     (0x10000 <= cp <= 0x10FFFF)%N ->
     needsEmojiFont (before ++ utf16 cp ++ after) = true)
  /\ (forall (text : SourceText),
        Forall (fun unit => (unit < 0x2600)%N) text ->
        needsEmojiFont text = false).
Proof.
  split.
  - intros before after cp [Hlo Hhi].
    rewrite !needsEmojiFont_app.
    assert (E : needsEmojiFont (utf16 cp) = true).
    { unfold utf16. destruct (cp <? 0x10000)%N eqn:C; [apply N.ltb_lt in C; lia|].
      unfold needsEmojiFont. cbn [existsb].
      assert (Hq : ((cp - 0x10000) / 0x400 < 0x400)%N).
      { apply N.Div0.div_lt_upper_bound. lia. }
      assert (H1 : emoji_unit (0xD800 + (cp - 0x10000) / 0x400) = true).
      { generalize dependent ((cp - 0x10000) / 0x400)%N. intros q Hq.
        unfold emoji_unit.
        assert (A : (0xD800 <=? 0xD800 + q)%N = true) by (apply N.leb_le; lia).
        assert (B : (0xD800 + q <=? 0xDFFF)%N = true) by (apply N.leb_le; lia).
        rewrite A, B. reflexivity. }
      rewrite H1. reflexivity. }
    rewrite E. rewrite orb_true_r. reflexivity.
  - intros text F. unfold needsEmojiFont.
    induction F as [|u t Hu F IH]; [reflexivity|].
    cbn [existsb]. rewrite IH, orb_false_r.
    unfold emoji_unit.
    assert (A : (0xD800 <=? u)%N = false) by (apply N.leb_gt; lia).
    assert (B : (0x2600 <=? u)%N = false) by (apply N.leb_gt; lia).
    assert (C : (0x2700 <=? u)%N = false) by (apply N.leb_gt; lia).
    rewrite A, B, C. reflexivity.
Qed.

End WorkerMore.

Section WorkerMoreExamples.

Import Worker WorkerNotions.

Lemma plain_texts_construct_one_compiler_witness :
  let ms := [hello_message; unclosed_message] in
  let s := handle_all renderer_rejecting ms init in
  Forall (fun m => needsEmojiFont (mainTypst m) = false) ms
  /\ emojiLoaded s = false
  /\ filter is_construction (trace s) = [CreateCompiler (mkCompiler 0 CORE_FONTS)]
  /\ renderer_state s = Base.
Proof.
  cbv zeta.
  assert (F : Forall (fun m => needsEmojiFont (mainTypst m) = false)
                     [hello_message; unclosed_message])
    by (repeat constructor).
  split; [exact F|].
  exact (plain_texts_construct_one_compiler renderer_rejecting
           [hello_message; unclosed_message] F).
Defined.

Lemma failed_initialisation_is_kept_witness :
  let R := renderer_offline in
  let s := handle R hello_message init in
  let c := mkCompiler 0 CORE_FONTS in
  let e := ErrorObject "Failed to fetch" in
  let ms := [unclosed_message; hello_message] in
  (compilerPromise s = Some (InitPromise c)
   /\ init_failure R c = Some e
   /\ Forall (fun m => needsEmojiFont (mainTypst m) && negb (emojiLoaded s) = false) ms)
  /\ handle_all R ms s = extend s (map (failure e) ms).
Proof.
  cbv zeta.
  assert (F : Forall (fun m => needsEmojiFont (mainTypst m)
                               && negb (emojiLoaded (handle renderer_offline hello_message init))
                               = false)
                     [unclosed_message; hello_message])
    by (repeat constructor).
  split; [split; [reflexivity | split; [reflexivity | exact F]]|].
  exact (failed_initialisation_is_kept renderer_offline [unclosed_message; hello_message]
           (handle renderer_offline hello_message init)
           (mkCompiler 0 CORE_FONTS) (ErrorObject "Failed to fetch")
           eq_refl eq_refl F).
Defined.

Lemma successful_upgrade_replaces_compiler_witness :
  let R := renderer_core_offline in
  let s := handle R hello_message init in
  let c := mkCompiler 1 (CORE_FONTS ++ EMOJI_FONTS) in
  let s1 := handle R sun_message s in
  (posted (trace s) = [ResponseFailed "req-1" "Failed to fetch" []]
   /\ emojiLoaded s = false
   /\ needsEmojiFont (mainTypst sun_message) = true
   /\ init_failure R (mkCompiler (constructed s) (CORE_FONTS ++ EMOJI_FONTS)) = None)
  /\ compilerPromise s1 = Some (ResolvedPromise c)
  /\ emojiLoaded s1 = true
  /\ renderer_state s1 = Upgraded
  /\ rendered_with (appended s s1) = [c]
  /\ filter is_construction (appended s s1) = [CreateCompiler c].
Proof.
  cbv zeta. split; [repeat split|].
  exact (successful_upgrade_replaces_compiler renderer_core_offline sun_message
           (handle renderer_core_offline hello_message init) eq_refl eq_refl eq_refl).
Defined.



(** U+1D54F, a double-struck capital X, is no emoji and is above the basic
    plane; "a -> b" with U+2192 stays below U+2600. *)
Lemma astral_characters_need_emoji_font_witness :
  ((0x10000 <= 0x1D54F <= 0x10FFFF)%N
   /\ needsEmojiFont (units "let " ++ utf16 0x1D54F ++ units " = 1") = true)
  /\ (Forall (fun unit => (unit < 0x2600)%N) (units "a " ++ [0x2192]%N ++ units " b")
      /\ needsEmojiFont (units "a " ++ [0x2192]%N ++ units " b") = false).
Proof.
  assert (B : (0x10000 <= 0x1D54F <= 0x10FFFF)%N) by (split; discriminate).
  assert (F : Forall (fun unit => (unit < 0x2600)%N) (units "a " ++ [0x2192]%N ++ units " b"))
    by (repeat constructor).
  split.
  - split; [exact B|].
    exact (proj1 astral_characters_need_emoji_font (units "let ") (units " = 1") 0x1D54F%N B).
  - split; [exact F|].
    exact (proj2 astral_characters_need_emoji_font _ F).
Defined.

End WorkerMoreExamples.

(* ===================================================================== *)
(** * Further properties of [debounce] *)
(* ===================================================================== *)

Section DebounceMore.

Import Helpers HelpersNotions.

Variable Args : Type.
Variable func : list Args -> Args -> Behaviour Args.
Variable delay : nat.

(** X16.  One timer at a time.  When [func] makes no call of the debounced
    function or of [cancel] itself, then whatever is called and whenever the
    browser runs its timers, at most one timer of the debounced function is
    pending, [timeoutId] is its handle, and [timeoutId] is not null while
    one is pending.  When [func] moreover never throws, [timeoutId] is null
    exactly when none is pending.  (A [func] that throws leaves
    [timeoutId] holding the handle of the timer that has run.) *)
Theorem one_timer_at_a_time :
  forall (evs : list (Event Args)),
    plain func ->
    let s := run func delay evs init in
    List.length (timers s) <= 1
    /\ (forall t, In t (timers s) -> timeoutId s = Some (handle t))
    /\ (timeoutId s = None -> timers s = [])
    /\ (returning func -> timers s = [] -> timeoutId s = None).
Proof.
  intros evs P. cbv zeta.
  pose proof (run_well_formed Args func delay evs init P (init_well_formed Args)) as W.
  split; [|split; [|split]].
  - destruct W as [Ht|(h & d & a & Hid & Ht)]; rewrite Ht; simpl; lia.
  - destruct W as [Ht|(h & d & a & Hid & Ht)]; rewrite Ht; [intros t []|].
    intros t [<-|[]]. exact Hid.
  - destruct W as [Ht|(h & d & a & Hid & Ht)]; [intros _; exact Ht|].
    rewrite Hid. discriminate.
  - intros Rt Ht.
    destruct (run_rested Args func delay evs init P Rt (or_introl (conj eq_refl eq_refl)))
      as [[Hid _]|(h & d & a & _ & Ht')]; [exact Hid|].
    rewrite Ht in Ht'. discriminate.
Qed.

(** *** Subsequences *)


Lemma subsequence_nil {A} (l : list A) : subsequence [] l.
Proof. induction l; constructor; assumption. Qed.

Lemma subsequence_app_r {A} (l1 l2 r : list A) :
  subsequence l1 l2 -> subsequence l1 (l2 ++ r).
Proof.
  induction 1; simpl.
  - apply subsequence_nil.
  - constructor; assumption.
  - constructor; assumption.
Qed.








(** *** The order of the pending timers *)

Implicit Types (s : State Args) (t : Timer Args).







(** *** What every run keeps *)










(** *** One round of timers *)











(** *** The calls the debounced function receives *)





(** *** Calls that are far apart *)

Lemma unhurried_runs (cs : list (Args * list (Event Args))) s :
  plain func ->
  well_formed s -> patient delay cs ->
  invoked (run func delay (unhurried cs) s) = invoked s ++ map fst cs
  /\ (cs <> [] -> timers (run func delay (unhurried cs) s) = []).
Proof.
  intros P. revert s. induction cs as [|[a pause] cs IH]; intros s W Pt.
  - simpl. rewrite app_nil_r. split; [reflexivity | congruence].
  - inversion Pt as [|x l [Hi Hd] Pt']; subst. simpl in Hi, Hd.
    change (unhurried ((a, pause) :: cs)) with (Call a :: pause ++ RunTimers :: unhurried cs).
    change (run func delay (Call a :: pause ++ RunTimers :: unhurried cs) s)
      with (run func delay (pause ++ RunTimers :: unhurried cs) (debounced delay a s)).
    rewrite run_app_events.
    change (run func delay (RunTimers :: unhurried cs)
              (run func delay pause (debounced delay a s)))
      with (run func delay (unhurried cs)
              (runTimers func delay (run func delay pause (debounced delay a s)))).
    destruct (debounced_arms Args delay a s W) as (Ha & Hv & Hn).
    pose proof (idle_now Args func delay pause (debounced delay a s) Hi) as Hnow.
    pose proof (timer_delay_le delay) as Tl.
    assert (F : timers (runTimers func delay (run func delay pause (debounced delay a s))) = []
                /\ invoked (runTimers func delay (run func delay pause (debounced delay a s)))
                   = invoked s ++ [a]).
    { destruct (idle_armed Args func delay pause _ _ _ _ P Hi Ha)
        as [[Ha1 Hv1]|(_ & Ht1 & Hv1 & _)].
      - destruct (runTimers_due Args func delay _ _ _ _ P Ha1 ltac:(lia)) as (Ht & Hv2 & _).
        split; [exact Ht|]. rewrite Hv2, Hv1, Hv. reflexivity.
      - rewrite (runTimers_none Args func delay _ Ht1). split; [exact Ht1|].
        rewrite Hv1, Hv. reflexivity. }
    destruct F as [Ft Fv].
    destruct (IH _ (or_introl Ft) Pt') as [Hv3 Hr3].
    split.
    + rewrite Hv3, Fv, <- app_assoc. reflexivity.
    + intros _. destruct cs as [|c cs']; [exact Ft | apply Hr3; discriminate].
Qed.

(** X18.  Calls that are far apart are all served.  Let [func] make no
    call of the debounced function or of [cancel] itself.  When each call of
    the debounced function is followed by a wait of at least [delay] and the
    browser runs its timers before the next call, [func] is called once for
    every call, with its arguments, in order, and afterwards no timer is
    pending; and when [func] never throws, [timeoutId] is null then. *)
Theorem unhurried_calls_are_all_served :
  forall (before : list (Event Args)) (cs : list (Args * list (Event Args))),
    plain func ->
    patient delay cs ->
    let s0 := run func delay before init in
    let s := run func delay (unhurried cs) s0 in
    invoked s = invoked s0 ++ map fst cs
    /\ (cs <> [] -> timers s = [] /\ (returning func -> timeoutId s = None)).
Proof.
  intros before cs P Pt s0. cbv zeta.
  assert (W0 : well_formed s0) by (apply run_well_formed; [exact P | apply init_well_formed]).
  destruct (unhurried_runs cs s0 P W0 Pt) as [Hv Ht].
  split; [exact Hv|].
  intros Hne. split; [exact (Ht Hne)|].
  intros Rt.
  assert (R0 : at_rest s0 \/ exists h d a, armed h d a s0).
  { apply run_rested; [exact P | exact Rt | left; split; reflexivity]. }
  destruct (run_rested Args func delay (unhurried cs) s0 P Rt R0)
    as [[Hid _]|(h & d & a & _ & Ht')]; [exact Hid|].
  rewrite (Ht Hne) in Ht'. discriminate.
Qed.

End DebounceMore.

Section DebounceMoreExamples.

Import Helpers HelpersNotions.

Lemma one_timer_at_a_time_witness :
  let evs := [Call "a"; Elapse 400; Call "ab"; Elapse 1000; RunTimers; Call "abc"] in
  let s := run quiet_func 1000 evs init in
  plain quiet_func
  /\ List.length (timers s) <= 1
  /\ (forall t, In t (timers s) -> timeoutId s = Some (handle t))
  /\ (timeoutId s = None -> timers s = [])
  /\ (returning quiet_func -> timers s = [] -> timeoutId s = None).
Proof.
  cbv zeta.
  assert (P : plain quiet_func) by (intros past a; reflexivity).
  split; [exact P|].
  exact (one_timer_at_a_time string quiet_func 1000
           [Call "a"; Elapse 400; Call "ab"; Elapse 1000; RunTimers; Call "abc"] P).
Defined.

(** With a [func] that calls back, the timer of the call it makes is
    pending while [timeoutId] is null, and the next call of the caller sets a
    second one. *)
Lemma eager_func_sets_two_timers :
  let s := run eager_func 1000 [Call "a"; Elapse 1000; RunTimers] init in
  invoked s = ["a"]
  /\ received s = ["a"; "again"]
  /\ timeoutId s = None
  /\ map args (timers s) = ["again"]
  /\ map args (timers (run eager_func 1000 [Call "b"] s)) = ["again"; "b"].
Proof. cbv zeta. repeat split. Qed.


Lemma unhurried_calls_are_all_served_witness :
  let delay := 1000 in
  let cs := [("a", [Elapse 1000]); ("ab", [Elapse 400; RunTimers; Elapse 700])] in
  let s := run quiet_func delay (unhurried cs) init in
  (plain quiet_func /\ patient delay cs)
  /\ invoked s = ["a"; "ab"]
  /\ (cs <> [] -> timers s = [] /\ (returning quiet_func -> timeoutId s = None)).
Proof.
  cbv zeta.
  assert (P : plain quiet_func) by (intros past a; reflexivity).
  assert (Pt : patient 1000 [("a", [Elapse 1000]); ("ab", [Elapse 400; RunTimers; Elapse 700])]).
  { repeat constructor; simpl; lia. }
  split; [split; [exact P | exact Pt]|].
  exact (unhurried_calls_are_all_served string quiet_func 1000 []
           [("a", [Elapse 1000]); ("ab", [Elapse 400; RunTimers; Elapse 700])] P Pt).
Defined.

End DebounceMoreExamples.

(* ===================================================================== *)
(** * Properties of the download helpers *)
(* ===================================================================== *)

Section DownloadFacts.

Import Downloads.

Lemma live_after_more (t es : list Effect) (acc : list Url) :
  live_after (t ++ es) acc = live_after es (live_after t acc).
Proof.
  revert acc. induction t as [|e t IH]; intros acc; simpl; [reflexivity|].
  destruct e; apply IH.
Qed.

Lemma clicks_live_more (t es : list Effect) (acc : list Url) :
  clicks_live (t ++ es) acc <-> clicks_live t acc /\ clicks_live es (live_after t acc).
Proof.
  revert acc. induction t as [|e t IH]; intros acc; simpl; [tauto|].
  destruct e; rewrite ?IH; tauto.
Qed.

Lemma filter_fresh (u : Url) (acc : list Url) :
  Forall (fun v => v < u) acc ->
  filter (fun v => negb (Nat.eqb v u)) (acc ++ [u]) = acc.
Proof.
  intros F. rewrite filter_app. simpl. rewrite Nat.eqb_refl. simpl. rewrite app_nil_r.
  induction F as [|v acc Hv F IH]; simpl; [reflexivity|].
  assert (E : Nat.eqb v u = false) by (apply Nat.eqb_neq; lia).
  rewrite E. simpl. rewrite IH. reflexivity.
Qed.

Lemma call_effects (c : Call) (p : Page) (live0 : list Url) :
  Forall (fun u => u < nextUrl p) live0 ->
  incl (given_urls [c]) live0 ->
  exists es,
    trace (call c p) = trace p ++ es
    /\ nextUrl p <= nextUrl (call c p)
    /\ live_after es live0 = live0
    /\ clicks_live es live0.
Proof.
  intros F G. destruct c as [blob filename|url filename]; simpl.
  - exists [CreateObjectURL blob (nextUrl p); Click (nextUrl p) filename;
            RevokeObjectURL (nextUrl p)].
    unfold downloadBlob, emit; simpl. rewrite <- !app_assoc. simpl.
    split; [reflexivity|]. split; [lia|].
    rewrite (filter_fresh _ _ F). split; [reflexivity|].
    split; [apply in_or_app; right; left; reflexivity | exact I].
  - exists [Click url (match filename with Some f => f | None => "document.pdf" end)].
    unfold downloadPdfFromUrl, emit; simpl.
    split; [reflexivity|]. split; [lia|]. split; [reflexivity|].
    split; [apply G; left; reflexivity | exact I].
Qed.

Lemma calls_effects (cs : list Call) (p : Page) (live0 : list Url) :
  Forall (fun u => u < nextUrl p) live0 ->
  incl (given_urls cs) live0 ->
  exists es,
    trace (calls cs p) = trace p ++ es
    /\ live_after es live0 = live0
    /\ clicks_live es live0.
Proof.
  revert p. induction cs as [|c cs IH]; intros p F G.
  - exists []. simpl. rewrite app_nil_r. repeat split.
  - assert (G1 : incl (given_urls [c]) live0).
    { intros u Hu. apply G. destruct c; simpl in *; tauto. }
    assert (G2 : incl (given_urls cs) live0).
    { intros u Hu. apply G. destruct c; simpl; tauto. }
    destruct (call_effects c p live0 F G1) as (es1 & T1 & N1 & L1 & C1).
    assert (F' : Forall (fun u => u < nextUrl (call c p)) live0).
    { eapply Forall_impl; [|exact F]. simpl. intros; lia. }
    destruct (IH (call c p) F' G2) as (es2 & T2 & L2 & C2).
    exists (es1 ++ es2). simpl. split; [rewrite T2, T1, app_assoc; reflexivity|].
    split.
    + rewrite live_after_more, L1. exact L2.
    + apply clicks_live_more. rewrite L1. split; assumption.
Qed.

(** X19.  Downloads leave the object URLs as they were.  Any sequence of
    [downloadBlob] and [downloadPdfFromUrl] calls, the latter on URLs that
    are live, leaves exactly the URLs live that were live before:
    [downloadBlob] revokes the URL it makes and no other, and
    [downloadPdfFromUrl] revokes none; and every click is on a URL that is
    live when it happens. *)
Theorem downloads_leave_urls_as_they_were :
  forall (cs : list Call) (p : Page) (live0 : list Url),
    Forall (fun u => u < nextUrl p) live0 ->
    incl (given_urls cs) live0 ->
    let es := skipn (List.length (trace p)) (trace (calls cs p)) in
    live_after es live0 = live0 /\ clicks_live es live0.
Proof.
  intros cs p live0 F G es. subst es.
  destruct (calls_effects cs p live0 F G) as (es & T & L & C).
  rewrite T, skipn_own_length. split; assumption.
Qed.

Lemma downloads_leave_urls_as_they_were_witness :
  let p := mkPage 1 [] in
  let cs := [DownloadPdfFromUrl 0 None; DownloadBlob [Byte.x25] "copy.pdf";
             DownloadPdfFromUrl 0 (Some "again.pdf")] in
  let es := skipn (List.length (trace p)) (trace (calls cs p)) in
  (Forall (fun u => u < nextUrl p) [0] /\ incl (given_urls cs) [0])
  /\ live_after es [0] = [0]
  /\ clicks_live es [0].
Proof.
  cbv zeta.
  assert (F : Forall (fun u => u < nextUrl (mkPage 1 [])) [0]) by (repeat constructor).
  assert (G : incl (given_urls [DownloadPdfFromUrl 0 None; DownloadBlob [Byte.x25] "copy.pdf";
                                DownloadPdfFromUrl 0 (Some "again.pdf")]) [0]).
  { intros u [<-|[<-|[]]]; left; reflexivity. }
  split; [split; [exact F | exact G]|].
  exact (downloads_leave_urls_as_they_were _ (mkPage 1 []) [0] F G).
Defined.

End DownloadFacts.

(* ===================================================================== *)
(** * Properties of the example table *)
(* ===================================================================== *)

Section ExampleFacts.

Import Examples.

(** X20.  Looking up the examples.  [getExampleById] returns an example of
    the table with the id asked for, and [undefined] for an id that no
    example has; every example of the table is found under its own id, so
    ids are unique; and every pair [getExampleNames] lists is the id and the
    name of the example that [getExampleById] finds for that id. *)
Theorem examples_are_found_by_id :
  (forall (i : string) (ex : TypstExample),
     getExampleById i = Some ex -> id ex = i /\ In ex TYPST_EXAMPLES)
  /\ (forall (i : string), ~ In i (map id TYPST_EXAMPLES) -> getExampleById i = None)
  /\ (forall (ex : TypstExample), In ex TYPST_EXAMPLES -> getExampleById (id ex) = Some ex)
  /\ (forall (i n : string),
        In (i, n) getExampleNames ->
        exists ex, getExampleById i = Some ex /\ name ex = n)
  /\ List.length getExampleNames = List.length TYPST_EXAMPLES.
Proof.
  split; [|split; [|split; [|split]]].
  - intros i ex H. unfold getExampleById in H. apply find_some in H as [Hin He].
    apply String.eqb_eq in He. split; assumption.
  - intros i H. unfold getExampleById.
    destruct (find _ TYPST_EXAMPLES) as [ex|] eqn:F; [|reflexivity].
    exfalso. apply find_some in F as [Hin He]. apply String.eqb_eq in He.
    apply H. rewrite <- He. apply in_map. exact Hin.
  - intros ex [<-|[<-|[<-|[]]]]; reflexivity.
  - intros i n H. unfold getExampleNames in H. apply in_map_iff in H as (ex & E & Hin).
    injection E as <- <-. exists ex. split; [|reflexivity].
    destruct Hin as [<-|[<-|[<-|[]]]]; reflexivity.
  - reflexivity.
Qed.

Lemma examples_are_found_by_id_witness :
  (getExampleById "math" = Some (mkExample "math" "Math Document"
                                   "Mathematical formulas and equations"
                                   "/typst-examples/math.typ")
   /\ ~ In "thesis" (map id TYPST_EXAMPLES)
   /\ In ("report", "Academic Report") getExampleNames)
  /\ (id (mkExample "math" "Math Document" "Mathematical formulas and equations"
                    "/typst-examples/math.typ") = "math"
      /\ getExampleById "thesis" = None
      /\ exists ex, getExampleById "report" = Some ex /\ name ex = "Academic Report").
Proof.
  assert (H1 : getExampleById "math"
               = Some (mkExample "math" "Math Document"
                         "Mathematical formulas and equations"
                         "/typst-examples/math.typ")) by reflexivity.
  assert (H2 : ~ In "thesis" (map id TYPST_EXAMPLES)).
  { intros [H|[H|[H|[]]]]; discriminate. }
  assert (H3 : In ("report", "Academic Report") getExampleNames).
  { right. right. left. reflexivity. }
  split; [split; [exact H1 | split; [exact H2 | exact H3]]|].
  destruct examples_are_found_by_id as (A & B & _ & D & _).
  split; [exact (proj1 (A _ _ H1))|]. split; [exact (B _ H2) | exact (D _ _ H3)].
Defined.

End ExampleFacts.

(* ===================================================================== *)
(** * Properties of a mounted editor *)
(* ===================================================================== *)

Section SessionFacts.

Import EditorNotions.

Variable oid : nat.

(** *** What reaches the worker client *)

Lemma requested_app (t es : list Coordinator.Effect) :
  Editor.requested (t ++ es) = Editor.requested t ++ Editor.requested es.
Proof.
  induction t as [|e t IH]; simpl; [reflexivity|].
  destruct e; simpl; rewrite ?IH; reflexivity.
Qed.

Lemma requested_calls (es : list Coordinator.Effect) :
  forallb Coordinator.is_callback es = true -> Editor.requested es = [].
Proof.
  induction es as [|e es IH]; simpl; [reflexivity|].
  intros H. apply andb_true_iff in H as [He Hes].
  destruct e; simpl in *; try discriminate; apply IH; exact Hes.
Qed.

Lemma requested_compile (code : SourceText) (w : Coordinator.World) :
  Editor.requested (Coordinator.trace (Coordinator.step (Coordinator.EvCompile code) w))
  = Editor.requested (Coordinator.trace w) ++ [code].
Proof.
  unfold Coordinator.step. rewrite compile_begin_eq. cbn [Coordinator.trace].
  rewrite !requested_app, (requested_calls _ (status_calls_callbacks _ _)). reflexivity.
Qed.

Lemma requested_reply (seq : Z) (r : Coordinator.ClientReply) (w : Coordinator.World) :
  Editor.requested (Coordinator.trace (Coordinator.step (Coordinator.EvReply seq r) w))
  = Editor.requested (Coordinator.trace w).
Proof.
  unfold Coordinator.step. destruct (Coordinator.mem seq (Coordinator.waiting w)); [|reflexivity].
  destruct (Z.eq_dec seq (Coordinator.compileSeq (Coordinator.svc w))) as [->|Hne].
  - destruct r as [p|err].
    + rewrite compile_resume_resolved. cbn [Coordinator.trace].
      rewrite !requested_app, (requested_calls _ (success_calls_callbacks _ _ _)),
        (requested_calls _ (status_calls_callbacks _ _)).
      destruct (Coordinator.currentPdfUrl (Coordinator.svc w)); simpl;
        rewrite ?requested_app; simpl; rewrite ?app_nil_r; reflexivity.
    + rewrite compile_resume_rejected. cbn [Coordinator.trace].
      rewrite !requested_app, (requested_calls _ (error_calls_callbacks _ _)),
        (requested_calls _ (status_calls_callbacks _ _)). simpl. rewrite !app_nil_r.
      reflexivity.
  - rewrite (compile_resume_stale w seq r Hne). cbn [Coordinator.trace].
    rewrite requested_app. simpl. apply app_nil_r.
Qed.

Lemma requested_compiles (codes : list SourceText) (w : Coordinator.World) :
  Editor.requested
    (Coordinator.trace (Coordinator.run (map Coordinator.EvCompile codes) w))
  = Editor.requested (Coordinator.trace w) ++ codes.
Proof.
  revert w. induction codes as [|c codes IH]; intros w.
  - symmetry. apply app_nil_r.
  - cbn [map].
    change (Coordinator.run (Coordinator.EvCompile c :: map Coordinator.EvCompile codes) w)
      with (Coordinator.run (map Coordinator.EvCompile codes)
              (Coordinator.step (Coordinator.EvCompile c) w)).
    rewrite IH, requested_compile, <- app_assoc. reflexivity.
Qed.

(** *** The timer of a session *)

Lemma editor_func_plain : Helpers.plain Editor.func.
Proof. intros past a. reflexivity. Qed.

Lemma editor_func_returning : Helpers.returning Editor.func.
Proof. intros past a. reflexivity. Qed.

Lemma editor_delay_small : (Z.of_nat Editor.DELAY < 2 ^ 31)%Z.
Proof. reflexivity. Qed.

Lemma incl_filter_args (f : Helpers.Timer SourceText -> bool)
    (ts : list (Helpers.Timer SourceText)) (hist : list SourceText) :
  incl (map Helpers.args ts) hist -> incl (map Helpers.args (filter f ts)) hist.
Proof.
  intros H a Ha. apply H. apply in_map_iff in Ha as (t & <- & Ht).
  apply in_map. apply filter_In in Ht. apply Ht.
Qed.

(** A round of timers calls [func] with arguments of timers that were
    pending, and sets no timer. *)
Lemma fires_extend (ready : list (Helpers.Timer SourceText)) (s : Helpers.State SourceText) :
  exists delta,
    Helpers.invoked
      (fold_left (fun acc t => if Helpers.pending (Helpers.handle t) acc
                               then Helpers.fire Editor.func Editor.DELAY t
                                      (Helpers.expire (Helpers.handle t) acc)
                               else acc) ready s)
    = Helpers.invoked s ++ delta
    /\ incl delta (map Helpers.args ready)
    /\ incl (map Helpers.args
               (Helpers.timers
                  (fold_left (fun acc t => if Helpers.pending (Helpers.handle t) acc
                                           then Helpers.fire Editor.func Editor.DELAY t
                                                  (Helpers.expire (Helpers.handle t) acc)
                                           else acc) ready s)))
            (map Helpers.args (Helpers.timers s)).
Proof.
  revert s. induction ready as [|t ready IH]; intros s.
  - exists []. cbn [fold_left]. rewrite app_nil_r.
    split; [reflexivity|]. split; [apply incl_refl | apply incl_refl].
  - cbn [fold_left]. destruct (Helpers.pending (Helpers.handle t) s).
    + rewrite (fire_plain SourceText Editor.func Editor.DELAY t _ editor_func_plain).
      match goal with |- context [fold_left _ ready ?x] => destruct (IH x) as (d & Ei & Id & It) end.
      exists (Helpers.args t :: d). rewrite Ei. cbn [Helpers.invoked Helpers.expire].
      rewrite <- app_assoc. split; [reflexivity|]. split.
      * intros a [<-|Ha]; [left; reflexivity | right; apply Id, Ha].
      * eapply incl_tran; [exact It|]. cbn [Helpers.timers Helpers.expire].
        apply incl_filter_args, incl_refl.
    + destruct (IH s) as (d & Ei & Id & It).
      exists d. split; [exact Ei|]. split; [|exact It].
      intros a Ha. right. apply Id, Ha.
Qed.

Lemma runTimers_extends (s : Helpers.State SourceText) :
  exists delta,
    Helpers.invoked (Helpers.runTimers Editor.func Editor.DELAY s) = Helpers.invoked s ++ delta
    /\ incl delta (map Helpers.args (Helpers.timers s))
    /\ incl (map Helpers.args (Helpers.timers (Helpers.runTimers Editor.func Editor.DELAY s)))
            (map Helpers.args (Helpers.timers s)).
Proof.
  unfold Helpers.runTimers.
  destruct (fires_extend
              (filter (fun t => (Helpers.due t <=? Helpers.now s)%nat) (Helpers.timers s)) s)
    as (d & Ei & Id & It).
  exists d. split; [exact Ei|]. split; [|exact It].
  eapply incl_tran; [exact Id|]. apply incl_filter_args, incl_refl.
Qed.

(** One step: what it adds to the calls of [func] it adds to the requests,
    unless it is a press of the button, which adds the text held. *)
Lemma step_requests (e : Editor.Event) (s : Editor.Session) :
  settled_up s ->
  settled_up (Editor.step oid e s)
  /\ exists delta,
       Helpers.invoked (Editor.timer (Editor.step oid e s))
       = Helpers.invoked (Editor.timer s) ++ delta
       /\ (Editor.requested (Coordinator.trace (Editor.world (Editor.step oid e s)))
           = Editor.requested (Coordinator.trace (Editor.world s)) ++ delta
           \/ (Editor.presses e = true
               /\ delta = []
               /\ Editor.requested (Coordinator.trace (Editor.world (Editor.step oid e s)))
                  = Editor.requested (Coordinator.trace (Editor.world s))
                    ++ [Editor.typstCode s])).
Proof.
  intros U. unfold settled_up in *. destruct e as [text| |dt| |seq r]; simpl.
  - destruct (Editor.source_eqb text (Editor.typstCode s)).
    + split; [exact U|]. exists []. rewrite !app_nil_r. split; [reflexivity | left; reflexivity].
    + cbn [Editor.passed Editor.timer Editor.world].
      rewrite (debounced_defers SourceText Editor.DELAY text (Editor.timer s)).
      split; [exact U|]. exists []. rewrite !app_nil_r. split; [reflexivity | left; reflexivity].
  - destruct (Editor.status _).
    + cbn [Editor.passed Editor.timer Editor.world].
      split; [exact U|]. exists []. rewrite app_nil_r. split; [reflexivity|].
      right. split; [reflexivity|]. split; [reflexivity|]. apply requested_compile.
    + split; [exact U|]. exists []. rewrite !app_nil_r. split; [reflexivity | left; reflexivity].
    + cbn [Editor.passed Editor.timer Editor.world].
      split; [exact U|]. exists []. rewrite app_nil_r. split; [reflexivity|].
      right. split; [reflexivity|]. split; [reflexivity|]. apply requested_compile.
    + cbn [Editor.passed Editor.timer Editor.world].
      split; [exact U|]. exists []. rewrite app_nil_r. split; [reflexivity|].
      right. split; [reflexivity|]. split; [reflexivity|]. apply requested_compile.
  - split; [exact U|]. exists []. rewrite !app_nil_r. split; [reflexivity | left; reflexivity].
  - destruct (runTimers_extends (Editor.timer s)) as (delta & Ei & _).
    unfold Editor.pass_on. cbn [Editor.passed Editor.timer Editor.world].
    split; [reflexivity|].
    exists delta. split; [exact Ei|]. left.
    rewrite requested_compiles, Ei, U, skipn_own_length. reflexivity.
  - cbn [Editor.passed Editor.timer Editor.world].
    split; [exact U|]. exists []. rewrite !app_nil_r. split; [reflexivity|].
    left. apply requested_reply.
Qed.

Lemma run_settled_up (evs : list Editor.Event) (s : Editor.Session) :
  settled_up s -> settled_up (Editor.run oid evs s).
Proof.
  revert s. induction evs as [|e evs IH]; intros s U; simpl; [exact U|].
  apply IH. apply (step_requests e s U).
Qed.

(** Without a press of the button the requests follow the timer. *)
Lemma requests_follow_timer (evs : list Editor.Event) (s : Editor.Session) :
  settled_up s ->
  forallb (fun e => negb (Editor.presses e)) evs = true ->
  exists delta,
    Helpers.invoked (Editor.timer (Editor.run oid evs s))
    = Helpers.invoked (Editor.timer s) ++ delta
    /\ Editor.requested (Coordinator.trace (Editor.world (Editor.run oid evs s)))
       = Editor.requested (Coordinator.trace (Editor.world s)) ++ delta.
Proof.
  revert s. induction evs as [|e evs IH]; intros s U H; simpl.
  - exists []. rewrite !app_nil_r. split; reflexivity.
  - simpl in H. apply andb_true_iff in H as [He H]. apply negb_true_iff in He.
    destruct (step_requests e s U) as (U1 & d1 & I1 & [R1|(P & _)]); [|congruence].
    destruct (IH _ U1 H) as (d2 & I2 & R2).
    exists (d1 ++ d2). rewrite I2, I1, R2, R1, <- !app_assoc. split; reflexivity.
Qed.

Lemma source_eqb_eq (a b : SourceText) : Editor.source_eqb a b = true <-> a = b.
Proof.
  unfold Editor.source_eqb. destruct (list_eq_dec N.eq_dec a b); split; congruence.
Qed.

(** The text a session holds after some events. *)
Lemma timer_follows_events (evs : list Editor.Event) (s : Editor.Session) :
  Editor.timer (Editor.run oid evs s)
  = Helpers.run Editor.func Editor.DELAY (Editor.to_timer (Editor.typstCode s) evs) (Editor.timer s).
Proof.
  revert s. induction evs as [|e evs IH]; intros s; [reflexivity|].
  change (Editor.run oid (e :: evs) s) with (Editor.run oid evs (Editor.step oid e s)).
  rewrite IH. destruct e as [text| |dt| |seq r]; simpl.
  - destruct (Editor.source_eqb text (Editor.typstCode s)); reflexivity.
  - destruct (Editor.status _); reflexivity.
  - reflexivity.
  - reflexivity.
  - reflexivity.
Qed.

(** *** Typing *)

Lemma quiet_to_timer (current : SourceText) (pause : list Editor.Event) :
  forallb Editor.quiet pause = true ->
  Editor.to_timer current pause = Editor.to_timer [] pause
  /\ forallb Helpers.idle (Editor.to_timer [] pause) = true
  /\ Helpers.duration (Editor.to_timer [] pause) = Editor.waited pause.
Proof.
  induction pause as [|e pause IH]; intros H; [repeat split|].
  simpl in H. apply andb_true_iff in H as [He H].
  destruct (IH H) as (I1 & I2 & I3).
  destruct e as [text| |dt| |seq r]; simpl in He; try discriminate; simpl.
  - rewrite I1, I2, I3. repeat split.
  - rewrite I1, I2, I3. repeat split.
  - rewrite I1. repeat split; assumption.
Qed.

Lemma to_timer_quiet_app (current : SourceText) (pause rest : list Editor.Event) :
  forallb Editor.quiet pause = true ->
  Editor.to_timer current (pause ++ rest)
  = Editor.to_timer [] pause ++ Editor.to_timer current rest.
Proof.
  induction pause as [|e pause IH]; intros H; [reflexivity|].
  simpl in H. apply andb_true_iff in H as [He H].
  destruct e as [text| |dt| |seq r]; simpl in He; try discriminate; simpl;
    rewrite (IH H); reflexivity.
Qed.

Lemma typing_to_timer (rest : list (list Editor.Event * SourceText))
    (current first : SourceText) (tail : list Editor.Event) :
  Editor.fluent current first rest ->
  Editor.to_timer current (Editor.typing first rest ++ tail)
  = Helpers.burst first (map pause_of rest)
    ++ Editor.to_timer (Editor.last_text first rest) tail
  /\ Helpers.quick Editor.DELAY (map pause_of rest)
  /\ Helpers.last_args first (map pause_of rest) = Editor.last_text first rest.
Proof.
  revert current first. induction rest as [|[pause text] rest IH]; intros current first F.
  - destruct F as [Hne _]. simpl.
    destruct (Editor.source_eqb first current) eqn:E.
    + apply source_eqb_eq in E. contradiction.
    + repeat split. constructor.
  - destruct F as (Hne & Hq & Hw & F').
    destruct (IH first text F') as (I1 & I2 & I3).
    destruct (quiet_to_timer [] pause Hq) as (_ & Q2 & Q3).
    cbn [Editor.typing app Editor.to_timer map Helpers.burst pause_of fst snd
         Editor.last_text Helpers.last_args].
    destruct (Editor.source_eqb first current) eqn:E.
    + apply source_eqb_eq in E. contradiction.
    + rewrite <- app_assoc, (to_timer_quiet_app first pause _ Hq), I1.
      split; [rewrite <- !app_assoc; reflexivity|]. split; [|exact I3].
      constructor; [|exact I2]. cbn [fst pause_of]. split; [exact Q2 | lia].
Qed.

(** X21.  Typing makes one request.  In a mounted editor, a run of edits
    each of which changes the text and comes less than a second after the
    one before, with replies arriving and timers running in between but no
    press of the button, asks the worker client for nothing while it lasts;
    and once a second has passed after the last edit and the browser runs
    its timers, exactly one request has been added, for the text of the
    last edit. *)
Theorem typing_makes_one_request :
  forall (before : list Editor.Event) (first : SourceText)
         (rest : list (list Editor.Event * SourceText)) (wait : list Editor.Event),
    let s0 := Editor.run oid before (Editor.mount oid) in
    Editor.fluent (Editor.typstCode s0) first rest ->
    forallb Editor.quiet wait = true ->
    Editor.DELAY <= Editor.waited wait ->
    let typed := Editor.run oid (Editor.typing first rest) s0 in
    let done := Editor.run oid (Editor.typing first rest ++ wait ++ [Editor.Timers]) s0 in
    Editor.requested (Coordinator.trace (Editor.world typed))
    = Editor.requested (Coordinator.trace (Editor.world s0))
    /\ Editor.requested (Coordinator.trace (Editor.world done))
       = Editor.requested (Coordinator.trace (Editor.world s0))
         ++ [Editor.last_text first rest].
Proof.
  intros before first rest wait s0 F Hq Hw typed done.
  assert (U0 : settled_up s0).
  { apply run_settled_up. reflexivity. }
  assert (W0 : Helpers.well_formed (Editor.timer s0)).
  { unfold s0. rewrite timer_follows_events.
    apply run_well_formed; [exact editor_func_plain|].
    unfold Editor.mount; cbn [Editor.timer].
    apply (step_well_formed SourceText Editor.func Editor.DELAY
             (Helpers.Call Editor.INITIAL_CODE) Helpers.init editor_func_plain).
    apply init_well_formed. }
  destruct (typing_to_timer rest _ first [] F) as (T1 & Q & La).
  rewrite app_nil_r in T1. simpl in T1. rewrite app_nil_r in T1.
  destruct (burst_arms SourceText Editor.func Editor.DELAY (map pause_of rest) first
              (Editor.timer s0) editor_func_plain editor_delay_small W0 Q)
    as (Bv & h & Ba).
  rewrite La in Ba.
  assert (NoPress : forall tail, forallb Editor.quiet tail = true ->
            forallb (fun e => negb (Editor.presses e)) (Editor.typing first rest ++ tail) = true).
  { intros tail Ht. rewrite forallb_app. apply andb_true_iff. split.
    - clear - F. revert F. generalize (Editor.typstCode s0) as current. revert first.
      induction rest as [|[pause text] rest IH]; intros first current F; [reflexivity|].
      destruct F as (_ & Hq & _ & F'). cbn [Editor.typing forallb Editor.presses negb andb].
      rewrite forallb_app, (IH text first F'), andb_true_r.
      clear - Hq. induction pause as [|e pause IH]; [reflexivity|].
      simpl in Hq. apply andb_true_iff in Hq as [He Hq]. simpl. rewrite (IH Hq).
      destruct e; simpl in *; try discriminate; reflexivity.
    - induction tail as [|e tail IH]; [reflexivity|].
      simpl in Ht. apply andb_true_iff in Ht as [He Ht]. simpl. rewrite (IH Ht).
      destruct e; simpl in *; try discriminate; reflexivity. }
  split.
  - pose proof (NoPress [] eq_refl) as NP. rewrite app_nil_r in NP.
    destruct (requests_follow_timer _ s0 U0 NP) as (delta & I & Rq).
    fold typed in I, Rq. unfold typed in I. rewrite timer_follows_events, T1, Bv in I.
    assert (D : delta = []).
    { apply (app_inv_head (Helpers.invoked (Editor.timer s0))). rewrite app_nil_r. symmetry. exact I. }
    rewrite Rq, D. apply app_nil_r.
  - assert (Qw : forallb Editor.quiet (wait ++ [Editor.Timers]) = true).
    { rewrite forallb_app, Hq. reflexivity. }
    destruct (requests_follow_timer _ s0 U0 (NoPress _ Qw)) as (delta & I & Rq).
    fold done in I, Rq. rewrite Rq. f_equal.
    unfold done in I. rewrite timer_follows_events in I.
    destruct (typing_to_timer rest _ first (wait ++ [Editor.Timers]) F) as (T2 & _ & _).
    rewrite T2, run_app_events in I.
    rewrite (to_timer_quiet_app _ wait [Editor.Timers] Hq) in I.
    cbn [Editor.to_timer] in I. rewrite run_app_events in I.
    change (Helpers.run Editor.func Editor.DELAY [Helpers.RunTimers] ?x) with (Helpers.runTimers Editor.func Editor.DELAY x) in I.
    destruct (quiet_to_timer [] wait Hq) as (_ & I2 & I3).
    set (armed_state := Helpers.run Editor.func Editor.DELAY (Helpers.burst first (map pause_of rest))
                          (Editor.timer s0)) in *.
    pose proof (idle_now SourceText Editor.func Editor.DELAY _ armed_state I2) as Hn.
    destruct (idle_armed SourceText Editor.func Editor.DELAY _ _ _ _ armed_state
                editor_func_plain I2 Ba) as [[Ha1 Hv1]|(_ & Hr1 & Hv1 & _)].
    + destruct (runTimers_due SourceText Editor.func Editor.DELAY _ _ _ _
                  editor_func_plain Ha1 ltac:(lia)) as (_ & Hv2 & _).
      rewrite Hv2, Hv1, Bv in I. apply app_inv_head in I. symmetry. exact I.
    + rewrite (runTimers_none SourceText Editor.func Editor.DELAY _ Hr1), Hv1, Bv in I.
      apply app_inv_head in I. symmetry. exact I.
Qed.

(** *** Where the requested texts come from *)

Lemma step_covered (e : Editor.Event) (s : Editor.Session) (hist : list SourceText) :
  settled_up s -> covered hist s ->
  covered (hist ++ Editor.texts [e]) (Editor.step oid e s).
Proof.
  intros U (Ct & Cv & Cr & Cc).
  assert (Up : incl hist (hist ++ Editor.texts [e])) by (apply incl_appl, incl_refl).
  destruct (step_requests e s U) as (_ & delta & I & R).
  assert (Timer' :
    incl (map Helpers.args (Helpers.timers (Editor.timer (Editor.step oid e s))))
         (hist ++ Editor.texts [e])
    /\ incl (Helpers.invoked (Editor.timer (Editor.step oid e s))) (hist ++ Editor.texts [e])
    /\ In (Editor.typstCode (Editor.step oid e s)) (hist ++ Editor.texts [e])).
  { destruct e as [text| |dt| |seq r]; cbn [Editor.step].
    - destruct (Editor.source_eqb text (Editor.typstCode s)).
      + repeat split; [eapply incl_tran; eauto | eapply incl_tran; eauto | apply Up, Cc].
      + cbn [Editor.timer Editor.typstCode Editor.texts].
        rewrite (debounced_defers SourceText Editor.DELAY text (Editor.timer s)).
        split; [|split; [eapply incl_tran; eauto | apply in_or_app; right; left; reflexivity]].
        unfold Helpers.debounced.
        destruct (Helpers.timeoutId (Editor.timer s)); cbn [Helpers.setTimeout Helpers.timers
          Helpers.clearTimeout Helpers.nextHandle Helpers.now Helpers.invoked Helpers.timeoutId];
          rewrite map_app; apply incl_app.
        * apply incl_filter_args. eapply incl_tran; eauto.
        * intros a [<-|[]]. apply in_or_app; right; left; reflexivity.
        * eapply incl_tran; eauto.
        * intros a [<-|[]]. apply in_or_app; right; left; reflexivity.
    - destruct (Editor.status _); cbn [Editor.timer Editor.typstCode];
        (repeat split; [eapply incl_tran; eauto | eapply incl_tran; eauto | apply Up, Cc]).
    - cbn [Editor.timer Editor.typstCode Helpers.elapse Helpers.timers Helpers.invoked].
      repeat split; [eapply incl_tran; eauto | eapply incl_tran; eauto | apply Up, Cc].
    - unfold Editor.pass_on. cbn [Editor.timer Editor.typstCode].
      destruct (runTimers_extends (Editor.timer s)) as (d & Ei & Id & It). rewrite Ei.
      split; [|split; [|apply Up, Cc]].
      + eapply incl_tran; [exact It|]. eapply incl_tran; eauto.
      + apply incl_app; [eapply incl_tran; eauto|].
        eapply incl_tran; [exact Id|]. eapply incl_tran; eauto.
    - cbn [Editor.timer Editor.typstCode].
      repeat split; [eapply incl_tran; eauto | eapply incl_tran; eauto | apply Up, Cc]. }
  destruct Timer' as (Tt & Tv & Tc).
  split; [exact Tt|]. split; [exact Tv|]. split; [|exact Tc].
  destruct R as [R|(_ & _ & R)]; rewrite R.
  - apply incl_app; [eapply incl_tran; eauto|].
    intros a Ha. apply Tv. rewrite I. apply in_or_app. right. exact Ha.
  - apply incl_app; [eapply incl_tran; eauto|].
    intros a [<-|[]]. apply Up, Cc.
Qed.

Lemma texts_app (evs1 evs2 : list Editor.Event) :
  Editor.texts (evs1 ++ evs2) = Editor.texts evs1 ++ Editor.texts evs2.
Proof.
  induction evs1 as [|e evs1 IH]; [reflexivity|].
  destruct e; simpl; rewrite IH; reflexivity.
Qed.

Lemma run_covered (evs : list Editor.Event) (s : Editor.Session) (hist : list SourceText) :
  settled_up s -> covered hist s ->
  covered (hist ++ Editor.texts evs) (Editor.run oid evs s).
Proof.
  revert s hist. induction evs as [|e evs IH]; intros s hist U C.
  - simpl. rewrite app_nil_r. exact C.
  - change (e :: evs) with ([e] ++ evs). rewrite texts_app, app_assoc.
    change (Editor.run oid ([e] ++ evs) s) with (Editor.run oid evs (Editor.step oid e s)).
    apply IH; [apply (step_requests e s U) | apply step_covered; assumption].
Qed.

Lemma mount_covered : covered [Editor.INITIAL_CODE] (Editor.mount oid).
Proof.
  unfold covered, Editor.mount.
  cbn [Editor.timer Editor.world Editor.typstCode].
  repeat split.
  - intros a [<-|[]]. left. reflexivity.
  - intros a [].
  - intros a [].
  - left. reflexivity.
Qed.

(** X22.  The editor only asks for texts it has held.  Whatever happens to
    a mounted editor (edits, presses of the button, time passing, timers
    running, replies arriving), every text handed to the worker client is
    the initial text or one of the texts typed. *)
Theorem requests_are_texts_held :
  forall (evs : list Editor.Event) (code : SourceText),
    In code (Editor.requested
               (Coordinator.trace (Editor.world (Editor.run oid evs (Editor.mount oid))))) ->
    In code (Editor.INITIAL_CODE :: Editor.texts evs).
Proof.
  intros evs code H.
  assert (U : settled_up (Editor.mount oid)) by reflexivity.
  destruct (run_covered evs _ _ U mount_covered) as (_ & _ & Cr & _).
  apply (Cr code H).
Qed.

(** *** When the component goes *)

Lemma mount_well_formed : Helpers.well_formed (Editor.timer (Editor.mount oid)).
Proof.
  unfold Editor.mount; cbn [Editor.timer].
  apply (step_well_formed SourceText Editor.func Editor.DELAY
           (Helpers.Call Editor.INITIAL_CODE) Helpers.init editor_func_plain).
  apply init_well_formed.
Qed.

Lemma session_well_formed (evs : list Editor.Event) :
  Helpers.well_formed (Editor.timer (Editor.run oid evs (Editor.mount oid))).
Proof.
  rewrite timer_follows_events.
  apply run_well_formed; [exact editor_func_plain | apply mount_well_formed].
Qed.

Lemma step_world_tidy (e : Editor.Event) (s : Editor.Session) :
  Coordinator.tidy (Editor.world s) -> Coordinator.tidy (Editor.world (Editor.step oid e s)).
Proof.
  intros T. destruct e as [text| |dt| |seq r]; cbn [Editor.step].
  - destruct (Editor.source_eqb text (Editor.typstCode s)); exact T.
  - destruct (Editor.status _); cbn [Editor.world]; try exact T; apply step_tidy, T.
  - exact T.
  - unfold Editor.pass_on. cbn [Editor.world]. apply run_tidy, T.
  - cbn [Editor.world]. apply step_tidy, T.
Qed.

Lemma session_world_tidy (evs : list Editor.Event) (s : Editor.Session) :
  Coordinator.tidy (Editor.world s) -> Coordinator.tidy (Editor.world (Editor.run oid evs s)).
Proof.
  revert s. induction evs as [|e evs IH]; intros s T; [exact T|].
  apply (IH (Editor.step oid e s)), step_world_tidy, T.
Qed.

(** With the timer at rest and nobody at the keys, only replies reach the
    service. *)
Lemma quiet_at_rest (evs : list Editor.Event) (s : Editor.Session) :
  forallb Editor.quiet evs = true ->
  Helpers.at_rest (Editor.timer s) -> settled_up s ->
  Editor.world (Editor.run oid evs s) = Coordinator.run (Editor.replies evs) (Editor.world s).
Proof.
  revert s. induction evs as [|e evs IH]; intros s Hq Hr U; [reflexivity|].
  simpl in Hq. apply andb_true_iff in Hq as [He Hq].
  change (Editor.run oid (e :: evs) s) with (Editor.run oid evs (Editor.step oid e s)).
  destruct e as [text| |dt| |seq r]; simpl in He; try discriminate.
  - rewrite IH; [reflexivity | exact Hq | exact Hr | exact U].
  - assert (E : Editor.world (Editor.step oid Editor.Timers s) = Editor.world s).
    { cbn [Editor.step]. unfold Editor.pass_on. cbn [Editor.world Editor.timer Editor.passed].
      rewrite (runTimers_at_rest SourceText Editor.func Editor.DELAY _ Hr), U, skipn_all.
      reflexivity. }
    rewrite IH; [rewrite E; reflexivity | exact Hq | |].
    + cbn [Editor.step]. unfold Editor.pass_on. cbn [Editor.timer].
      rewrite (runTimers_at_rest SourceText Editor.func Editor.DELAY _ Hr). exact Hr.
    + apply (step_requests Editor.Timers s U).
  - rewrite IH; [reflexivity | exact Hq | exact Hr | exact U].
Qed.

Lemma replies_add_no_listener (evs : list Editor.Event) :
  forallb (fun e => negb (CoordinatorNotions.adds_listener e)) (Editor.replies evs) = true.
Proof.
  induction evs as [|e evs IH]; [reflexivity|]. destruct e; simpl; exact IH.
Qed.

Lemma requested_replies (evs : list Editor.Event) (w : Coordinator.World) :
  Editor.requested (Coordinator.trace (Coordinator.run (Editor.replies evs) w))
  = Editor.requested (Coordinator.trace w).
Proof.
  revert w. induction evs as [|e evs IH]; intros w; [reflexivity|].
  destruct e as [text| |dt| |seq r]; cbn [Editor.replies]; try apply IH.
  change (Coordinator.run (Coordinator.EvReply seq r :: Editor.replies evs) w)
    with (Coordinator.run (Editor.replies evs) (Coordinator.step (Coordinator.EvReply seq r) w)).
  rewrite IH. apply requested_reply.
Qed.

(** X24.  When the component goes, the pending edit goes with it.  The
    cleanup cancels the debounce timer, removes the component's listener and
    disposes the service: it leaves no object URL live, and afterwards,
    however much time passes, whenever the browser runs its timers and
    whatever replies arrive, the worker client is asked for nothing more
    and no listener callback is called. *)
Theorem unmount_drops_pending_edit :
  forall (before after : list Editor.Event),
    forallb Editor.quiet after = true ->
    let s := Editor.run oid before (Editor.mount oid) in
    let u := Editor.unmount oid s in
    let s' := Editor.run oid after u in
    Coordinator.live (Coordinator.trace (Editor.world u)) = []
    /\ Editor.requested (Coordinator.trace (Editor.world s'))
       = Editor.requested (Coordinator.trace (Editor.world s))
    /\ Helpers.invoked (Editor.timer s') = Helpers.invoked (Editor.timer s)
    /\ existsb Coordinator.is_callback (Coordinator.added (Editor.world u) (Editor.world s'))
       = false.
Proof.
  intros before after Hq s u s'.
  assert (W : Helpers.well_formed (Editor.timer s)) by apply session_well_formed.
  assert (U : settled_up s) by (apply run_settled_up; reflexivity).
  destruct (cancel_rests SourceText (Editor.timer s) W) as [Hr Hv].
  assert (Uu : settled_up u).
  { unfold settled_up, u, Editor.unmount. cbn [Editor.passed Editor.timer]. rewrite Hv. exact U. }
  assert (Ru : Helpers.at_rest (Editor.timer u)) by exact Hr.
  assert (Ew : Editor.world s' = Coordinator.run (Editor.replies after) (Editor.world u)).
  { apply quiet_at_rest; assumption. }
  assert (T : Coordinator.tidy (Editor.world s)).
  { apply session_world_tidy. apply (step_tidy (Coordinator.EvAddListener _)), init_tidy. }
  assert (Tu : Coordinator.tidy (Editor.world u)).
  { unfold u, Editor.unmount. cbn [Editor.world].
    apply (step_tidy Coordinator.EvDispose), (step_tidy (Coordinator.EvUnsubscribe _)), T. }
  assert (Cu : Coordinator.currentPdfUrl (Coordinator.svc (Editor.world u)) = None
               /\ Coordinator.listeners (Coordinator.svc (Editor.world u)) = []
               /\ Editor.requested (Coordinator.trace (Editor.world u))
                  = Editor.requested (Coordinator.trace (Editor.world s))).
  { unfold u, Editor.unmount. cbn [Editor.world]. rewrite dispose_eq.
    cbn [Coordinator.svc Coordinator.currentPdfUrl Coordinator.listeners Coordinator.trace].
    destruct (unsubscribe_rest (Editor.listener oid) (Editor.world s)) as (_ & _ & _ & _ & Et).
    rewrite Et, requested_app.
    repeat split. destruct (Coordinator.currentPdfUrl _); simpl; apply app_nil_r. }
  destruct Cu as (Cc & Cl & Cr).
  split; [destruct Tu as [Tl _]; rewrite Tl, Cc; reflexivity|].
  split; [rewrite Ew, requested_replies; exact Cr|].
  split.
  - unfold s'. rewrite timer_follows_events.
    destruct (quiet_to_timer (Editor.typstCode u) after Hq) as (E1 & I & _).
    rewrite E1. destruct (idle_at_rest SourceText Editor.func Editor.DELAY _ _ I Ru) as [_ Hv'].
    rewrite Hv'. exact Hv.
  - destruct (run_without_listeners (Editor.replies after) _ Cl (replies_add_no_listener after))
      as (_ & es & E & C).
    unfold Coordinator.added. rewrite Ew, E, skipn_own_length. exact C.
Qed.

End SessionFacts.

Section SessionExamples.

Import EditorNotions.

Lemma typing_makes_one_request_witness :
  Editor.fluent (Editor.typstCode (Editor.run 0 [] (Editor.mount 0))) hi
                [([Editor.Wait 300; Editor.Timers], hey)]
  /\ Editor.requested
       (Coordinator.trace
          (Editor.world
             (Editor.run 0
                (Editor.typing hi [([Editor.Wait 300; Editor.Timers], hey)]
                 ++ [Editor.Wait 1000] ++ [Editor.Timers])
                (Editor.run 0 [] (Editor.mount 0)))))
     = Editor.requested
         (Coordinator.trace (Editor.world (Editor.run 0 [] (Editor.mount 0))))
       ++ [hey].
Proof.
  assert (F : Editor.fluent (Editor.typstCode (Editor.run 0 [] (Editor.mount 0))) hi
                [([Editor.Wait 300; Editor.Timers], hey)]).
  { simpl. repeat split; try discriminate. unfold Editor.DELAY. lia. }
  split; [exact F|].
  apply (typing_makes_one_request 0 [] hi [([Editor.Wait 300; Editor.Timers], hey)]
           [Editor.Wait 1000] F).
  - reflexivity.
  - simpl. unfold Editor.DELAY. lia.
Defined.

Lemma requests_are_texts_held_witness :
  In hi (Editor.requested
           (Coordinator.trace
              (Editor.world
                 (Editor.run 0 [Editor.Edit hi; Editor.CompileNow] (Editor.mount 0)))))
  /\ In hi (Editor.INITIAL_CODE :: Editor.texts [Editor.Edit hi; Editor.CompileNow]).
Proof.
  assert (H : In hi (Editor.requested
           (Coordinator.trace
              (Editor.world
                 (Editor.run 0 [Editor.Edit hi; Editor.CompileNow] (Editor.mount 0)))))).
  { vm_compute. left. reflexivity. }
  split; [exact H|].
  apply (requests_are_texts_held 0 [Editor.Edit hi; Editor.CompileNow] hi H).
Defined.

Lemma unmount_drops_pending_edit_witness :
  let before := [Editor.Edit hi; Editor.CompileNow; Editor.Wait 400] in
  let after := [Editor.Wait 2000; Editor.Timers;
                Editor.Answer 1 (Coordinator.Resolved [Byte.x25; Byte.x50])] in
  let s := Editor.run 0 before (Editor.mount 0) in
  let u := Editor.unmount 0 s in
  let s' := Editor.run 0 after u in
  forallb Editor.quiet after = true
  /\ Coordinator.live (Coordinator.trace (Editor.world u)) = []
  /\ Editor.requested (Coordinator.trace (Editor.world s'))
     = Editor.requested (Coordinator.trace (Editor.world s))
  /\ Helpers.invoked (Editor.timer s') = Helpers.invoked (Editor.timer s)
  /\ existsb Coordinator.is_callback (Coordinator.added (Editor.world u) (Editor.world s'))
     = false.
Proof.
  cbv zeta. split; [reflexivity|].
  apply (unmount_drops_pending_edit 0
           [Editor.Edit hi; Editor.CompileNow; Editor.Wait 400]
           [Editor.Wait 2000; Editor.Timers;
            Editor.Answer 1 (Coordinator.Resolved [Byte.x25; Byte.x50])]).
  reflexivity.
Defined.

End SessionExamples.
